(** * Password vault of application-resume: envelope codec, access gate,
      credential store and vault service

    Shallow embedding of
      - serveur/routes/motsDePasse.js       (chiffrer, dechiffrer, the vault routes),
      - serveur/middleware/auth.js          (verifierToken, verifierPin, verifierAdmin),
      - serveur/services/password.ts        (passwordService),
      - serveur/utils/db.ts                 (db.query),
      - serveur/base-de-donnees/init.sql    (the table mots_de_passe),
      - serveur/types/index.ts              (the error classes),
      - serveur/middleware/errorHandler.ts  (the error middlewares),
      - serveur/middleware/security.ts      (CORS, API key, origin, content type,
                                             input trimming),
      - utils/helpers.ts                    (isValidPassword, isValidPin, generatePin),
    with the properties of the vault and of the middlewares stated and proved
    over it.

    JavaScript strings are sequences of UTF-16 code units, Buffers are byte
    lists, SQL tables are finite maps keyed by their SERIAL primary key, and
    code that throws returns in a small state-and-exception monad. *)

From Stdlib Require Import ZArith Lia.
From stdpp Require Import base gmap strings list.

Local Open Scope Z_scope.

(** ** JavaScript values *)

Module Js.

(** A JS string: its UTF-16 code units, each in [0, 65536). *)
Abbreviation jsstring := (list Z).

(** A string literal of the source, ASCII only: one code unit per character. *)
Fixpoint lit (s : string) : jsstring :=
  match s with
  | EmptyString => []
  | String a s' => Z.of_N (Ascii.N_of_ascii a) :: lit s'
  end.

Definition str_length (s : jsstring) : Z := Z.of_nat (length s).

(** What a JS expression can throw in the modelled code. *)
Inductive JsError :=
| AppError (message : string) (status : Z)
| ReferenceError (identifier : string)
| TypeError (code : string)
| CryptoError (message : string)
| DatabaseError (message : string)
| JsonWebTokenError.

(** Outcome of evaluating code that may throw. *)
Inductive Res (A : Type) :=
| Ok (a : A)
| Throw (e : JsError).
Arguments Ok {A} a.
Arguments Throw {A} e.

(** State-and-exception monad: the state survives a throw, as in JS. *)
Definition M (St A : Type) : Type := St -> Res A * St.

Definition ret {St A} (a : A) : M St A := fun st => (Ok a, st).
Definition throw {St A} (e : JsError) : M St A := fun st => (Throw e, st).
Definition bind {St A B} (m : M St A) (k : A -> M St B) : M St B :=
  fun st => match m st with
            | (Ok a, st') => k a st'
            | (Throw e, st') => (Throw e, st')
            end.
(** [try { m } catch (error) { h error }] *)
Definition try_catch {St A} (m : M St A) (h : JsError -> M St A) : M St A :=
  fun st => match m st with
            | (Ok a, st') => (Ok a, st')
            | (Throw e, st') => h e st'
            end.
Definition get {St} : M St St := fun st => (Ok st, st).
Definition modify {St} (f : St -> St) : M St unit := fun st => (Ok tt, f st).

End Js.

Import Js.

Notation "'let*' x := m 'in' k" := (bind m (fun x => k))
  (at level 10, x name, m at level 100, k at level 200).
Notation "'do' m 'then' k" := (bind m (fun _ => k))
  (at level 10, m at level 100, k at level 200).

(** ** Doubles: the product [Math.random() * n] *)

Module Double.

(** The double nearest to [p / 2^53], as a multiple of [2^-53]: [p] rounded
    to 53 significant bits, to nearest, ties to even.  This is the product of
    a double [r / 2^53] of [Math.random()] and an integer [n], for [p = r * n]. *)
Definition round_to_double (p : Z) : Z :=
  let shift := Z.max 0 (Z.log2 p + 1 - 53) in
  let q := p / 2 ^ shift in
  let rest := p mod 2 ^ shift in
  let half := 2 ^ shift / 2 in
  let up := (half <? rest) || ((half =? rest) && (0 <? shift) && Z.odd q) in
  (if up then q + 1 else q) * 2 ^ shift.

(** Below [2^53] nothing is rounded. *)
Lemma round_to_double_exact (p : Z) : 0 <= p < 2 ^ 53 -> round_to_double p = p.
Proof.
  intros Hp. unfold round_to_double.
  assert (Hlog : Z.log2 p < 53).
  { destruct (Z.eq_dec p 0) as [-> | Hne]; [reflexivity |].
    apply Z.log2_lt_pow2; lia. }
  replace (Z.max 0 (Z.log2 p + 1 - 53)) with 0 by lia.
  change (2 ^ 0) with 1. rewrite Z.div_1_r, Z.mod_1_r.
  change (1 / 2) with 0. cbn [Z.ltb Z.eqb Z.compare orb andb]. lia.
Qed.

(** Rounding moves a number by at most half a unit of its last place. *)
Lemma round_to_double_bounds (p h : Z) :
  0 < h ->
  2 ^ 53 * h <= p < 2 ^ 53 * (2 * h) ->
  Z.log2 p + 1 - 53 = Z.log2 (2 * h) ->
  2 * h = 2 ^ Z.log2 (2 * h) ->
  p - h <= round_to_double p <= p + h.
Proof.
  intros Hh Hp Hshift Hpow. unfold round_to_double.
  assert (Hs : 0 <= Z.log2 (2 * h)) by apply Z.log2_nonneg.
  rewrite Hshift, Z.max_r by lia. rewrite <- Hpow.
  replace (2 * h / 2) with h by (apply Z.div_unique_exact; lia).
  assert (Hdiv : p = 2 * h * (p / (2 * h)) + p mod (2 * h)) by (apply Z.div_mod; lia).
  assert (Hmod : 0 <= p mod (2 * h) < 2 * h) by (apply Z.mod_pos_bound; lia).
  destruct ((h <? p mod (2 * h))
            || (h =? p mod (2 * h)) && (0 <? Z.log2 (2 * h)) && Z.odd (p / (2 * h)))
    eqn:Hup.
  - assert (Hrest : h <= p mod (2 * h)).
    { apply orb_true_iff in Hup as [Hup | Hup]; [apply Z.ltb_lt in Hup; lia |].
      apply andb_true_iff in Hup as [Hup _]. apply andb_true_iff in Hup as [Hup _].
      apply Z.eqb_eq in Hup. lia. }
    nia.
  - assert (Hrest : p mod (2 * h) <= h).
    { apply orb_false_iff in Hup as [Hup _]. apply Z.ltb_ge in Hup. exact Hup. }
    nia.
Qed.

(** [Math.floor(Math.random() * n)] is an index below [n]: the rounding of
    the product never reaches [n]. *)
Lemma floor_product_range (r n : Z) :
  0 <= r < 2 ^ 53 -> 0 < n ->
  0 <= round_to_double (r * n) / 2 ^ 53 < n.
Proof.
  intros Hr Hn.
  destruct (Z.lt_ge_cases (r * n) (2 ^ 53)) as [Hsmall | Hbig].
  - rewrite round_to_double_exact by nia.
    split; [apply Z.div_pos; nia | apply Z.div_lt_upper_bound; nia].
  - set (p := r * n) in *.
    assert (Hpos : 0 < p) by lia.
    pose proof (Z.log2_spec p Hpos) as Hlog.
    assert (Hl : 53 <= Z.log2 p).
    { apply Z.log2_le_pow2; lia. }
    set (s := Z.log2 p - 53) in *.
    assert (Hs : 0 <= s) by lia.
    set (h := 2 ^ s).
    assert (Hh : 0 < h) by (apply Z.pow_pos_nonneg; lia).
    assert (Hlow : 2 ^ Z.log2 p = 2 ^ 53 * h).
    { unfold h. rewrite <- Z.pow_add_r by lia. f_equal. lia. }
    assert (Hhigh : 2 ^ Z.succ (Z.log2 p) = 2 ^ 53 * (2 * h)).
    { rewrite Z.pow_succ_r by lia. lia. }
    assert (H2h : 2 * h = 2 ^ (s + 1)).
    { unfold h. rewrite Z.pow_add_r by lia. lia. }
    assert (Hlog2 : Z.log2 (2 * h) = s + 1).
    { rewrite H2h. apply Z.log2_pow2. lia. }
    assert (Hnear : p - h <= round_to_double p <= p + h).
    { apply round_to_double_bounds; [exact Hh | lia | lia | rewrite Hlog2; exact H2h]. }
    assert (Hhn : h < n) by nia.
    split; [apply Z.div_pos; lia | apply Z.div_lt_upper_bound; nia].
Qed.

(** Exact arithmetic would give index 17 here; the product is the double 18. *)
Example round_to_double_up :
  6235753330205302 * 26 / 2 ^ 53 = 17 /\
  round_to_double (6235753330205302 * 26) / 2 ^ 53 = 18.
Proof. split; reflexivity. Qed.

End Double.

(** ** serveur/services/password.ts : the pure helpers *)

Module Strength.

(** The character classes of the regular expressions, on one code unit. *)
Definition is_upper (c : Z) : bool := (65 <=? c) && (c <=? 90).
Definition is_lower (c : Z) : bool := (97 <=? c) && (c <=? 122).
Definition is_digit (c : Z) : bool := (48 <=? c) && (c <=? 57).
Definition is_special (c : Z) : bool :=
  negb (is_upper c || is_lower c || is_digit c).

(** [/[...]/.test(s)] for a single character class: some code unit is in it. *)
Definition regex_test (class : Z -> bool) (s : jsstring) : bool := existsb class s.

Definition msg_length : string := "Le mot de passe doit contenir au moins 8 caractères".
Definition msg_upper : string := "Ajouter au moins une majuscule".
Definition msg_lower : string := "Ajouter au moins une minuscule".
Definition msg_digit : string := "Ajouter au moins un chiffre".
Definition msg_special : string := "Ajouter au moins un caractère spécial".
Definition msg_strong : string := "Mot de passe fort".

Record StrengthResult := { score : Z; feedback : list string }.

(** One [if (cond) { score += 1 } else { feedback.push(msg) }]. *)
Definition criterion (cond : bool) (msg : string) (acc : Z * list string)
  : Z * list string :=
  if cond then (fst acc + 1, snd acc) else (fst acc, snd acc ++ [msg]).

(** passwordService.checkPasswordStrength *)
Definition checkPasswordStrength (password : jsstring) : StrengthResult :=
  let acc := (0, []) in
  let acc := criterion (8 <=? str_length password) msg_length acc in
  let acc := criterion (regex_test is_upper password) msg_upper acc in
  let acc := criterion (regex_test is_lower password) msg_lower acc in
  let acc := criterion (regex_test is_digit password) msg_digit acc in
  let acc := criterion (regex_test is_special password) msg_special acc in
  let score := if 12 <=? str_length password then fst acc + 1 else fst acc in
  {| score := score;
     feedback := if 0 <? Z.of_nat (length (snd acc)) then snd acc else [msg_strong] |}.

(** The five criteria that carry a message, in the order of the source, each
    with its test; the sixth (length >= 12) only adds to the score. *)
Definition message_criteria (password : jsstring) : list (bool * string) :=
  [ (8 <=? str_length password, msg_length);
    (regex_test is_upper password, msg_upper);
    (regex_test is_lower password, msg_lower);
    (regex_test is_digit password, msg_digit);
    (regex_test is_special password, msg_special) ].

(** The feedback as the specification words it: the messages of the failed
    criteria in order, or the sentinel when none failed. *)
Definition failed_messages (password : jsstring) : list string :=
  map snd (List.filter (fun c => negb (fst c)) (message_criteria password)).

Definition feedback_spec (password : jsstring) : list string :=
  match failed_messages password with
  | [] => [msg_strong]
  | m :: ms => m :: ms
  end.

Definition passed (password : jsstring) : Z :=
  Z.of_nat (length (List.filter (fun c => fst c) (message_criteria password))).

Definition all_message_criteria_pass (password : jsstring) : bool :=
  forallb fst (message_criteria password).

Example strength_weak :
  checkPasswordStrength (lit "weak") =
  {| score := 1; feedback := [msg_length; msg_upper; msg_digit; msg_special] |}.
Proof. reflexivity. Qed.

Example strength_strong :
  checkPasswordStrength (lit "StrongP@ss123") =
  {| score := 6; feedback := [msg_strong] |}.
Proof. reflexivity. Qed.

Example strength_test_suite :
  checkPasswordStrength (lit "StrongP@ssw0rd") =
  {| score := 6; feedback := [msg_strong] |}.
Proof. reflexivity. Qed.

Lemma feedback_refines (password : jsstring) :
  feedback (checkPasswordStrength password) = feedback_spec password.
Proof.
  unfold checkPasswordStrength, feedback_spec, failed_messages, message_criteria,
    criterion; cbn [feedback List.filter map fst snd negb].
  destruct (8 <=? str_length password), (regex_test is_upper password),
    (regex_test is_lower password), (regex_test is_digit password),
    (regex_test is_special password); reflexivity.
Qed.

Lemma score_counts (password : jsstring) :
  score (checkPasswordStrength password) =
  passed password + (if 12 <=? str_length password then 1 else 0).
Proof.
  unfold checkPasswordStrength, passed, message_criteria, criterion;
    cbn [score List.filter fst snd].
  destruct (8 <=? str_length password), (regex_test is_upper password),
    (regex_test is_lower password), (regex_test is_digit password),
    (regex_test is_special password), (12 <=? str_length password); reflexivity.
Qed.

(** C8, as stated, fails: an eight-character password with all four classes
    gets the sentinel although its score is 5, not the maximum. *)
Lemma sentinel_below_maximum :
  feedback (checkPasswordStrength (lit "Abcdef1!")) = [msg_strong] /\
  score (checkPasswordStrength (lit "Abcdef1!")) = 5 /\
  ~ (forall password,
        feedback (checkPasswordStrength password) = [msg_strong] <->
        score (checkPasswordStrength password) = 6).
Proof.
  split; [reflexivity | split; [reflexivity |]].
  intros H. specialize (H (lit "Abcdef1!")). destruct H as [H _].
  specialize (H eq_refl). discriminate H.
Qed.

(** C8 (amended): the feedback lists, in the fixed order of the source, the
    message of every failed criterion among the five that carry one; it is
    never empty; it is the one-element sentinel exactly when none of these
    five failed, which is the case whenever the score is the maximum 6 and
    only when the score is 5 or 6. *)
Theorem checkPasswordStrength_feedback (password : jsstring) :
  let r := checkPasswordStrength password in
  feedback r = feedback_spec password /\
  feedback r <> [] /\
  (feedback r = [msg_strong] <-> all_message_criteria_pass password = true) /\
  (score r = 6 -> feedback r = [msg_strong]) /\
  (feedback r = [msg_strong] -> score r = 5 \/ score r = 6) /\
  0 <= score r <= 6.
Proof.
  cbv zeta. rewrite feedback_refines, score_counts.
  unfold feedback_spec, failed_messages, all_message_criteria_pass, passed,
    message_criteria; cbn [List.filter map forallb fst snd negb].
  destruct (8 <=? str_length password) eqn:H8, (regex_test is_upper password),
    (regex_test is_lower password), (regex_test is_digit password),
    (regex_test is_special password), (12 <=? str_length password) eqn:H12;
    cbn; repeat split; intros; try discriminate; try lia; auto.
  all: apply Z.leb_le in H12; apply Z.leb_gt in H8; lia.
Qed.

(** Every code unit is in one of the four classes of the regular
    expressions. *)
Lemma class_exhaustive (c : Z) :
  is_upper c || is_lower c || is_digit c || is_special c = true.
Proof.
  unfold is_special. destruct (is_upper c || is_lower c || is_digit c); reflexivity.
Qed.

Lemma nonempty_has_class (c : Z) (s : jsstring) :
  regex_test is_upper (c :: s) || regex_test is_lower (c :: s)
  || regex_test is_digit (c :: s) || regex_test is_special (c :: s) = true.
Proof.
  unfold regex_test. cbn [existsb].
  pose proof (class_exhaustive c) as H.
  destruct (is_upper c), (is_lower c), (is_digit c), (is_special c);
    try discriminate H; cbn; rewrite ?orb_true_r; reflexivity.
Qed.

(** X1: the score of [checkPasswordStrength] is the maximum 6 exactly for a
    password of at least 12 code units that has an uppercase letter, a
    lowercase letter, a digit and a special character; it is 0 exactly for
    the empty password, and a password of 12 or more code units scores at
    least 3. *)
Theorem checkPasswordStrength_score (password : jsstring) :
  let r := checkPasswordStrength password in
  (score r = 6 <->
     12 <= str_length password /\
     regex_test is_upper password = true /\ regex_test is_lower password = true /\
     regex_test is_digit password = true /\ regex_test is_special password = true) /\
  (score r = 0 <-> password = []) /\
  (12 <= str_length password -> 3 <= score r).
Proof.
  cbv zeta. rewrite score_counts. unfold passed, message_criteria.
  cbn [List.filter fst snd].
  destruct password as [| c s].
  - cbn. repeat split; intros; try discriminate; try lia; tauto.
  - pose proof (nonempty_has_class c s) as Hclass.
    assert (Hlen : 0 < str_length (c :: s))
      by (unfold str_length; cbn [length]; lia).
    destruct (8 <=? str_length (c :: s)) eqn:H8,
      (regex_test is_upper (c :: s)), (regex_test is_lower (c :: s)),
      (regex_test is_digit (c :: s)), (regex_test is_special (c :: s)),
      (12 <=? str_length (c :: s)) eqn:H12;
      try discriminate Hclass; cbn;
      try apply Z.leb_le in H12; try apply Z.leb_gt in H12;
      try apply Z.leb_le in H8; try apply Z.leb_gt in H8;
      repeat split; intros; try discriminate; try lia; try tauto;
      try (destruct H as (? & ? & ? & ? & ?); discriminate || lia).
Qed.

End Strength.

(** ** passwordService.generateSecurePassword *)

Module Generator.
Import Strength.

(** The state of the generator is the number of [Math.random()] calls made
    so far. *)
Definition Rng := nat.

Section Engine.

(** The [k]-th call of [Math.random()] returns [random_bits k mod 2^53 / 2^53],
    a double in [0, 1). *)
Variable random_bits : nat -> Z.

(** [Array.prototype.sort] with a comparison function.  With an inconsistent
    comparator, as here, the order is implementation-defined (ECMA-262
    23.1.3.30); the result is still the same elements in some order. *)
Variable Array_sort : (Z -> Z -> M Rng Z) -> list Z -> M Rng (list Z).

Definition sort_permutes : Prop :=
  forall cmp l st,
    (forall a b s, exists v s', cmp a b s = (Ok v, s')) ->
    exists l' st', Array_sort cmp l st = (Ok l', st') /\ Permutation l' l.

(** Numerator of the double returned by [Math.random()]. *)
Definition Math_random : M Rng Z :=
  fun n => (Ok (random_bits n mod 2 ^ 53), S n).

(** [array[Math.floor(Math.random() * array.length)]]: the product is a
    double, the one nearest to the exact product; an index outside the array
    (which cannot happen) would read [undefined], here 0. *)
Definition getRandomElement (array : list Z) : M Rng Z :=
  let* r := Math_random in
  ret (nth (Z.to_nat (Double.round_to_double (r * Z.of_nat (length array)) / 2 ^ 53))
         array 0).

Definition lowercase : list Z := lit "abcdefghijklmnopqrstuvwxyz".
Definition uppercase : list Z := lit "ABCDEFGHIJKLMNOPQRSTUVWXYZ".
Definition numbers : list Z := lit "0123456789".
Definition symbols : list Z := lit "!@#$%^&*()_+-=[]{}|;:,.<>?".
Definition allChars : list Z := lowercase ++ uppercase ++ numbers ++ symbols.

(** [while (password.length < length) password.push(getRandomElement(allChars))];
    [fuel] bounds the number of iterations. *)
Fixpoint fill (fuel : nat) (length : Z) (password : list Z) : M Rng (list Z) :=
  match fuel with
  | O => ret password
  | S fuel' =>
      if str_length password <? length then
        let* c := getRandomElement allChars in
        fill fuel' length (password ++ [c])
      else ret password
  end.

(** [() => Math.random() - 0.5]: the sign of the difference. *)
Definition random_comparator (_ _ : Z) : M Rng Z :=
  let* r := Math_random in
  ret (Z.sgn (2 * r - 2 ^ 53)).

(** passwordService.generateSecurePassword; [join('')] of one-character
    strings is the list of their code units. *)
Definition generateSecurePassword (length : Z) : M Rng jsstring :=
  let* l := getRandomElement lowercase in
  let* u := getRandomElement uppercase in
  let* n := getRandomElement numbers in
  let* s := getRandomElement symbols in
  let password := [l; u; n; s] in
  let* password := fill (Z.to_nat length) length password in
  Array_sort random_comparator password.

Lemma getRandomElement_In (array : list Z) (st : Rng) :
  array <> [] ->
  exists c, getRandomElement array st = (Ok c, S st) /\ In c array.
Proof.
  intros Hne. unfold getRandomElement, bind, Math_random, ret.
  eexists; split; [reflexivity |].
  apply nth_In.
  assert (Hr : 0 <= random_bits st mod 2 ^ 53 < 2 ^ 53)
    by (apply Z.mod_pos_bound; lia).
  assert (Hl : 0 < Z.of_nat (length array))
    by (destruct array; [congruence | cbn [length]; lia]).
  pose proof (Double.floor_product_range _ _ Hr Hl) as Hidx.
  apply Nat2Z.inj_lt. rewrite Z2Nat.id; lia.
Qed.

Lemma fill_spec (fuel : nat) (length : Z) :
  forall password st,
    length - str_length password <= Z.of_nat fuel ->
    exists extra st',
      fill fuel length password st = (Ok (password ++ extra), st') /\
      str_length (password ++ extra) = Z.max (str_length password) length.
Proof.
  induction fuel as [| fuel IH]; intros password st Hfuel; cbn [fill].
  - exists [], st. rewrite app_nil_r. split; [reflexivity | lia].
  - destruct (Z.ltb_spec (str_length password) length) as [Hlt | Hge].
    + destruct (getRandomElement_In allChars st) as (c & Hc & _); [discriminate |].
      unfold bind at 1. rewrite Hc.
      assert (Hpush : str_length (password ++ [c]) = str_length password + 1)
        by (unfold str_length; rewrite length_app; cbn [List.length]; lia).
      destruct (IH (password ++ [c]) (S st)) as (extra & st' & Hrun & Hlen); [lia |].
      exists (c :: extra), st'. rewrite <- app_assoc in Hrun, Hlen. cbn in Hrun, Hlen.
      split; [exact Hrun | lia].
    + exists [], st. rewrite app_nil_r. split; [reflexivity | lia].
Qed.

Lemma random_comparator_returns (a b : Z) (s : Rng) :
  exists v s', random_comparator a b s = (Ok v, s').
Proof. unfold random_comparator, bind, Math_random, ret. eauto. Qed.

Lemma existsb_Permutation (p : Z -> bool) (l l' : list Z) :
  Permutation l l' -> existsb p l = existsb p l'.
Proof.
  induction 1; cbn; try congruence.
  destruct (p x), (p y); reflexivity.
Qed.

Lemma existsb_In (p : Z -> bool) (l : list Z) (c : Z) :
  In c l -> p c = true -> existsb p l = true.
Proof. intros Hin Hp. apply existsb_exists. eauto. Qed.

Lemma class_of_In (p : Z -> bool) (array : list Z) (c : Z) :
  forallb p array = true -> In c array -> p c = true.
Proof. intros Hall Hin. rewrite forallb_forall in Hall. auto. Qed.

(** The generator returns, for every requested length, a password of
    [max 4 length] code units with one character of each class. *)
Lemma generateSecurePassword_spec (length : Z) (st : Rng) :
  sort_permutes ->
  exists pw st',
    generateSecurePassword length st = (Ok pw, st') /\
    str_length pw = Z.max 4 length /\
    regex_test is_lower pw = true /\ regex_test is_upper pw = true /\
    regex_test is_digit pw = true /\ regex_test is_special pw = true.
Proof.
  intros Hsort. unfold generateSecurePassword.
  destruct (getRandomElement_In lowercase st) as (l & Hl & Hlin); [discriminate |].
  destruct (getRandomElement_In uppercase (S st)) as (u & Hu & Huin); [discriminate |].
  destruct (getRandomElement_In numbers (S (S st))) as (n & Hn & Hnin); [discriminate |].
  destruct (getRandomElement_In symbols (S (S (S st)))) as (s & Hs & Hsin); [discriminate |].
  unfold bind at 1; rewrite Hl. unfold bind at 1; rewrite Hu.
  unfold bind at 1; rewrite Hn. unfold bind at 1; rewrite Hs.
  destruct (fill_spec (Z.to_nat length) length [l; u; n; s] (S (S (S (S st)))))
    as (extra & st1 & Hfill & Hlen); [unfold str_length; cbn [List.length]; lia |].
  unfold bind; rewrite Hfill.
  destruct (Hsort random_comparator ([l; u; n; s] ++ extra) st1 random_comparator_returns)
    as (pw & st2 & Hrun & Hperm).
  exists pw, st2. split; [exact Hrun |].
  unfold regex_test, str_length in *.
  rewrite (Permutation_length Hperm), !(existsb_Permutation _ _ _ Hperm), Hlen.
  cbn [List.length].
  split; [reflexivity |].
  repeat split.
  - apply (existsb_In _ _ l); [cbn; auto | exact (class_of_In is_lower lowercase l eq_refl Hlin)].
  - apply (existsb_In _ _ u); [cbn; auto | exact (class_of_In is_upper uppercase u eq_refl Huin)].
  - apply (existsb_In _ _ n); [cbn; auto | exact (class_of_In is_digit numbers n eq_refl Hnin)].
  - apply (existsb_In _ _ s); [cbn; auto | exact (class_of_In is_special symbols s eq_refl Hsin)].
Qed.

(** C7 (amended): for every requested length below 4 the generator raises
    nothing: it returns a password of exactly four characters, one of each
    class. *)
Theorem generateSecurePassword_short (length : Z) (st : Rng) :
  sort_permutes ->
  length < 4 ->
  exists pw st',
    generateSecurePassword length st = (Ok pw, st') /\
    str_length pw = 4 /\
    regex_test is_lower pw = true /\ regex_test is_upper pw = true /\
    regex_test is_digit pw = true /\ regex_test is_special pw = true.
Proof.
  intros Hsort Hlt.
  destruct (generateSecurePassword_spec length st Hsort)
    as (pw & st' & Hrun & Hlen & Hclasses).
  exists pw, st'. split; [exact Hrun |]. split; [lia | exact Hclasses].
Qed.

(** The loop pushes characters of [allChars] only, one per call of
    [Math.random()]. *)
Lemma fill_alphabet (fuel : nat) (length : Z) :
  forall password st,
    length - str_length password <= Z.of_nat fuel ->
    exists extra,
      fill fuel length password st = (Ok (password ++ extra), (st + List.length extra)%nat) /\
      str_length (password ++ extra) = Z.max (str_length password) length /\
      Forall (fun c => In c allChars) extra.
Proof.
  induction fuel as [| fuel IH]; intros password st Hfuel; cbn [fill].
  - exists []. rewrite app_nil_r, Nat.add_0_r. split; [reflexivity |].
    split; [lia | constructor].
  - destruct (Z.ltb_spec (str_length password) length) as [Hlt | Hge].
    + destruct (getRandomElement_In allChars st) as (c & Hc & Hin); [discriminate |].
      unfold bind at 1. rewrite Hc.
      assert (Hpush : str_length (password ++ [c]) = str_length password + 1)
        by (unfold str_length; rewrite length_app; cbn [List.length]; lia).
      destruct (IH (password ++ [c]) (S st)) as (extra & Hrun & Hlen & Hall); [lia |].
      exists (c :: extra). rewrite <- app_assoc in Hrun, Hlen. cbn [app] in Hrun, Hlen.
      cbn [List.length]. rewrite Nat.add_succ_r.
      split; [exact Hrun | split; [lia | constructor; assumption]].
    + exists []. rewrite app_nil_r, Nat.add_0_r. split; [reflexivity |].
      split; [lia | constructor].
Qed.

Lemma Forall_Permutation_In (l l' : list Z) :
  Permutation l' l -> Forall (fun c => In c allChars) l -> Forall (fun c => In c allChars) l'.
Proof.
  intros Hperm Hall. rewrite List.Forall_forall in *.
  intros c Hc. apply Hall. exact (Permutation_in _ Hperm Hc).
Qed.

(** X2: for every requested length, [generateSecurePassword] returns a
    password of exactly max(4, length) characters, all of them taken from
    the 88 characters of [allChars], with at least one lowercase letter, one
    uppercase letter, one digit and one symbol, whatever [Math.random()]
    returns and in whatever order the sort leaves the characters. *)
Theorem generateSecurePassword_alphabet (length : Z) (st : Rng) :
  sort_permutes ->
  exists pw st',
    generateSecurePassword length st = (Ok pw, st') /\
    str_length pw = Z.max 4 length /\
    Forall (fun c => In c allChars) pw /\
    regex_test is_lower pw = true /\ regex_test is_upper pw = true /\
    regex_test is_digit pw = true /\ regex_test is_special pw = true.
Proof.
  intros Hsort. unfold generateSecurePassword.
  destruct (getRandomElement_In lowercase st) as (l & Hl & Hlin); [discriminate |].
  destruct (getRandomElement_In uppercase (S st)) as (u & Hu & Huin); [discriminate |].
  destruct (getRandomElement_In numbers (S (S st))) as (n & Hn & Hnin); [discriminate |].
  destruct (getRandomElement_In symbols (S (S (S st)))) as (s & Hs & Hsin); [discriminate |].
  unfold bind at 1; rewrite Hl. unfold bind at 1; rewrite Hu.
  unfold bind at 1; rewrite Hn. unfold bind at 1; rewrite Hs.
  destruct (fill_alphabet (Z.to_nat length) length [l; u; n; s] (S (S (S (S st)))))
    as (extra & Hfill & Hlen & Hall); [unfold str_length; cbn [List.length]; lia |].
  unfold bind; rewrite Hfill.
  destruct (Hsort random_comparator ([l; u; n; s] ++ extra)
              (S (S (S (S st))) + List.length extra)%nat random_comparator_returns)
    as (pw & st2 & Hrun & Hperm).
  exists pw, st2. split; [exact Hrun |].
  assert (Hchars : Forall (fun c => In c allChars) ([l; u; n; s] ++ extra)).
  { assert (Hsub : forall c, In c lowercase \/ In c uppercase \/ In c numbers \/ In c symbols ->
                              In c allChars)
      by (intros c; unfold allChars; rewrite !in_app_iff; tauto).
    apply Forall_app. split; [| exact Hall].
    apply List.Forall_cons; [apply Hsub; tauto |].
    apply List.Forall_cons; [apply Hsub; tauto |].
    apply List.Forall_cons; [apply Hsub; tauto |].
    apply List.Forall_cons; [apply Hsub; tauto | apply List.Forall_nil]. }
  unfold regex_test, str_length in *.
  rewrite (Permutation_length Hperm), !(existsb_Permutation _ _ _ Hperm), Hlen.
  cbn [List.length].
  split; [reflexivity |].
  split; [exact (Forall_Permutation_In _ _ Hperm Hchars) |].
  repeat split.
  - apply (existsb_In _ _ l); [cbn; auto | exact (class_of_In is_lower lowercase l eq_refl Hlin)].
  - apply (existsb_In _ _ u); [cbn; auto | exact (class_of_In is_upper uppercase u eq_refl Huin)].
  - apply (existsb_In _ _ n); [cbn; auto | exact (class_of_In is_digit numbers n eq_refl Hnin)].
  - apply (existsb_In _ _ s); [cbn; auto | exact (class_of_In is_special symbols s eq_refl Hsin)].
Qed.

(** X3: what [checkPasswordStrength] says of a generated password depends on
    the requested length only: below 8 its one reproach is the length
    (score 4), from 8 to 11 the feedback is the sentinel with score 5, and
    from 12 on, so for the default length 16, the score is the maximum 6. *)
Theorem generated_password_strength (length : Z) (st : Rng) :
  sort_permutes ->
  exists pw st',
    generateSecurePassword length st = (Ok pw, st') /\
    (length < 8 ->
       score (checkPasswordStrength pw) = 4 /\
       feedback (checkPasswordStrength pw) = [msg_length]) /\
    (8 <= length < 12 ->
       score (checkPasswordStrength pw) = 5 /\
       feedback (checkPasswordStrength pw) = [msg_strong]) /\
    (12 <= length ->
       score (checkPasswordStrength pw) = 6 /\
       feedback (checkPasswordStrength pw) = [msg_strong]).
Proof.
  intros Hsort.
  destruct (generateSecurePassword_spec length st Hsort)
    as (pw & st' & Hrun & Hlen & Hlo & Hup & Hdi & Hsp).
  exists pw, st'. split; [exact Hrun |].
  unfold checkPasswordStrength, criterion. rewrite Hlo, Hup, Hdi, Hsp, Hlen.
  cbn [score feedback fst snd].
  destruct (Z.leb_spec 8 (Z.max 4 length)), (Z.leb_spec 12 (Z.max 4 length));
    cbn; repeat split; intros; try reflexivity; lia.
Qed.

End Engine.

(** *** V8's [Array.prototype.sort]

    Node runs V8, whose sort is TimSort (builtins/array-sort.tq).  The
    minimal run length of an array of fewer than 64 elements is its length,
    so such an array is sorted as one run: [CountAndMakeRun] finds the run
    that starts the array, and [BinaryInsertionSort] inserts the elements
    after it one by one; no merge takes place.  The definitions below are
    those two procedures, with the copies of the work array left out. *)

(** The loop of [CountAndMakeRun]: the run goes on while consecutive
    elements compare as the first two did. *)
Fixpoint count_run (cmp : Z -> Z -> M Rng Z) (isDescending : bool) (previousElement : Z)
    (rest : list Z) (runLength : nat) : M Rng nat :=
  match rest with
  | [] => ret runLength
  | currentElement :: rest' =>
      let* order := cmp currentElement previousElement in
      if (if isDescending then 0 <=? order else order <? 0) then ret runLength
      else count_run cmp isDescending currentElement rest' (S runLength)
  end.

(** [CountAndMakeRun(0, length)]: the length of the run and the array, a
    descending run reversed. *)
Definition CountAndMakeRun (cmp : Z -> Z -> M Rng Z) (workArray : list Z)
  : M Rng (nat * list Z) :=
  match workArray with
  | elementHigh :: elementLow :: rest =>
      let* order := cmp elementLow elementHigh in
      let isDescending := order <? 0 in
      let* runLength := count_run cmp isDescending elementLow rest 2 in
      ret (runLength,
           if isDescending
           then rev (take runLength workArray) ++ drop runLength workArray
           else workArray)
  | _ => ret (length workArray, workArray)
  end.

(** The binary search of [BinaryInsertionSort] for the place of [pivot] in
    [workArray[left .. right)]; [fuel] bounds the number of halvings. *)
Fixpoint binary_search (fuel : nat) (cmp : Z -> Z -> M Rng Z) (workArray : list Z)
    (pivot : Z) (left right : nat) : M Rng nat :=
  match fuel with
  | O => ret left
  | S fuel' =>
      if (left <? right)%nat then
        let mid := (left + (right - left) / 2)%nat in
        let* order := cmp pivot (nth mid workArray 0) in
        if order <? 0 then binary_search fuel' cmp workArray pivot left mid
        else binary_search fuel' cmp workArray pivot (S mid) right
      else ret left
  end.

(** [BinaryInsertionSort(0, start, start + steps)]: each element from
    [start] on is moved to its place among those before it. *)
Fixpoint BinaryInsertionSort (steps : nat) (cmp : Z -> Z -> M Rng Z) (workArray : list Z)
    (start : nat) : M Rng (list Z) :=
  match steps with
  | O => ret workArray
  | S steps' =>
      let pivot := nth start workArray 0 in
      let* left := binary_search start cmp workArray pivot 0 start in
      BinaryInsertionSort steps' cmp
        (take left workArray ++ pivot :: take (start - left) (drop left workArray)
           ++ drop (S start) workArray)
        (S start)
  end.

(** [ArrayTimSortImpl] on fewer than 64 elements. *)
Definition ArrayTimSort (cmp : Z -> Z -> M Rng Z) (array : list Z) : M Rng (list Z) :=
  if (length array <? 2)%nat then ret array
  else
    let* run := CountAndMakeRun cmp array in
    BinaryInsertionSort (length array - fst run) cmp (snd run) (fst run).

Section Comparator.

Variable cmp : Z -> Z -> M Rng Z.
Hypothesis cmp_returns : forall a b s, exists v s', cmp a b s = (Ok v, s').

Lemma count_run_bounds (isDescending : bool) (rest : list Z) :
  forall previousElement runLength st,
    exists n st',
      count_run cmp isDescending previousElement rest runLength st = (Ok n, st') /\
      (runLength <= n <= runLength + length rest)%nat.
Proof.
  induction rest as [| c rest IH]; intros previous k st; cbn [count_run].
  - exists k, st. split; [reflexivity | cbn [length]; lia].
  - destruct (cmp_returns c previous st) as (v & s' & Hv).
    unfold bind at 1. rewrite Hv.
    destruct (if isDescending then 0 <=? v else v <? 0).
    + exists k, s'. split; [reflexivity | cbn [length]; lia].
    + destruct (IH c (S k) s') as (n & st' & Hrun & Hn).
      exists n, st'. split; [exact Hrun | cbn [length]; lia].
Qed.

Lemma CountAndMakeRun_permutes (workArray : list Z) (st : Rng) :
  exists n l' st',
    CountAndMakeRun cmp workArray st = (Ok (n, l'), st') /\
    Permutation l' workArray /\ (n <= length workArray)%nat.
Proof.
  destruct workArray as [| x [| y rest]];
    try (eexists _, _, _; split; [reflexivity | split; [reflexivity | cbn [length]; lia]]).
  cbn [CountAndMakeRun].
  destruct (cmp_returns y x st) as (v & s1 & Hv). unfold bind at 1. rewrite Hv.
  destruct (count_run_bounds (v <? 0) rest y 2%nat s1) as (n & s2 & Hrun & Hn).
  unfold bind, ret. rewrite Hrun.
  eexists _, _, _. split; [reflexivity |].
  split; [| cbn [length]; lia].
  destruct (v <? 0); [| reflexivity].
  rewrite <- (take_drop n (x :: y :: rest)) at 3.
  apply Permutation_app_tail. symmetry. apply Permutation_rev.
Qed.

Lemma binary_search_bounds (fuel : nat) (workArray : list Z) (pivot : Z) :
  forall left right st,
    (left <= right)%nat ->
    exists n st',
      binary_search fuel cmp workArray pivot left right st = (Ok n, st') /\
      (left <= n <= right)%nat.
Proof.
  induction fuel as [| fuel IH]; intros left right st Hle; cbn [binary_search].
  - exists left, st. split; [reflexivity | lia].
  - destruct (Nat.ltb_spec left right) as [Hlt | Hge];
      [| exists left, st; split; [reflexivity | lia]].
    assert (Hmid : (left <= left + (right - left) / 2 < right)%nat).
    { split; [lia |].
      assert ((right - left) / 2 < right - left)%nat by (apply Nat.div_lt; lia). lia. }
    destruct (cmp_returns pivot (nth (left + (right - left) / 2) workArray 0) st)
      as (v & s' & Hv).
    unfold bind at 1. rewrite Hv.
    destruct (v <? 0).
    + destruct (IH left (left + (right - left) / 2)%nat s') as (n & st' & Hrun & Hn); [lia |].
      exists n, st'. split; [exact Hrun | lia].
    + destruct (IH (S (left + (right - left) / 2)) right s') as (n & st' & Hrun & Hn); [lia |].
      exists n, st'. split; [exact Hrun | lia].
Qed.

(** Moving the element at [start] to position [left] permutes the array. *)
Lemma move_permutes (workArray : list Z) (left start : nat) :
  (left <= start < length workArray)%nat ->
  Permutation
    (take left workArray ++ nth start workArray 0
       :: take (start - left) (drop left workArray) ++ drop (S start) workArray)
    workArray.
Proof.
  intros Hrange.
  assert (Hnth : workArray !! start = Some (nth start workArray 0)).
  { destruct (lookup_lt_is_Some_2 workArray start) as [x Hx]; [lia |].
    rewrite (nth_lookup_Some _ _ 0 _ Hx). exact Hx. }
  rewrite <- (take_drop_middle workArray start _ Hnth) at 5.
  replace (take start workArray)
    with (take left workArray ++ take (start - left) (drop left workArray)).
  - rewrite <- app_assoc. apply Permutation_app_head, Permutation_middle.
  - rewrite take_take_drop. f_equal. lia.
Qed.

Lemma BinaryInsertionSort_permutes (steps : nat) :
  forall workArray start st,
    (start + steps <= length workArray)%nat ->
    exists l' st',
      BinaryInsertionSort steps cmp workArray start st = (Ok l', st') /\
      Permutation l' workArray.
Proof.
  induction steps as [| steps IH]; intros workArray start st Hlen; cbn [BinaryInsertionSort].
  - exists workArray, st. split; [reflexivity | reflexivity].
  - destruct (binary_search_bounds start workArray (nth start workArray 0) 0%nat start st)
      as (left & s1 & Hsearch & Hleft); [lia |].
    unfold bind. rewrite Hsearch.
    assert (Hmove := move_permutes workArray left start).
    set (moved := take left workArray ++ nth start workArray 0
                    :: take (start - left) (drop left workArray)
                    ++ drop (S start) workArray) in *.
    assert (Hperm : Permutation moved workArray) by (apply Hmove; lia).
    destruct (IH moved (S start) s1) as (l' & st' & Hrun & Hperm');
      [rewrite (Permutation_length Hperm); lia |].
    exists l', st'. split; [exact Hrun | rewrite Hperm'; exact Hperm].
Qed.

End Comparator.

Lemma ArrayTimSort_permutes : sort_permutes ArrayTimSort.
Proof.
  intros cmp l st Hcmp. unfold ArrayTimSort.
  destruct (length l <? 2)%nat; [exists l, st; split; reflexivity |].
  destruct (CountAndMakeRun_permutes cmp Hcmp l st) as (n & l1 & s1 & Hrun & Hperm & Hn).
  unfold bind. rewrite Hrun. cbn [fst snd].
  destruct (BinaryInsertionSort_permutes cmp Hcmp (length l - n) l1 n s1)
    as (l' & st' & Hsort & Hperm'); [rewrite (Permutation_length Hperm); lia |].
  exists l', st'. split; [exact Hsort | rewrite Hperm'; exact Hperm].
Qed.

(** C7, as stated, fails: [generateSecurePassword(2)] returns a password.
    When every [Math.random()] is 0 the four characters drawn are "aA0!" and
    the comparator always answers -0.5, so the array is one descending run,
    which the sort reverses. *)
Lemma generateSecurePassword_2_returns :
  fst (generateSecurePassword (fun _ => 0) ArrayTimSort 2 0%nat) = Ok (lit "!0Aa").
Proof. vm_compute. reflexivity. Qed.

(** With every [Math.random()] at 6235753330205302 / 2^53 the products round
    up to the next index (18 and not 17 of the letters), and the comparator
    always answers a positive number, so the array is one ascending run. *)
Example generateSecurePassword_4_example :
  fst (generateSecurePassword (fun _ => 6235753330205302) ArrayTimSort 4 0%nat)
  = Ok (lit "sS6|").
Proof. vm_compute. reflexivity. Qed.

Lemma generateSecurePassword_short_witness :
  exists pw st',
    generateSecurePassword (fun k => Z.of_nat k * 2 ^ 50) ArrayTimSort 2 0%nat
      = (Ok pw, st') /\
    str_length pw = 4 /\
    regex_test is_lower pw = true /\ regex_test is_upper pw = true /\
    regex_test is_digit pw = true /\ regex_test is_special pw = true.
Proof.
  apply (generateSecurePassword_short (fun k => Z.of_nat k * 2 ^ 50) ArrayTimSort 2 0%nat).
  - exact ArrayTimSort_permutes.
  - lia.
Defined.

Lemma generateSecurePassword_alphabet_witness :
  exists pw st',
    generateSecurePassword (fun k => Z.of_nat k * 2 ^ 50 + 12345) ArrayTimSort 16 0%nat
      = (Ok pw, st') /\
    str_length pw = Z.max 4 16 /\
    Forall (fun c => In c allChars) pw /\
    regex_test is_lower pw = true /\ regex_test is_upper pw = true /\
    regex_test is_digit pw = true /\ regex_test is_special pw = true.
Proof.
  apply (generateSecurePassword_alphabet (fun k => Z.of_nat k * 2 ^ 50 + 12345)
           ArrayTimSort 16 0%nat).
  exact ArrayTimSort_permutes.
Defined.

Lemma generated_password_strength_witness :
  exists pw st',
    generateSecurePassword (fun k => Z.of_nat k * 2 ^ 50 + 12345) ArrayTimSort 16 0%nat
      = (Ok pw, st') /\
    (16 < 8 ->
       score (checkPasswordStrength pw) = 4 /\
       feedback (checkPasswordStrength pw) = [msg_length]) /\
    (8 <= 16 < 12 ->
       score (checkPasswordStrength pw) = 5 /\
       feedback (checkPasswordStrength pw) = [msg_strong]) /\
    (12 <= 16 ->
       score (checkPasswordStrength pw) = 6 /\
       feedback (checkPasswordStrength pw) = [msg_strong]).
Proof.
  apply (generated_password_strength (fun k => Z.of_nat k * 2 ^ 50 + 12345)
           ArrayTimSort 16 0%nat).
  exact ArrayTimSort_permutes.
Defined.

End Generator.

(** ** serveur/services/password.ts : passwordService over the database *)

Module PasswordService.

(** A row of the table [mots_de_passe] (interface PasswordModel). *)
Record PasswordModel := {
  id : Z;
  utilisateur_id : Z;
  site_web : jsstring;
  identifiant : jsstring;
  mot_de_passe_crypte : jsstring;
  notes : option jsstring;
  cree_le : Z;
  modifie_le : Z
}.

(** A query parameter as node-postgres sends it. *)
Inductive SqlVal :=
| SqlInt (n : Z)
| SqlText (s : jsstring)
| SqlNull.

Inductive Column := col_site_web | col_identifiant | col_mot_de_passe_crypte | col_notes.

(** The statements of [create], [findById], [update] and [delete]; in
    [UPDATE_SET] a pair [(c, n)] is the fragment [c = $n] that [update]
    builds. *)
Inductive Sql :=
| INSERT_RETURNING
| SELECT_WHERE_id_owner
| UPDATE_SET (updateFields : list (Column * nat))
| DELETE_WHERE_id_owner.

Inductive Event :=
| BcryptGenSalt (rounds : Z)
| BcryptHash (data salt : jsstring)
| DbQuery (sql : Sql) (values : list SqlVal)
| LogInfo (event : string)
| LogError (event : string).

(** The table, keyed by its SERIAL primary key, with the sequence behind
    it, the ids of the table [utilisateurs], which [utilisateur_id]
    references, and the value of CURRENT_TIMESTAMP. *)
Record Db := {
  utilisateurs : gset Z;
  mots_de_passe : gmap Z PasswordModel;
  mots_de_passe_id_seq : Z;
  current_timestamp : Z
}.

Record World := {
  db : Db;
  salts_drawn : nat;
  trace : list Event
}.

Definition emit (e : Event) : M World unit :=
  modify (fun w => {| db := db w; salts_drawn := salts_drawn w; trace := trace w ++ [e] |}).

Definition set_db (d : Db) : M World unit :=
  modify (fun w => {| db := d; salts_drawn := salts_drawn w; trace := trace w |}).

Definition opt_sql (o : option jsstring) : SqlVal :=
  match o with Some s => SqlText s | None => SqlNull end.

(** *** What PostgreSQL takes (base-de-donnees/init.sql)

    [id] and [utilisateur_id] are INTEGER, [site_web] and [identifiant] are
    VARCHAR(255), [mot_de_passe_crypte] and [notes] are TEXT.  node-postgres
    sends a string as UTF-8, in which an unpaired surrogate is written as
    U+FFFD; the server refuses a text with U+0000 when it reads the
    parameters, and a VARCHAR(n) column refuses more than [n] characters,
    unless the excess is spaces, which it cuts off.  The length coercion of
    a parameter is a constant expression, computed when the statement is
    planned: before a row is looked for and before the sequence is asked. *)

Definition int4 (n : Z) : bool := (- 2 ^ 31 <=? n) && (n <? 2 ^ 31).

Definition is_high_surrogate (c : Z) : bool := (0xD800 <=? c) && (c <=? 0xDBFF).
Definition is_low_surrogate (c : Z) : bool := (0xDC00 <=? c) && (c <=? 0xDFFF).

(** The characters of a string as it is sent, each as its code units: a
    surrogate pair is one character. *)
Fixpoint characters (s : jsstring) : list jsstring :=
  match s with
  | [] => []
  | c :: s' =>
      if is_high_surrogate c then
        match s' with
        | d :: s'' =>
            if is_low_surrogate d then [c; d] :: characters s''
            else [0xFFFD] :: characters s'
        | [] => [[0xFFFD]]
        end
      else if is_low_surrogate c then [0xFFFD] :: characters s'
      else [c] :: characters s'
  end.

(** A text parameter as the server reads it. *)
Definition pg_text (s : jsstring) : option jsstring :=
  let cs := characters s in
  if existsb (fun c => bool_decide (c = [0])) cs then None else Some (concat cs).

(** The length coercion of a VARCHAR(n) column. *)
Definition varchar (n : nat) (s : jsstring) : option jsstring :=
  let cs := characters s in
  if (length cs <=? n)%nat then Some s
  else if forallb (fun c => bool_decide (c = [32])) (drop n cs) then Some (concat (take n cs))
  else None.

(** The parameters after the first [skip], read as texts. *)
Definition read_param (v : SqlVal) : option SqlVal :=
  match v with
  | SqlText s => SqlText <$> pg_text s
  | _ => Some v
  end.

(** A string the database stores as it is: no U+0000, no surrogate. *)
Definition plain (s : jsstring) : bool :=
  forallb (fun c => negb (c =? 0) && negb (is_high_surrogate c) && negb (is_low_surrogate c)) s.

(** ... and of at most [n] characters. *)
Definition fits (n : nat) (s : jsstring) : bool := plain s && (length s <=? n)%nat.

(** [col = $n] applied to a row; a NOT NULL column refuses NULL, a
    VARCHAR(255) column a longer text. *)
Definition set_column (values : list SqlVal) (r : option PasswordModel)
    (f : Column * nat) : option PasswordModel :=
  match r, values !! (snd f - 1)%nat with
  | Some r, Some v =>
      match fst f, v with
      | col_site_web, SqlText s =>
          s ← varchar 255 s;
          Some {| id := id r; utilisateur_id := utilisateur_id r; site_web := s;
                  identifiant := identifiant r;
                  mot_de_passe_crypte := mot_de_passe_crypte r; notes := notes r;
                  cree_le := cree_le r; modifie_le := modifie_le r |}
      | col_identifiant, SqlText s =>
          s ← varchar 255 s;
          Some {| id := id r; utilisateur_id := utilisateur_id r; site_web := site_web r;
                  identifiant := s;
                  mot_de_passe_crypte := mot_de_passe_crypte r; notes := notes r;
                  cree_le := cree_le r; modifie_le := modifie_le r |}
      | col_mot_de_passe_crypte, SqlText s =>
          Some {| id := id r; utilisateur_id := utilisateur_id r; site_web := site_web r;
                  identifiant := identifiant r;
                  mot_de_passe_crypte := s; notes := notes r;
                  cree_le := cree_le r; modifie_le := modifie_le r |}
      | col_notes, SqlText s =>
          Some {| id := id r; utilisateur_id := utilisateur_id r; site_web := site_web r;
                  identifiant := identifiant r;
                  mot_de_passe_crypte := mot_de_passe_crypte r; notes := Some s;
                  cree_le := cree_le r; modifie_le := modifie_le r |}
      | col_notes, SqlNull =>
          Some {| id := id r; utilisateur_id := utilisateur_id r; site_web := site_web r;
                  identifiant := identifiant r;
                  mot_de_passe_crypte := mot_de_passe_crypte r; notes := None;
                  cree_le := cree_le r; modifie_le := modifie_le r |}
      | _, _ => None
      end
  | _, _ => None
  end.

Definition touch (now : Z) (r : PasswordModel) : PasswordModel :=
  {| id := id r; utilisateur_id := utilisateur_id r; site_web := site_web r;
     identifiant := identifiant r; mot_de_passe_crypte := mot_de_passe_crypte r;
     notes := notes r; cree_le := cree_le r; modifie_le := now |}.

(** The rows [WHERE id = $1 AND utilisateur_id = $2] selects: at most one,
    [id] being the primary key. *)
Definition where_id_owner (d : Db) (i u : Z) : list PasswordModel :=
  match mots_de_passe d !! i with
  | Some r => if Z.eqb (utilisateur_id r) u then [r] else []
  | None => []
  end.

(** The sequence after a [nextval]; a statement that fails later does not
    give the value back. *)
Definition advance (d : Db) : Db :=
  {| utilisateurs := utilisateurs d; mots_de_passe := mots_de_passe d;
     mots_de_passe_id_seq := mots_de_passe_id_seq d + 1;
     current_timestamp := current_timestamp d |}.

(** The INSERT of [create], its parameters read: the two VARCHAR(255)
    texts are coerced, then the new id is drawn and the row is checked
    against the type of [id], the primary key and the foreign key. *)
Definition execute_insert (u : Z) (site ident crypte : jsstring) (n : option jsstring)
    (d : Db) : option (list PasswordModel) * Db :=
  let i := mots_de_passe_id_seq d in
  match varchar 255 site, varchar 255 ident with
  | Some site, Some ident =>
      match mots_de_passe d !! i with
      | None =>
          if int4 i && bool_decide (u ∈ utilisateurs d) then
            let r := {| id := i; utilisateur_id := u; site_web := site;
                        identifiant := ident; mot_de_passe_crypte := crypte;
                        notes := n;
                        cree_le := current_timestamp d;
                        modifie_le := current_timestamp d |} in
            (Some [r], {| utilisateurs := utilisateurs d;
                          mots_de_passe := <[i := r]> (mots_de_passe d);
                          mots_de_passe_id_seq := i + 1;
                          current_timestamp := current_timestamp d |})
          else (None, advance d)
      | Some _ => (None, advance d)
      end
  | _, _ => (None, d)
  end.

(** [col = $n] can be planned: the text given for a VARCHAR(255) column is
    coerced to it. *)
Definition coercible (values : list SqlVal) (f : Column * nat) : bool :=
  match fst f, values !! (snd f - 1)%nat with
  | col_site_web, Some (SqlText s) | col_identifiant, Some (SqlText s) =>
      bool_decide (is_Some (varchar 255 s))
  | _, _ => true
  end.

(** The UPDATE of [update], its parameters read. *)
Definition execute_update (updateFields : list (Column * nat)) (values : list SqlVal)
    (i u : Z) (d : Db) : option (list PasswordModel) * Db :=
  if forallb (coercible values) updateFields then
    match where_id_owner d i u with
    | [] => (Some [], d)
    | r :: _ =>
        match foldl (set_column values) (Some r) updateFields with
        | Some r' =>
            let r' := touch (current_timestamp d) r' in
            (Some [r'], {| utilisateurs := utilisateurs d;
                           mots_de_passe := <[i := r']> (mots_de_passe d);
                           mots_de_passe_id_seq := mots_de_passe_id_seq d;
                           current_timestamp := current_timestamp d |})
        | None => (None, d)
        end
    end
  else (None, d).

(** What PostgreSQL does with a statement: the rows returned, or [None] for
    an error, and the database afterwards.  INSERT and UPDATE take what the
    request gives, so their parameters are read as the server reads them;
    the two parameters of SELECT and DELETE are ids the database issued. *)
Definition execute (sql : Sql) (values : list SqlVal) (d : Db)
  : option (list PasswordModel) * Db :=
  match sql, values with
  | INSERT_RETURNING, [SqlInt u; SqlText site; SqlText ident; SqlText crypte; n] =>
      match pg_text site, pg_text ident, pg_text crypte, read_param n with
      | Some site, Some ident, Some crypte, Some (SqlText n) =>
          if int4 u then execute_insert u site ident crypte (Some n) d else (None, d)
      | Some site, Some ident, Some crypte, Some SqlNull =>
          if int4 u then execute_insert u site ident crypte None d else (None, d)
      | _, _, _, _ => (None, d)
      end
  | SELECT_WHERE_id_owner, [SqlInt i; SqlInt u] => (Some (where_id_owner d i u), d)
  | UPDATE_SET updateFields, SqlInt i :: SqlInt u :: texts =>
      match mapM read_param texts with
      | Some texts =>
          if int4 i && int4 u
          then execute_update updateFields (SqlInt i :: SqlInt u :: texts) i u d
          else (None, d)
      | None => (None, d)
      end
  | DELETE_WHERE_id_owner, [SqlInt i; SqlInt u] =>
      match where_id_owner d i u with
      | [] => (Some [], d)
      | r :: _ =>
          (Some [r], {| utilisateurs := utilisateurs d;
                        mots_de_passe := delete i (mots_de_passe d);
                        mots_de_passe_id_seq := mots_de_passe_id_seq d;
                        current_timestamp := current_timestamp d |})
      end
  | _, _ => (None, d)
  end.

Definition logService_info (event : string) : M World unit := emit (LogInfo event).
Definition logService_error (event : string) : M World unit := emit (LogError event).

Definition msg_database : string := "Erreur de base de données".

(** [db.query(sql, values)] of utils/db.ts, returning [result.rows]: an
    error of the database is logged and thrown again as an AppError 500. *)
Definition db_query (sql : Sql) (values : list SqlVal) : M World (list PasswordModel) :=
  do emit (DbQuery sql values) then
  let* w := get in
  let outcome := execute sql values (db w) in
  do set_db (snd outcome) then
  match fst outcome with
  | Some rows => ret rows
  | None => do logService_error "query_error" then throw (AppError msg_database 500)
  end.

(** JS truthiness of an optional string: [undefined] and [''] are falsy. *)
Definition truthy (o : option jsstring) : bool :=
  match o with
  | Some (_ :: _) => true
  | _ => false
  end.

Definition msg_not_found : string := "Mot de passe non trouvé".
Definition msg_no_data : string := "Aucune donnée à mettre à jour".

Record CreateData := {
  c_utilisateur_id : Z;
  c_site_web : jsstring;
  c_identifiant : jsstring;
  c_mot_de_passe : jsstring;
  c_notes : option jsstring
}.

Record UpdateData := {
  u_site_web : option jsstring;
  u_identifiant : option jsstring;
  u_mot_de_passe : option jsstring;
  u_notes : option jsstring
}.

(** The three locals of [update]: updateFields, values, valueIndex. *)
Record Builder := {
  updateFields : list (Column * nat);
  values : list SqlVal;
  valueIndex : nat
}.

(** [updateFields.push(`c = $${valueIndex}`); values.push(v); valueIndex++] *)
Definition push_field (c : Column) (v : SqlVal) (b : Builder) : Builder :=
  {| updateFields := updateFields b ++ [(c, valueIndex b)];
     values := values b ++ [v];
     valueIndex := S (valueIndex b) |}.

Section Bcrypt.

(** config.BCRYPT_ROUNDS *)
Variable BCRYPT_ROUNDS : Z.
(** The random part of the [k]-th salt, after the version prefix. *)
Variable salt_source : nat -> Z -> jsstring.
(** The digest bcrypt appends to the salt. *)
Variable bcrypt_digest : jsstring -> jsstring -> jsstring.

Definition bcrypt_genSalt (rounds : Z) : M World jsstring :=
  do emit (BcryptGenSalt rounds) then
  let* w := get in
  do modify (fun w => {| db := db w; salts_drawn := S (salts_drawn w); trace := trace w |}) then
  ret (lit "$2b$" ++ salt_source (salts_drawn w) rounds).

Definition bcrypt_hash (data salt : jsstring) : M World jsstring :=
  do emit (BcryptHash data salt) then
  ret (salt ++ bcrypt_digest data salt).

(** passwordService.create; [rows[0]] of an empty array is [undefined]. *)
Definition create (data : CreateData) : M World (option PasswordModel) :=
  try_catch
    (let* salt := bcrypt_genSalt BCRYPT_ROUNDS in
     let* motDePasseCrypte := bcrypt_hash (c_mot_de_passe data) salt in
     let* rows := db_query INSERT_RETURNING
                    [SqlInt (c_utilisateur_id data); SqlText (c_site_web data);
                     SqlText (c_identifiant data); SqlText motDePasseCrypte;
                     opt_sql (c_notes data)] in
     do logService_info "password_created" then
     ret (head rows))
    (fun error => do logService_error "password_creation_error" then throw error).

(** passwordService.findById *)
Definition findById (i u : Z) : M World PasswordModel :=
  try_catch
    (let* rows := db_query SELECT_WHERE_id_owner [SqlInt i; SqlInt u] in
     match rows with
     | [] => throw (AppError msg_not_found 404)
     | r :: _ => ret r
     end)
    (fun error => do logService_error "password_fetch_error" then throw error).

(** passwordService.update *)
Definition update (i u : Z) (data : UpdateData) : M World PasswordModel :=
  try_catch
    (let* motDePasseCrypte :=
       match u_mot_de_passe data with
       | Some (c :: s) =>
           let* salt := bcrypt_genSalt BCRYPT_ROUNDS in
           let* h := bcrypt_hash (c :: s) salt in
           ret (Some h)
       | _ => ret None
       end in
     let b := {| updateFields := []; values := [SqlInt i; SqlInt u]; valueIndex := 3 |} in
     let b := if truthy (u_site_web data)
              then push_field col_site_web (opt_sql (u_site_web data)) b else b in
     let b := if truthy (u_identifiant data)
              then push_field col_identifiant (opt_sql (u_identifiant data)) b else b in
     let b := if truthy motDePasseCrypte
              then push_field col_mot_de_passe_crypte (opt_sql motDePasseCrypte) b else b in
     let b := match u_notes data with
              | Some n => push_field col_notes (SqlText n) b
              | None => b
              end in
     if (length (updateFields b) =? 0)%nat then throw (AppError msg_no_data 400)
     else
       let* rows := db_query (UPDATE_SET (updateFields b)) (values b) in
       match rows with
       | [] => throw (AppError msg_not_found 404)
       | r :: _ => do logService_info "password_updated" then ret r
       end)
    (fun error => do logService_error "password_update_error" then throw error).

(** passwordService.delete *)
Definition delete_ (i u : Z) : M World unit :=
  try_catch
    (let* rows := db_query DELETE_WHERE_id_owner [SqlInt i; SqlInt u] in
     match rows with
     | [] => throw (AppError msg_not_found 404)
     | _ :: _ => logService_info "password_deleted"
     end)
    (fun error => do logService_error "password_deletion_error" then throw error).

(** An update payload with nothing to write: site_web, identifiant and
    mot_de_passe absent or empty, notes undefined. *)
Definition no_usable_field (data : UpdateData) : bool :=
  negb (truthy (u_site_web data)) && negb (truthy (u_identifiant data)) &&
  negb (truthy (u_mot_de_passe data)) &&
  match u_notes data with None => true | Some _ => false end.

Definition log_error_only (w : World) (event : string) : World :=
  {| db := db w; salts_drawn := salts_drawn w; trace := trace w ++ [LogError event] |}.

Definition without_row (i : Z) (w : World) : World :=
  {| db := {| utilisateurs := utilisateurs (db w);
              mots_de_passe := delete i (mots_de_passe (db w));
              mots_de_passe_id_seq := mots_de_passe_id_seq (db w);
              current_timestamp := current_timestamp (db w) |};
     salts_drawn := salts_drawn w; trace := trace w |}.

(** Every stored id is below the sequence, as INSERT maintains it. *)
Definition db_wf (d : Db) : Prop :=
  forall i r, mots_de_passe d !! i = Some r -> id r = i /\ i < mots_de_passe_id_seq d.

Ltac run_service :=
  cbv [create findById update delete_ try_catch bind db_query bcrypt_genSalt
       bcrypt_hash logService_info logService_error emit set_db modify get ret throw];
  cbn [db salts_drawn trace fst snd].

(** *** Texts the database stores as they are *)

Lemma characters_plain (s : jsstring) :
  plain s = true -> characters s = map (fun c => [c]) s.
Proof.
  induction s as [| c s IH]; [reflexivity |].
  cbn [plain forallb]. fold (plain s). intros Hplain.
  apply andb_true_iff in Hplain as [Hc Hs].
  apply andb_true_iff in Hc as [Hc Hlow]. apply andb_true_iff in Hc as [_ Hhigh].
  apply negb_true_iff in Hlow, Hhigh.
  cbn [characters map]. rewrite Hhigh, Hlow, (IH Hs). reflexivity.
Qed.

Lemma concat_singletons (s : jsstring) : concat (map (fun c => [c]) s) = s.
Proof. induction s as [| c s IH]; [reflexivity |]. cbn. rewrite IH. reflexivity. Qed.

Lemma pg_text_plain (s : jsstring) : plain s = true -> pg_text s = Some s.
Proof.
  intros Hplain. unfold pg_text. rewrite (characters_plain s Hplain), concat_singletons.
  replace (existsb _ _) with false; [reflexivity |].
  symmetry. induction s as [| c s IH]; [reflexivity |].
  cbn [plain forallb] in Hplain. fold (plain s) in Hplain.
  apply andb_true_iff in Hplain as [Hc Hs].
  apply andb_true_iff in Hc as [Hc _]. apply andb_true_iff in Hc as [Hc _].
  apply negb_true_iff, Z.eqb_neq in Hc.
  cbn [map existsb]. rewrite (IH Hs), orb_false_r.
  apply bool_decide_eq_false. intros Heq. injection Heq as ->. contradiction.
Qed.

Lemma varchar_fits (n : nat) (s : jsstring) : fits n s = true -> varchar n s = Some s.
Proof.
  unfold fits, varchar. intros Hfits. apply andb_true_iff in Hfits as [Hplain Hlen].
  rewrite (characters_plain s Hplain), length_map, Hlen. reflexivity.
Qed.

Lemma fits_plain (n : nat) (s : jsstring) : fits n s = true -> plain s = true.
Proof. unfold fits. intros Hfits. apply andb_true_iff in Hfits as [H _]. exact H. Qed.

(** *** SELECT *)

Lemma findById_absent (i u : Z) (w : World) :
  where_id_owner (db w) i u = [] ->
  findById i u w =
  (Throw (AppError msg_not_found 404),
   {| db := db w; salts_drawn := salts_drawn w;
      trace := (trace w ++ [DbQuery SELECT_WHERE_id_owner [SqlInt i; SqlInt u]])
               ++ [LogError "password_fetch_error"] |}).
Proof.
  intros Hnone. run_service. cbn [execute fst snd]. rewrite Hnone. reflexivity.
Qed.

Lemma where_other_owner (d : Db) (i B : Z) (r : PasswordModel) :
  mots_de_passe d !! i = Some r -> B <> utilisateur_id r -> where_id_owner d i B = [].
Proof.
  intros Hrow Hne. unfold where_id_owner. rewrite Hrow.
  destruct (Z.eqb_spec (utilisateur_id r) B); [congruence | reflexivity].
Qed.

Lemma where_deleted (d : Db) (i B : Z) :
  where_id_owner {| utilisateurs := utilisateurs d;
                    mots_de_passe := delete i (mots_de_passe d);
                    mots_de_passe_id_seq := mots_de_passe_id_seq d;
                    current_timestamp := current_timestamp d |} i B = [].
Proof. unfold where_id_owner; cbn. rewrite lookup_delete_eq. reflexivity. Qed.

(** *** UPDATE *)

Lemma update_empty (i u : Z) (data : UpdateData) (w : World) :
  no_usable_field data = true ->
  update i u data w =
  (Throw (AppError msg_no_data 400), log_error_only w "password_update_error").
Proof.
  destruct data as [[[| ? ?] |] [[| ? ?] |] [[| ? ?] |] [? |]];
    cbn; try discriminate; intros _; reflexivity.
Qed.

Lemma update_usable (i u : Z) (data : UpdateData) (w : World) :
  no_usable_field data = false ->
  fst (update i u data w) <> Throw (AppError msg_no_data 400).
Proof.
  intros Husable.
  destruct data as [[[| ? ?] |] [[| ? ?] |] [[| ? ?] |] [? |]];
    cbn in Husable; try discriminate; clear Husable;
    run_service; cbn [u_site_web u_identifiant u_mot_de_passe u_notes truthy opt_sql
                      push_field updateFields values valueIndex app lit length Nat.eqb];
    match goal with
    | |- context [execute ?s ?v ?d] => destruct (execute s v d) as [[[| r rows] |] d']
    end; cbn; discriminate.
Qed.

(** C10: [update] raises the 400 "no data to update" error exactly when the
    payload has no usable field (site_web, identifiant and mot_de_passe absent
    or empty, notes undefined), and then it has issued no query and no bcrypt
    call: the world is the one before with one error-log entry added, the
    table untouched.  In particular this holds for the empty payload. *)
Theorem update_no_fields_rejected (i u : Z) (data : UpdateData) (w : World) :
  (fst (update i u data w) = Throw (AppError msg_no_data 400)
     <-> no_usable_field data = true) /\
  (no_usable_field data = true ->
     snd (update i u data w) = log_error_only w "password_update_error") /\
  update i u {| u_site_web := None; u_identifiant := None;
                u_mot_de_passe := None; u_notes := None |} w
    = (Throw (AppError msg_no_data 400), log_error_only w "password_update_error").
Proof.
  split; [split |].
  - intros Hthrow. destruct (no_usable_field data) eqn:Hn; [reflexivity |].
    exfalso. exact (update_usable i u data w Hn Hthrow).
  - intros Hn. rewrite (update_empty i u data w Hn). reflexivity.
  - split; [intros Hn; rewrite (update_empty i u data w Hn); reflexivity |].
    apply update_empty. reflexivity.
Qed.

(** C9, at the service: fetching a stored record as anyone but its owner
    throws the 404 error, with the very result and state that the same call
    gives once the record is gone. *)
Lemma findById_cross_owner (w : World) (i B : Z) (r : PasswordModel) :
  mots_de_passe (db w) !! i = Some r ->
  B <> utilisateur_id r ->
  fst (findById i B w) = Throw (AppError msg_not_found 404) /\
  fst (findById i B w) = fst (findById i B (without_row i w)) /\
  db (snd (findById i B w)) = db w.
Proof.
  intros Hrow Hne.
  rewrite (findById_absent i B w (where_other_owner _ _ _ _ Hrow Hne)).
  rewrite (findById_absent i B (without_row i w) (where_deleted _ _ _)).
  auto.
Qed.

Lemma findById_owner (w : World) (i : Z) (r : PasswordModel) :
  mots_de_passe (db w) !! i = Some r ->
  fst (findById i (utilisateur_id r) w) = Ok r.
Proof.
  intros Hrow. run_service. cbn [execute fst snd]. unfold where_id_owner. rewrite Hrow.
  rewrite Z.eqb_refl. reflexivity.
Qed.

(** *** INSERT *)

(** The digest [create] computes, under the next salt. *)
Definition created_digest (data : CreateData) (w : World) : jsstring :=
  let salt := lit "$2b$" ++ salt_source (salts_drawn w) BCRYPT_ROUNDS in
  salt ++ bcrypt_digest (c_mot_de_passe data) salt.

(** A payload that the INSERT of [create] takes as it is: the user exists,
    the next id is free, and the texts are stored unchanged: no U+0000 and no
    surrogate in them, [site_web] and [identifiant] of at most 255
    characters. *)
Definition insertable (data : CreateData) (w : World) : Prop :=
  c_utilisateur_id data ∈ utilisateurs (db w) /\
  int4 (c_utilisateur_id data) = true /\
  int4 (mots_de_passe_id_seq (db w)) = true /\
  mots_de_passe (db w) !! mots_de_passe_id_seq (db w) = None /\
  fits 255 (c_site_web data) = true /\
  fits 255 (c_identifiant data) = true /\
  plain (created_digest data w) = true /\
  from_option plain true (c_notes data) = true.

(** What [create] stores and returns: the bcrypt digest of the secret under a
    fresh salt, in a new row of the caller. *)
Lemma create_stores_digest (data : CreateData) (w : World) :
  insertable data w ->
  let r := {| id := mots_de_passe_id_seq (db w);
              utilisateur_id := c_utilisateur_id data;
              site_web := c_site_web data; identifiant := c_identifiant data;
              mot_de_passe_crypte := created_digest data w;
              notes := c_notes data;
              cree_le := current_timestamp (db w);
              modifie_le := current_timestamp (db w) |} in
  fst (create data w) = Ok (Some r) /\
  mots_de_passe (db (snd (create data w))) = <[id r := r]> (mots_de_passe (db w)) /\
  utilisateurs (db (snd (create data w))) = utilisateurs (db w).
Proof.
  intros (Huser & Hint & Hseq & Hfresh & Hsite & Hident & Hcrypte & Hnotes).
  unfold created_digest in *. run_service. cbn [execute opt_sql].
  rewrite (pg_text_plain _ (fits_plain _ _ Hsite)), (pg_text_plain _ (fits_plain _ _ Hident)),
    (pg_text_plain _ Hcrypte).
  destruct (c_notes data) as [n |]; cbn [opt_sql read_param from_option] in *;
    rewrite ?(pg_text_plain _ Hnotes); cbn [fmap option_fmap option_map];
    rewrite Hint; unfold execute_insert;
    rewrite (varchar_fits _ _ Hsite), (varchar_fits _ _ Hident), Hfresh, Hseq,
      (bool_decide_true _ Huser);
    cbn; auto.
Qed.

(** X4: for a payload the table takes as it is ([insertable]: the user
    exists, the next id is free and in range, the texts hold no U+0000 and
    no surrogate, site_web and identifiant have at most 255 characters), the
    record made by [create] is found again by [findById] under its new id
    for the user it was created for, and for nobody else (404); the id is
    the next value of the sequence, and no other row of the table changes. *)
Theorem create_then_findById (data : CreateData) (w : World) :
  insertable data w ->
  exists r w1,
    create data w = (Ok (Some r), w1) /\
    id r = mots_de_passe_id_seq (db w) /\
    utilisateur_id r = c_utilisateur_id data /\
    site_web r = c_site_web data /\ identifiant r = c_identifiant data /\
    notes r = c_notes data /\
    fst (findById (id r) (c_utilisateur_id data) w1) = Ok r /\
    (forall B, int4 B = true -> B <> c_utilisateur_id data ->
       fst (findById (id r) B w1) = Throw (AppError msg_not_found 404)) /\
    (forall j, j <> id r ->
       mots_de_passe (db w1) !! j = mots_de_passe (db w) !! j).
Proof.
  intros Hdata.
  destruct (create_stores_digest data w Hdata) as (Hrun & Hstore & _).
  cbv zeta in Hrun, Hstore. cbn [id] in Hstore.
  match type of Hrun with _ = Ok (Some ?x) => set (r := x) in * end.
  exists r, (snd (create data w)).
  split; [rewrite <- Hrun; apply surjective_pairing |].
  assert (Hrow : mots_de_passe (db (snd (create data w))) !! id r = Some r)
    by (rewrite Hstore; apply lookup_insert_eq).
  repeat split.
  - exact (findById_owner _ _ r Hrow).
  - intros B _ HB.
    exact (proj1 (findById_cross_owner _ _ B r Hrow HB)).
  - intros j Hj. rewrite Hstore. apply lookup_insert_ne. subst r. cbn [id] in Hj.
    congruence.
Qed.

(** What the database refuses, [create] reports as the error 500 of
    utils/db.ts, and no row is stored: here a [site_web] of more than 255
    characters that does not end in spaces. *)
Lemma create_refused (data : CreateData) (w : World) :
  plain (c_site_web data) = true ->
  (255 < length (c_site_web data))%nat ->
  forallb (fun c => bool_decide (c = [32]))
          (drop 255 (map (fun c => [c]) (c_site_web data))) = false ->
  plain (c_identifiant data) = true ->
  plain (created_digest data w) = true ->
  from_option plain true (c_notes data) = true ->
  int4 (c_utilisateur_id data) = true ->
  fst (create data w) = Throw (AppError msg_database 500) /\
  mots_de_passe (db (snd (create data w))) = mots_de_passe (db w).
Proof.
  intros Hsite Hlong Hspaces Hident Hcrypte Hnotes Hint.
  unfold created_digest in *. run_service. cbn [execute opt_sql].
  rewrite (pg_text_plain _ Hsite), (pg_text_plain _ Hident), (pg_text_plain _ Hcrypte).
  assert (Hvarchar : varchar 255 (c_site_web data) = None).
  { unfold varchar. rewrite (characters_plain _ Hsite), length_map, Hspaces.
    destruct (Nat.leb_spec (length (c_site_web data)) 255); [lia | reflexivity]. }
  destruct (c_notes data) as [n |]; cbn [opt_sql read_param from_option] in *;
    rewrite ?(pg_text_plain _ Hnotes); cbn [fmap option_fmap option_map];
    rewrite Hint; unfold execute_insert; rewrite Hvarchar; cbn; auto.
Qed.

(** The row an update leaves: the supplied fields written, [modifie_le]
    refreshed, the rest as it was.  An empty [site_web], [identifiant] or
    [mot_de_passe] is not written; [notes] is written whenever it is not
    [undefined], the empty string included. *)
Definition updated_row (data : UpdateData) (crypte : option jsstring) (now : Z)
    (r : PasswordModel) : PasswordModel :=
  {| id := id r; utilisateur_id := utilisateur_id r;
     site_web := match u_site_web data with Some (c :: s) => c :: s | _ => site_web r end;
     identifiant :=
       match u_identifiant data with Some (c :: s) => c :: s | _ => identifiant r end;
     mot_de_passe_crypte :=
       match crypte with Some h => h | None => mot_de_passe_crypte r end;
     notes := match u_notes data with Some n => Some n | None => notes r end;
     cree_le := cree_le r; modifie_le := now |}.

(** The digest [update] computes for a new secret, under the next salt. *)
Definition new_digest (data : UpdateData) (w : World) : option jsstring :=
  match u_mot_de_passe data with
  | Some (c :: s) =>
      let salt := lit "$2b$" ++ salt_source (salts_drawn w) BCRYPT_ROUNDS in
      Some (salt ++ bcrypt_digest (c :: s) salt)
  | _ => None
  end.

(** The texts of a payload are stored as they are: no U+0000 and no
    surrogate in them, [site_web] and [identifiant] of at most 255
    characters. *)
Definition updatable (data : UpdateData) (w : World) : Prop :=
  from_option (fits 255) true (u_site_web data) = true /\
  from_option (fits 255) true (u_identifiant data) = true /\
  from_option plain true (new_digest data w) = true /\
  from_option plain true (u_notes data) = true.

Lemma read_param_plain (s : jsstring) :
  plain s = true -> read_param (SqlText s) = Some (SqlText s).
Proof. intros Hs. cbn [read_param]. rewrite (pg_text_plain s Hs). reflexivity. Qed.

(** A text that fits its column can be planned. *)
Lemma coercible_fits (s : jsstring) : fits 255 s = true -> bool_decide (is_Some (varchar 255 s)) = true.
Proof. intros Hs. rewrite (varchar_fits _ _ Hs). apply bool_decide_true. eauto. Qed.

(** The salt starts with a character: a digest is never the empty string. *)
Ltac expose_salt :=
  change (lit "$2b$") with (36 :: lit "2b$") in *; cbn [app] in *.

Ltac run_update :=
  run_service; expose_salt;
  cbn [u_site_web u_identifiant u_mot_de_passe u_notes truthy opt_sql
       push_field updateFields values valueIndex app length Nat.eqb].

(** X5: [update] by the owner, with at least one usable field and texts the
    table takes as they are ([updatable]), returns and stores the row with
    exactly the supplied fields replaced: a non-empty site_web, a non-empty
    identifiant, the bcrypt digest of a non-empty mot_de_passe, and notes
    whenever it is not undefined (also when it is the empty string);
    [modifie_le] becomes the current timestamp, and the id, the owner and
    [cree_le] stay. *)
Theorem update_writes_supplied_fields (i : Z) (data : UpdateData) (w : World)
    (r : PasswordModel) :
  mots_de_passe (db w) !! i = Some r ->
  int4 i = true -> int4 (utilisateur_id r) = true ->
  no_usable_field data = false ->
  updatable data w ->
  let r' := updated_row data (new_digest data w) (current_timestamp (db w)) r in
  fst (update i (utilisateur_id r) data w) = Ok r' /\
  mots_de_passe (db (snd (update i (utilisateur_id r) data w)))
    = <[i := r']> (mots_de_passe (db w)) /\
  mots_de_passe_id_seq (db (snd (update i (utilisateur_id r) data w)))
    = mots_de_passe_id_seq (db w).
Proof.
  intros Hrow Hi Hu Husable (Hsite & Hident & Hcrypte & Hnotes).
  unfold new_digest in *.
  destruct data as [[[| ? ?] |] [[| ? ?] |] [[| ? ?] |] [? |]];
    cbn in Husable; try discriminate; clear Husable;
    cbn [u_site_web u_identifiant u_mot_de_passe u_notes from_option] in *;
    run_update; cbn [execute mapM];
    rewrite ?(read_param_plain _ (fits_plain _ _ Hsite)),
      ?(read_param_plain _ (fits_plain _ _ Hident)),
      ?(read_param_plain _ Hcrypte), ?(read_param_plain _ Hnotes);
    cbn [mbind option_bind mret option_ret fmap option_fmap option_map];
    rewrite Hi, Hu; cbn [andb]; unfold execute_update, where_id_owner;
    cbn [db salts_drawn trace];
    cbn [forallb coercible fst snd lookup list_lookup Nat.sub];
    rewrite ?(coercible_fits _ Hsite), ?(coercible_fits _ Hident); cbn [andb];
    rewrite Hrow, Z.eqb_refl;
    repeat (cbn [foldl set_column fst snd lookup list_lookup Nat.sub mbind option_bind];
            first [rewrite (varchar_fits _ _ Hsite) | rewrite (varchar_fits _ _ Hident)]);
    cbn [foldl set_column fst snd lookup list_lookup Nat.sub mbind option_bind
         db mots_de_passe mots_de_passe_id_seq];
    repeat split.
Qed.

(** X6: [update] on an id that is not there, or that belongs to someone
    else, with texts the table takes as they are ([updatable]), throws the
    404 error when the two ids are 32-bit integers, and the error 500 of the
    database layer when one is not; either way the table is as it was, and a
    new secret in the payload has been hashed all the same, before the
    query. *)
Theorem update_not_owner (i u : Z) (data : UpdateData) (w : World) :
  (forall r, mots_de_passe (db w) !! i = Some r -> utilisateur_id r <> u) ->
  no_usable_field data = false ->
  updatable data w ->
  fst (update i u data w)
    = Throw (if int4 i && int4 u then AppError msg_not_found 404
             else AppError msg_database 500) /\
  db (snd (update i u data w)) = db w /\
  salts_drawn (snd (update i u data w))
    = (if truthy (u_mot_de_passe data) then S (salts_drawn w) else salts_drawn w).
Proof.
  intros Hother Husable (Hsite & Hident & Hcrypte & Hnotes).
  assert (Hnone : where_id_owner (db w) i u = []).
  { unfold where_id_owner. destruct (mots_de_passe (db w) !! i) as [r |] eqn:Hrow;
      [| reflexivity].
    destruct (Z.eqb_spec (utilisateur_id r) u) as [Heq | _]; [| reflexivity].
    exfalso. exact (Hother r eq_refl Heq). }
  unfold new_digest in *.
  destruct data as [[[| ? ?] |] [[| ? ?] |] [[| ? ?] |] [? |]];
    cbn in Husable; try discriminate; clear Husable;
    cbn [u_site_web u_identifiant u_mot_de_passe u_notes from_option] in *;
    run_update; cbn [execute mapM];
    rewrite ?(read_param_plain _ (fits_plain _ _ Hsite)),
      ?(read_param_plain _ (fits_plain _ _ Hident)),
      ?(read_param_plain _ Hcrypte), ?(read_param_plain _ Hnotes);
    cbn [mbind option_bind mret option_ret fmap option_fmap option_map];
    (destruct (int4 i && int4 u);
     [ unfold execute_update; cbn [db salts_drawn trace];
       cbn [forallb coercible fst snd lookup list_lookup Nat.sub];
       rewrite ?(coercible_fits _ Hsite), ?(coercible_fits _ Hident); cbn [andb];
       rewrite Hnone |]);
    cbn; destruct w as [[? ? ? ?] ? ?]; repeat split.
Qed.

(** X7: [delete] by the owner removes the row, and only it: afterwards
    [findById] and a second [delete] of the same id throw the 404 error.
    Called by anyone else it throws the 404 error and the table is as
    before. *)
Theorem delete_owner_scoped (i u : Z) (w : World) (r : PasswordModel) :
  mots_de_passe (db w) !! i = Some r ->
  (u = utilisateur_id r ->
     fst (delete_ i u w) = Ok tt /\
     mots_de_passe (db (snd (delete_ i u w))) = delete i (mots_de_passe (db w)) /\
     fst (findById i u (snd (delete_ i u w))) = Throw (AppError msg_not_found 404) /\
     fst (delete_ i u (snd (delete_ i u w))) = Throw (AppError msg_not_found 404)) /\
  (u <> utilisateur_id r ->
     fst (delete_ i u w) = Throw (AppError msg_not_found 404) /\
     db (snd (delete_ i u w)) = db w).
Proof.
  intros Hrow. split.
  - intros ->. run_service. cbn [execute fst snd]. unfold where_id_owner.
    rewrite Hrow, Z.eqb_refl. cbn. rewrite lookup_delete_eq. repeat split.
  - intros Hne. run_service. cbn [execute fst snd].
    rewrite (where_other_owner (db w) i u r Hrow Hne). cbn.
    destruct w as [[? ? ? ?] ? ?]. repeat split.
Qed.

End Bcrypt.

(** A table with one record of user 1, and a stand-in for bcrypt, for the
    examples. *)
Definition example_row : PasswordModel :=
  {| id := 7; utilisateur_id := 1; site_web := lit "example.com";
     identifiant := lit "testuser"; mot_de_passe_crypte := lit "$2b$10$hash";
     notes := None; cree_le := 0; modifie_le := 0 |}.

Definition example_service_world : World :=
  {| db := {| utilisateurs := {[ 1; 2 ]};
              mots_de_passe := {[ 7 := example_row ]};
              mots_de_passe_id_seq := 8; current_timestamp := 5 |};
     salts_drawn := 0; trace := [] |}.

Definition example_salt_source (k : nat) (rounds : Z) : jsstring := lit "10$salt".
Definition example_digest (data salt : jsstring) : jsstring := rev data.

Definition example_create_data : CreateData :=
  {| c_utilisateur_id := 1; c_site_web := lit "example.com";
     c_identifiant := lit "testuser"; c_mot_de_passe := lit "Password123!";
     c_notes := Some (lit "Test notes") |}.

Definition example_update_data : UpdateData :=
  {| u_site_web := Some (lit "updated.com"); u_identifiant := Some [];
     u_mot_de_passe := Some (lit "NewPassword123!"); u_notes := Some [] |}.

Lemma example_insertable :
  insertable 10 example_salt_source example_digest example_create_data example_service_world.
Proof.
  unfold insertable. split; [| repeat split; vm_compute; reflexivity].
  vm_compute. set_solver.
Qed.

Lemma create_then_findById_witness :
  exists r w1,
    create 10 example_salt_source example_digest example_create_data example_service_world
      = (Ok (Some r), w1) /\
    id r = 8 /\
    utilisateur_id r = 1 /\
    site_web r = lit "example.com" /\ identifiant r = lit "testuser" /\
    notes r = Some (lit "Test notes") /\
    fst (findById (id r) 1 w1) = Ok r /\
    (forall B, int4 B = true -> B <> 1 ->
       fst (findById (id r) B w1) = Throw (AppError msg_not_found 404)) /\
    (forall j, j <> id r ->
       mots_de_passe (db w1) !! j = mots_de_passe (db example_service_world) !! j).
Proof.
  apply (create_then_findById 10 example_salt_source example_digest example_create_data
           example_service_world).
  exact example_insertable.
Defined.

(** With a [site_web] of 256 letters [create] throws the error 500. *)
Example create_site_web_too_long :
  fst (create 10 example_salt_source example_digest
         {| c_utilisateur_id := 1; c_site_web := repeat 97 256;
            c_identifiant := lit "testuser"; c_mot_de_passe := lit "Password123!";
            c_notes := None |} example_service_world)
  = Throw (AppError msg_database 500).
Proof. vm_compute. reflexivity. Qed.

(** For a user that is not in [utilisateurs] too. *)
Example create_unknown_user :
  fst (create 10 example_salt_source example_digest
         {| c_utilisateur_id := 42; c_site_web := lit "example.com";
            c_identifiant := lit "testuser"; c_mot_de_passe := lit "Password123!";
            c_notes := None |} example_service_world)
  = Throw (AppError msg_database 500).
Proof. vm_compute. reflexivity. Qed.

Lemma update_writes_supplied_fields_witness :
  fst (update 10 example_salt_source example_digest 7 1 example_update_data
         example_service_world)
  = Ok {| id := 7; utilisateur_id := 1; site_web := lit "updated.com";
          identifiant := lit "testuser";
          mot_de_passe_crypte := lit "$2b$10$salt" ++ rev (lit "NewPassword123!");
          notes := Some []; cree_le := 0; modifie_le := 5 |}.
Proof.
  refine (proj1 (update_writes_supplied_fields 10 example_salt_source example_digest 7
                   example_update_data example_service_world example_row
                   eq_refl eq_refl eq_refl eq_refl _)).
  repeat split.
Defined.

Lemma update_not_owner_witness :
  fst (update 10 example_salt_source example_digest 7 2 example_update_data
         example_service_world)
  = Throw (AppError msg_not_found 404) /\
  fst (update 10 example_salt_source example_digest 2147483648 1 example_update_data
         example_service_world)
  = Throw (AppError msg_database 500).
Proof.
  split.
  - refine (proj1 (update_not_owner 10 example_salt_source example_digest 7 2
                     example_update_data example_service_world _ eq_refl _)).
    + intros r Hrow. vm_compute in Hrow. injection Hrow as <-. discriminate.
    + repeat split.
  - refine (proj1 (update_not_owner 10 example_salt_source example_digest 2147483648 1
                     example_update_data example_service_world _ eq_refl _)).
    + intros r Hrow. vm_compute in Hrow. discriminate.
    + repeat split.
Defined.

Lemma delete_owner_scoped_witness :
  fst (delete_ 7 2 example_service_world) = Throw (AppError msg_not_found 404) /\
  fst (delete_ 7 1 example_service_world) = Ok tt.
Proof.
  pose proof (delete_owner_scoped 7 2 example_service_world example_row eq_refl) as H2.
  pose proof (delete_owner_scoped 7 1 example_service_world example_row eq_refl) as H1.
  split.
  - apply H2. discriminate.
  - apply H1. reflexivity.
Defined.

End PasswordService.

(** ** Node Buffers: bytes, hex and UTF-8 *)

Module Buf.

Abbreviation byte := Init.Byte.byte.
Abbreviation Buffer := (list Init.Byte.byte).

Definition b2z (b : byte) : Z := Z.of_N (Strings.Byte.to_N b).

(** Storing a number in a Uint8Array keeps it modulo 256. *)
Definition z2b (z : Z) : byte :=
  match Strings.Byte.of_N (Z.to_N (z mod 256)) with
  | Some b => b
  | None => Init.Byte.x00
  end.

Definition bxor (a b : byte) : byte := z2b (Z.lxor (b2z a) (b2z b)).

(** *** [buf.toString('hex')] and [Buffer.from(s, 'hex')] *)

Definition hexdigit (n : Z) : Z := if n <? 10 then 48 + n else 87 + n.

Definition byte_hex (b : byte) : jsstring :=
  [hexdigit (b2z b / 16); hexdigit (b2z b mod 16)].

Definition toString_hex (buf : Buffer) : jsstring := flat_map byte_hex buf.

Definition unhex (c : Z) : option Z :=
  if (48 <=? c) && (c <=? 57) then Some (c - 48)
  else if (97 <=? c) && (c <=? 102) then Some (c - 87)
  else if (65 <=? c) && (c <=? 70) then Some (c - 55)
  else None.

(** Decoding stops at the first pair that is not two hex digits; a trailing
    single character is dropped. *)
Fixpoint from_hex (s : jsstring) : Buffer :=
  match s with
  | a :: b :: rest =>
      match unhex a, unhex b with
      | Some h, Some l => z2b (16 * h + l) :: from_hex rest
      | _, _ => []
      end
  | _ => []
  end.

(** *** [s.split(sep)] for a one-character separator *)

Fixpoint split_on (sep : Z) (s : jsstring) : list jsstring :=
  match s with
  | [] => [[]]
  | c :: s' =>
      let r := split_on sep s' in
      if c =? sep then [] :: r
      else match r with
           | seg :: segs => (c :: seg) :: segs
           | [] => [[c]]
           end
  end.

Definition colon : Z := 58.

(** *** UTF-8 *)

Definition is_high_surrogate (c : Z) : bool := (0xD800 <=? c) && (c <=? 0xDBFF).
Definition is_low_surrogate (c : Z) : bool := (0xDC00 <=? c) && (c <=? 0xDFFF).

(** The UTF-8 bytes of a Unicode scalar value. *)
Definition utf8_of_code_point (cp : Z) : list Z :=
  if cp <? 0x80 then [cp]
  else if cp <? 0x800 then [0xC0 + cp / 64; 0x80 + cp mod 64]
  else if cp <? 0x10000 then
    [0xE0 + cp / 4096; 0x80 + (cp / 64) mod 64; 0x80 + cp mod 64]
  else [0xF0 + cp / 262144; 0x80 + (cp / 4096) mod 64;
        0x80 + (cp / 64) mod 64; 0x80 + cp mod 64].

(** Writing a JS string as UTF-8 ([Buffer.from(s, 'utf8')], [cipher.update(s,
    'utf8')]): a surrogate pair is one code point, an unpaired surrogate is
    written as U+FFFD. *)
Fixpoint utf8_units (s : jsstring) : list Z :=
  match s with
  | [] => []
  | c :: s' =>
      if is_high_surrogate c then
        match s' with
        | d :: s'' =>
            if is_low_surrogate d
            then utf8_of_code_point (0x10000 + (c - 0xD800) * 1024 + (d - 0xDC00))
                   ++ utf8_units s''
            else utf8_of_code_point 0xFFFD ++ utf8_units s'
        | [] => utf8_of_code_point 0xFFFD
        end
      else if is_low_surrogate c then utf8_of_code_point 0xFFFD ++ utf8_units s'
      else utf8_of_code_point c ++ utf8_units s'
  end.

Definition utf8_encode (s : jsstring) : Buffer := map z2b (utf8_units s).

(** The UTF-16 code units of a code point. *)
Definition utf16_of_code_point (cp : Z) : jsstring :=
  if cp <? 0x10000 then [cp]
  else [0xD800 + (cp - 0x10000) / 1024; 0xDC00 + (cp - 0x10000) mod 1024].

(** State of the UTF-8 decoder (WHATWG Encoding, 9.1.1): the code point being
    assembled, the continuation bytes still needed, and the bounds the next
    continuation byte must respect. *)
Record Utf8State := {
  code_point : Z;
  bytes_needed : Z;
  lower_boundary : Z;
  upper_boundary : Z
}.

Definition utf8_initial : Utf8State :=
  {| code_point := 0; bytes_needed := 0; lower_boundary := 0x80; upper_boundary := 0xBF |}.

(** A byte read when no sequence is open. *)
Definition utf8_lead (b : Z) : Utf8State * jsstring :=
  if b <=? 0x7F then (utf8_initial, [b])
  else if (0xC2 <=? b) && (b <=? 0xDF) then
    ({| code_point := b mod 32; bytes_needed := 1;
        lower_boundary := 0x80; upper_boundary := 0xBF |}, [])
  else if (0xE0 <=? b) && (b <=? 0xEF) then
    ({| code_point := b mod 16; bytes_needed := 2;
        lower_boundary := if b =? 0xE0 then 0xA0 else 0x80;
        upper_boundary := if b =? 0xED then 0x9F else 0xBF |}, [])
  else if (0xF0 <=? b) && (b <=? 0xF4) then
    ({| code_point := b mod 8; bytes_needed := 3;
        lower_boundary := if b =? 0xF0 then 0x90 else 0x80;
        upper_boundary := if b =? 0xF4 then 0x8F else 0xBF |}, [])
  else (utf8_initial, [0xFFFD]).

(** One byte through the decoder: the new state and the code units emitted.
    A byte that cannot continue the open sequence closes it with U+FFFD and is
    read again as a lead byte. *)
Definition utf8_step (st : Utf8State) (b : Z) : Utf8State * jsstring :=
  if bytes_needed st =? 0 then utf8_lead b
  else if (lower_boundary st <=? b) && (b <=? upper_boundary st) then
    let cp := code_point st * 64 + b mod 64 in
    if bytes_needed st =? 1 then (utf8_initial, utf16_of_code_point cp)
    else ({| code_point := cp; bytes_needed := bytes_needed st - 1;
             lower_boundary := 0x80; upper_boundary := 0xBF |}, [])
  else let (st', out) := utf8_lead b in (st', 0xFFFD :: out).

Fixpoint utf8_run (st : Utf8State) (bytes : list Z) : jsstring :=
  match bytes with
  | [] => if bytes_needed st =? 0 then [] else [0xFFFD]
  | b :: bytes' => let (st', out) := utf8_step st b in out ++ utf8_run st' bytes'
  end.

(** [buf.toString('utf8')], also what [buf + ''] evaluates to. *)
Definition utf8_decode (buf : Buffer) : jsstring := utf8_run utf8_initial (map b2z buf).

(** A well-formed UTF-16 string: code units in range, surrogates paired. *)
Fixpoint well_formed (s : jsstring) : bool :=
  match s with
  | [] => true
  | c :: s' =>
      (0 <=? c) && (c <=? 0xFFFF) &&
      if is_high_surrogate c then
        match s' with
        | d :: s'' => is_low_surrogate d && well_formed s''
        | [] => false
        end
      else negb (is_low_surrogate c) && well_formed s'
  end.

(** *** Bytes *)

Ltac arith := Z.div_mod_to_equations; lia.

Lemma b2z_range (b : byte) : 0 <= b2z b < 256.
Proof. destruct b; vm_compute; (split; [discriminate | reflexivity]). Qed.

Lemma z2b_b2z (b : byte) : z2b (b2z b) = b.
Proof. destruct b; reflexivity. Qed.

Lemma b2z_z2b (z : Z) : 0 <= z < 256 -> b2z (z2b z) = z.
Proof.
  intros Hz. unfold z2b, b2z. rewrite Z.mod_small by exact Hz.
  destruct (Strings.Byte.of_N (Z.to_N z)) as [b |] eqn:Hb.
  - rewrite (Strings.Byte.to_of_N _ Hb). apply Z2N.id. lia.
  - apply Strings.Byte.of_N_None_iff in Hb. lia.
Qed.

Lemma b2z_inj (a b : byte) : b2z a = b2z b -> a = b.
Proof. intros H. rewrite <- (z2b_b2z a), <- (z2b_b2z b), H. reflexivity. Qed.

Lemma lxor_bound (n a b : Z) :
  0 <= n -> 0 <= a < 2 ^ n -> 0 <= b < 2 ^ n -> 0 <= Z.lxor a b < 2 ^ n.
Proof.
  intros Hn Ha Hb.
  assert (Hnn : 0 <= Z.lxor a b) by (apply Z.lxor_nonneg; lia).
  split; [exact Hnn |].
  destruct (Z.eq_dec (Z.lxor a b) 0) as [-> | Hnz]; [lia |].
  apply Z.log2_lt_pow2; [lia |].
  eapply Z.le_lt_trans; [apply Z.log2_lxor; lia |].
  assert (Hlog : forall x, 0 <= x < 2 ^ n -> 0 < n -> Z.log2 x < n).
  { intros x Hx Hpos. destruct (Z.eq_dec x 0) as [-> | Hx0]; [exact Hpos |].
    apply Z.log2_lt_pow2; lia. }
  assert (Hpos : 0 < n).
  { destruct (Z.eq_dec n 0) as [-> | ?]; [| lia].
    exfalso. apply Hnz. replace a with 0 by lia. replace b with 0 by lia. reflexivity. }
  apply Z.max_lub_lt; apply Hlog; assumption.
Qed.

Lemma b2z_bxor (a b : byte) : b2z (bxor a b) = Z.lxor (b2z a) (b2z b).
Proof.
  unfold bxor. apply b2z_z2b.
  apply (lxor_bound 8); [lia | apply b2z_range | apply b2z_range].
Qed.

Lemma bxor_involutive (a k : byte) : bxor (bxor a k) k = a.
Proof.
  apply b2z_inj. rewrite !b2z_bxor, Z.lxor_assoc, Z.lxor_nilpotent, Z.lxor_0_r.
  reflexivity.
Qed.

(** *** Hex *)

Lemma from_hex_byte (b : byte) (rest : jsstring) :
  from_hex (byte_hex b ++ rest) = b :: from_hex rest.
Proof. destruct b; reflexivity. Qed.

Lemma from_hex_toString_hex (buf : Buffer) : from_hex (toString_hex buf) = buf.
Proof.
  induction buf as [| b buf IH]; [reflexivity |].
  cbn [toString_hex flat_map]. rewrite from_hex_byte. f_equal. exact IH.
Qed.

Lemma byte_hex_no_colon (b : byte) : Forall (fun c => c <> colon) (byte_hex b).
Proof. destruct b; repeat constructor; discriminate. Qed.

Lemma toString_hex_no_colon (buf : Buffer) :
  Forall (fun c => c <> colon) (toString_hex buf).
Proof.
  induction buf as [| b buf IH]; [constructor |].
  cbn [toString_hex flat_map]. apply Forall_app. split; [apply byte_hex_no_colon | exact IH].
Qed.

Lemma toString_hex_length (buf : Buffer) :
  length (toString_hex buf) = (2 * length buf)%nat.
Proof.
  unfold toString_hex.
  induction buf as [| b buf IH]; [reflexivity |].
  cbn [flat_map]. rewrite length_app, IH. cbn [byte_hex length]. lia.
Qed.

(** *** One hex character replaced *)

(** The high ([low = false]) or low nibble of a byte. *)
Definition nibble (low : bool) (b : byte) : Z :=
  if low then b2z b mod 16 else b2z b / 16.

Definition set_nibble (low : bool) (v : Z) (b : byte) : byte :=
  if low then z2b (16 * (b2z b / 16) + v) else z2b (16 * v + b2z b mod 16).

(** Position of a nibble in the hex string. *)
Definition hex_index (j : nat) (low : bool) : nat :=
  (2 * j + if low then 1 else 0)%nat.

Lemma unhex_range (c v : Z) : unhex c = Some v -> 0 <= v < 16.
Proof.
  unfold unhex.
  destruct (Z.leb_spec 48 c), (Z.leb_spec c 57), (Z.leb_spec 97 c), (Z.leb_spec c 102),
    (Z.leb_spec 65 c), (Z.leb_spec c 70); cbn; intros [= <-]; lia.
Qed.

Lemma unhex_not_colon (c v : Z) : unhex c = Some v -> c <> colon.
Proof. intros H ->. discriminate H. Qed.

Lemma unhex_hexdigit (n : Z) : 0 <= n < 16 -> unhex (hexdigit n) = Some n.
Proof.
  intros Hn. unfold unhex, hexdigit.
  destruct (Z.ltb_spec n 10).
  - replace (48 <=? 48 + n) with true by (symmetry; apply Z.leb_le; lia).
    replace (48 + n <=? 57) with true by (symmetry; apply Z.leb_le; lia).
    cbn. f_equal. lia.
  - replace (87 + n <=? 57) with false by (symmetry; apply Z.leb_gt; lia).
    replace (97 <=? 87 + n) with true by (symmetry; apply Z.leb_le; lia).
    replace (87 + n <=? 102) with true by (symmetry; apply Z.leb_le; lia).
    rewrite andb_false_r. cbn. f_equal. lia.
Qed.

Lemma nibble_range (low : bool) (b : byte) : 0 <= nibble low b < 16.
Proof. pose proof (b2z_range b). destruct low; cbn; arith. Qed.

Lemma byte_hex_nibbles (b : byte) :
  byte_hex b = [hexdigit (nibble false b); hexdigit (nibble true b)].
Proof. reflexivity. Qed.

Lemma from_hex_pair (h l hv lv : Z) (rest : jsstring) :
  unhex h = Some hv -> unhex l = Some lv ->
  from_hex (h :: l :: rest) = z2b (16 * hv + lv) :: from_hex rest.
Proof. intros Hh Hl. cbn [from_hex]. rewrite Hh, Hl. reflexivity. Qed.

Lemma toString_hex_lookup (buf : Buffer) (j : nat) (low : bool) (b : byte) :
  buf !! j = Some b ->
  toString_hex buf !! hex_index j low = Some (hexdigit (nibble low b)).
Proof.
  revert j. induction buf as [| a buf IH]; intros j Hj; [discriminate |].
  destruct j as [| j].
  - injection Hj as ->. destruct low; reflexivity.
  - cbn in Hj. specialize (IH j Hj).
    unfold hex_index in *. replace (2 * S j + (if low then 1 else 0))%nat
      with (S (S (2 * j + if low then 1 else 0))) by lia.
    exact IH.
Qed.

Lemma insert_cons_0 {A} (x y : A) (l : list A) : <[0%nat := x]> (y :: l) = x :: l.
Proof. reflexivity. Qed.

Lemma insert_cons_S {A} (x y : A) (l : list A) (i : nat) :
  <[S i := x]> (y :: l) = y :: <[i := x]> l.
Proof. reflexivity. Qed.

(** Replacing one hex digit replaces one nibble of the decoded buffer. *)
Lemma from_hex_insert (buf : Buffer) (j : nat) (low : bool) (b : byte) (c' v' : Z) :
  buf !! j = Some b -> unhex c' = Some v' ->
  from_hex (<[hex_index j low := c']> (toString_hex buf)) = <[j := set_nibble low v' b]> buf.
Proof.
  intros Hj Hc. revert j Hj. induction buf as [| a buf IH]; intros j Hj; [discriminate |].
  change (toString_hex (a :: buf))
    with (hexdigit (nibble false a) :: hexdigit (nibble true a) :: toString_hex buf).
  destruct j as [| j].
  - injection Hj as ->. rewrite insert_cons_0. unfold set_nibble.
    destruct low.
    + change (hex_index 0 true) with 1%nat. rewrite insert_cons_S, insert_cons_0.
      rewrite (from_hex_pair _ _ _ _ _ (unhex_hexdigit _ (nibble_range false b)) Hc).
      rewrite from_hex_toString_hex. reflexivity.
    + change (hex_index 0 false) with 0%nat. rewrite insert_cons_0.
      rewrite (from_hex_pair _ _ _ _ _ Hc (unhex_hexdigit _ (nibble_range true b))).
      rewrite from_hex_toString_hex. reflexivity.
  - cbn in Hj.
    replace (hex_index (S j) low) with (S (S (hex_index j low))) by (unfold hex_index; lia).
    rewrite !insert_cons_S.
    rewrite (from_hex_pair _ _ _ _ _ (unhex_hexdigit _ (nibble_range false a))
               (unhex_hexdigit _ (nibble_range true a))).
    rewrite (IH j Hj). f_equal.
    unfold nibble. rewrite <- (z2b_b2z a) at 3. f_equal. pose proof (b2z_range a). arith.
Qed.

Lemma set_nibble_same (low : bool) (b : byte) : set_nibble low (nibble low b) b = b.
Proof.
  rewrite <- (z2b_b2z b) at 3. unfold set_nibble, nibble.
  pose proof (b2z_range b). destruct low; f_equal; arith.
Qed.

Lemma set_nibble_other (low : bool) (v : Z) (b : byte) :
  0 <= v < 16 -> v <> nibble low b -> set_nibble low v b <> b.
Proof.
  intros Hv Hne Heq. apply (f_equal b2z) in Heq. unfold set_nibble, nibble in *.
  pose proof (b2z_range b).
  destruct low; rewrite b2z_z2b in Heq by arith; arith.
Qed.

Lemma insert_no_colon (s : jsstring) (i : nat) (c : Z) :
  c <> colon -> Forall (fun c => c <> colon) s ->
  Forall (fun c => c <> colon) (<[i := c]> s).
Proof.
  intros Hc Hs. revert i. induction Hs as [| x s Hx Hs IH]; intros i; [constructor |].
  destruct i; cbn; constructor; auto.
Qed.

(** *** split *)

Lemma split_on_nonempty (sep : Z) (s : jsstring) : split_on sep s <> [].
Proof.
  destruct s as [| c s]; cbn [split_on]; [discriminate |].
  destruct (c =? sep); [discriminate |]. destruct (split_on sep s); discriminate.
Qed.

Lemma split_on_cons_sep (sep : Z) (rest : jsstring) :
  split_on sep (sep :: rest) = [] :: split_on sep rest.
Proof. cbn [split_on]. rewrite Z.eqb_refl. reflexivity. Qed.

Lemma split_on_segment (sep : Z) (seg rest : jsstring) :
  Forall (fun c => c <> sep) seg ->
  split_on sep (seg ++ sep :: rest) = seg :: split_on sep rest.
Proof.
  induction 1 as [| c seg Hc _ IH]; [apply split_on_cons_sep |].
  cbn [app split_on]. rewrite IH.
  destruct (Z.eqb_spec c sep); [contradiction | reflexivity].
Qed.

Lemma split_on_last (sep : Z) (seg : jsstring) :
  Forall (fun c => c <> sep) seg -> split_on sep seg = [seg].
Proof.
  induction 1 as [| c seg Hc _ IH]; [reflexivity |].
  cbn [split_on]. rewrite IH.
  destruct (Z.eqb_spec c sep); [contradiction | reflexivity].
Qed.

(** *** UTF-8 round trip *)

Definition is_scalar (cp : Z) : Prop :=
  0 <= cp < 0x110000 /\ ~ (0xD800 <= cp <= 0xDFFF).

Definition is_byte (b : Z) : Prop := 0 <= b < 256.

(** Settle a comparison of the goal by arithmetic. *)
Ltac settle :=
  match goal with
  | |- context [?a <=? ?b] =>
      first [ replace (a <=? b) with true by (symmetry; apply Z.leb_le; arith)
            | replace (a <=? b) with false by (symmetry; apply Z.leb_gt; arith) ]
  | |- context [?a <? ?b] =>
      first [ replace (a <? b) with true by (symmetry; apply Z.ltb_lt; arith)
            | replace (a <? b) with false by (symmetry; apply Z.ltb_ge; arith) ]
  | |- context [?a =? ?b] =>
      first [ replace (a =? b) with true by (symmetry; apply Z.eqb_eq; arith)
            | replace (a =? b) with false by (symmetry; apply Z.eqb_neq; arith) ]
  end.

Ltac decode_step :=
  cbn [utf8_run app];
  unfold utf8_step, utf8_lead;
  cbn [bytes_needed code_point lower_boundary upper_boundary utf8_initial];
  repeat (settle; cbn [andb negb bytes_needed code_point lower_boundary
                       upper_boundary utf8_initial]).

Lemma utf8_code_point_bytes (cp : Z) :
  is_scalar cp -> Forall is_byte (utf8_of_code_point cp).
Proof.
  intros [Hrange Hsur]. unfold utf8_of_code_point, is_byte.
  destruct (Z.ltb_spec cp 0x80); [repeat constructor; arith |].
  destruct (Z.ltb_spec cp 0x800); [repeat constructor; arith |].
  destruct (Z.ltb_spec cp 0x10000); repeat constructor; arith.
Qed.

Lemma utf8_run_1 (cp : Z) (rest : list Z) :
  0 <= cp < 0x80 ->
  utf8_run utf8_initial (cp :: rest) = cp :: utf8_run utf8_initial rest.
Proof. intros H. decode_step. reflexivity. Qed.

Lemma utf8_run_2 (cp : Z) (rest : list Z) :
  0x80 <= cp < 0x800 ->
  utf8_run utf8_initial (0xC0 + cp / 64 :: 0x80 + cp mod 64 :: rest)
  = cp :: utf8_run utf8_initial rest.
Proof.
  intros H. decode_step. decode_step.
  replace ((192 + cp / 64) mod 32 * 64 + (128 + cp mod 64) mod 64) with cp by arith.
  unfold utf16_of_code_point. settle. reflexivity.
Qed.

Lemma utf8_run_3 (cp : Z) (rest : list Z) :
  0x800 <= cp < 0x10000 -> ~ (0xD800 <= cp <= 0xDFFF) ->
  utf8_run utf8_initial
    (0xE0 + cp / 4096 :: 0x80 + (cp / 64) mod 64 :: 0x80 + cp mod 64 :: rest)
  = cp :: utf8_run utf8_initial rest.
Proof.
  intros H Hsur. decode_step.
  destruct (Z.eqb_spec (224 + cp / 4096) 224) as [He0 | He0];
    destruct (Z.eqb_spec (224 + cp / 4096) 237) as [Hed | Hed];
    try (exfalso; lia);
    decode_step; decode_step;
    (replace (((224 + cp / 4096) mod 16 * 64 + (128 + cp / 64 mod 64) mod 64) * 64
              + (128 + cp mod 64) mod 64) with cp by arith);
    unfold utf16_of_code_point; settle; reflexivity.
Qed.

Lemma utf8_run_4 (c d : Z) (rest : list Z) :
  0xD800 <= c <= 0xDBFF -> 0xDC00 <= d <= 0xDFFF ->
  let cp := 0x10000 + (c - 0xD800) * 1024 + (d - 0xDC00) in
  utf8_run utf8_initial
    (0xF0 + cp / 262144 :: 0x80 + (cp / 4096) mod 64 :: 0x80 + (cp / 64) mod 64
       :: 0x80 + cp mod 64 :: rest)
  = c :: d :: utf8_run utf8_initial rest.
Proof.
  intros Hc Hd cp.
  assert (Hcp : 0x10000 <= cp < 0x110000) by (subst cp; lia).
  assert (Hhi : 0xD800 + (cp - 0x10000) / 1024 = c) by (subst cp; arith).
  assert (Hlo : 0xDC00 + (cp - 0x10000) mod 1024 = d) by (subst cp; arith).
  clearbody cp. decode_step.
  destruct (Z.eqb_spec (240 + cp / 262144) 240) as [Hf0 | Hf0];
    destruct (Z.eqb_spec (240 + cp / 262144) 244) as [Hf4 | Hf4];
    try (exfalso; lia);
    decode_step; decode_step; decode_step;
    (replace ((((240 + cp / 262144) mod 8 * 64 + (128 + cp / 4096 mod 64) mod 64) * 64
               + (128 + cp / 64 mod 64) mod 64) * 64 + (128 + cp mod 64) mod 64)
       with cp by arith);
    unfold utf16_of_code_point; settle; rewrite Hhi, Hlo; reflexivity.
Qed.

Lemma utf8_units_round_trip (n : nat) :
  forall s, (length s <= n)%nat -> well_formed s = true ->
    Forall is_byte (utf8_units s) /\ utf8_run utf8_initial (utf8_units s) = s.
Proof.
  induction n as [| n IH]; intros s Hlen Hwf.
  { destruct s; [split; [constructor | reflexivity] | cbn in Hlen; lia]. }
  destruct s as [| c s']; [split; [constructor | reflexivity] |].
  cbn [well_formed] in Hwf. cbn [utf8_units].
  apply andb_prop in Hwf as [Hrange Hwf]. apply andb_prop in Hrange as [H0 Hmax].
  apply Z.leb_le in H0, Hmax.
  destruct (is_high_surrogate c) eqn:Hhigh.
  - destruct s' as [| d s'']; [discriminate |].
    apply andb_prop in Hwf as [Hlow Hwf]. rewrite Hlow.
    destruct (IH s'') as [Hbytes Hrun]; [cbn in Hlen; lia | exact Hwf |].
    unfold is_high_surrogate in Hhigh. unfold is_low_surrogate in Hlow.
    apply andb_prop in Hhigh as [Hc1 Hc2]. apply andb_prop in Hlow as [Hd1 Hd2].
    apply Z.leb_le in Hc1, Hc2, Hd1, Hd2.
    pose proof (utf8_run_4 c d (utf8_units s'') (conj Hc1 Hc2) (conj Hd1 Hd2)) as H4.
    assert (Hb : Forall is_byte
                   (utf8_of_code_point (0x10000 + (c - 0xD800) * 1024 + (d - 0xDC00))))
      by (apply utf8_code_point_bytes; split; lia).
    cbv zeta in H4. split.
    + apply Forall_app. split; [exact Hb | exact Hbytes].
    + unfold utf8_of_code_point. repeat settle. cbn [app].
      rewrite H4, Hrun. reflexivity.
  - apply andb_prop in Hwf as [Hlow Hwf]. apply negb_true_iff in Hlow. rewrite Hlow.
    destruct (IH s') as [Hbytes Hrun]; [cbn in Hlen; lia | exact Hwf |].
    assert (Hsur : ~ (0xD800 <= c <= 0xDFFF)).
    { unfold is_high_surrogate, is_low_surrogate in *.
      apply andb_false_iff in Hhigh, Hlow. rewrite !Z.leb_gt in Hhigh, Hlow. lia. }
    split.
    + apply Forall_app. split; [apply utf8_code_point_bytes; split; lia | exact Hbytes].
    + unfold utf8_of_code_point.
      destruct (Z.ltb_spec c 0x80); [cbn [app]; rewrite utf8_run_1, Hrun by lia; reflexivity |].
      destruct (Z.ltb_spec c 0x800); [cbn [app]; rewrite utf8_run_2, Hrun by lia; reflexivity |].
      destruct (Z.ltb_spec c 0x10000); [| lia].
      cbn [app]. rewrite utf8_run_3, Hrun by (assumption || lia). reflexivity.
Qed.

Lemma map_b2z_z2b (l : list Z) : Forall is_byte l -> map b2z (map z2b l) = l.
Proof.
  induction 1 as [| b l Hb _ IH]; [reflexivity |].
  cbn [map]. rewrite (b2z_z2b b Hb), IH. reflexivity.
Qed.

(** Decoding the UTF-8 of a well-formed string gives the string back. *)
Lemma utf8_decode_encode (s : jsstring) :
  well_formed s = true -> utf8_decode (utf8_encode s) = s.
Proof.
  intros Hwf. unfold utf8_decode, utf8_encode.
  destruct (utf8_units_round_trip (length s) s (Nat.le_refl _) Hwf) as [Hbytes Hrun].
  rewrite (map_b2z_z2b _ Hbytes). exact Hrun.
Qed.

Example utf8_euro : toString_hex (utf8_encode [0x20AC]) = lit "e282ac".
Proof. reflexivity. Qed.

Example utf8_emoji :
  toString_hex (utf8_encode [0xD83D; 0xDE00]) = lit "f09f9880" /\
  utf8_decode (utf8_encode [0xD83D; 0xDE00]) = [0xD83D; 0xDE00].
Proof. split; reflexivity. Qed.

Example utf8_lone_surrogate :
  toString_hex (utf8_encode [0xD800]) = lit "efbfbd" /\
  utf8_decode (utf8_encode [0xD800]) = [0xFFFD].
Proof. split; reflexivity. Qed.

Example utf8_invalid_bytes :
  utf8_decode (from_hex (lit "41c328e2824180")) = [0x41; 0xFFFD; 0x28; 0xFFFD; 0x41; 0xFFFD].
Proof. reflexivity. Qed.

Example from_hex_examples :
  from_hex (lit "0aFf") = [Init.Byte.x0a; Init.Byte.xff] /\
  from_hex (lit "0agf") = [Init.Byte.x0a] /\
  from_hex (lit "abc") = [Init.Byte.xab] /\
  from_hex (lit "not-a-valid-envelope") = [].
Proof. repeat split; reflexivity. Qed.

Example split_examples :
  split_on colon (lit "a:b:c") = [lit "a"; lit "b"; lit "c"] /\
  split_on colon (lit "") = [lit ""] /\
  split_on colon (lit "a::") = [lit "a"; lit ""; lit ""] /\
  split_on colon (lit "not-a-valid-envelope") = [lit "not-a-valid-envelope"].
Proof. repeat split; reflexivity. Qed.

End Buf.

(** ** AES-256 (FIPS 197), the block cipher behind 'aes-256-gcm' *)

Module AES.

(** Multiplication by x in GF(2^8) modulo x^8 + x^4 + x^3 + x + 1. *)
Definition xtime (b : Z) : Z :=
  let d := 2 * b in if d <? 256 then d else Z.lxor (d - 256) 0x1B.

Fixpoint gf_mul_loop (n : nat) (a b acc : Z) : Z :=
  match n with
  | O => acc
  | S n' =>
      gf_mul_loop n' (xtime a) (b / 2) (if Z.odd b then Z.lxor acc a else acc)
  end.

Definition gf_mul (a b : Z) : Z := gf_mul_loop 8 a b 0.

Fixpoint gf_pow (n : nat) (a : Z) : Z :=
  match n with
  | O => 1
  | S n' => gf_mul a (gf_pow n' a)
  end.

Definition rotl8 (b k : Z) : Z := (b * 2 ^ k) mod 256 + b / 2 ^ (8 - k).

(** The S-box: inverse in GF(2^8), then the affine map. *)
Definition sbox_of (a : Z) : Z :=
  let b := gf_pow 254 a in
  Z.lxor (Z.lxor (Z.lxor (Z.lxor (Z.lxor b (rotl8 b 1)) (rotl8 b 2)) (rotl8 b 3))
            (rotl8 b 4)) 0x63.

Definition sbox_table : list Z :=
  Eval vm_compute in map (fun i => sbox_of (Z.of_nat i)) (seq 0 256).

Definition sbox (b : Z) : Z := nth (Z.to_nat b) sbox_table 0.

Definition State := list Z.

Definition at_ (s : State) (i : nat) : Z := nth i s 0.

Definition SubBytes (s : State) : State := map sbox s.

(** Byte [r + 4c] is row [r], column [c]; row [r] moves left by [r]. *)
Definition ShiftRows (s : State) : State :=
  map (fun i => at_ s (i mod 4 + 4 * ((i / 4 + i mod 4) mod 4))) (seq 0 16).

Definition mix_column (a0 a1 a2 a3 : Z) : list Z :=
  [ Z.lxor (Z.lxor (Z.lxor (gf_mul 2 a0) (gf_mul 3 a1)) a2) a3;
    Z.lxor (Z.lxor (Z.lxor a0 (gf_mul 2 a1)) (gf_mul 3 a2)) a3;
    Z.lxor (Z.lxor (Z.lxor a0 a1) (gf_mul 2 a2)) (gf_mul 3 a3);
    Z.lxor (Z.lxor (Z.lxor (gf_mul 3 a0) a1) a2) (gf_mul 2 a3) ].

Definition MixColumns (s : State) : State :=
  flat_map (fun c => mix_column (at_ s (4 * c)) (at_ s (4 * c + 1))
                       (at_ s (4 * c + 2)) (at_ s (4 * c + 3)))
    (seq 0 4).

Definition xor_bytes (a b : list Z) : list Z := zip_with Z.lxor a b.

Definition AddRoundKey (round_key : list Z) (s : State) : State := xor_bytes s round_key.

(** Key expansion for Nk = 8, Nr = 14: sixty words of four bytes. *)
Definition RotWord (w : list Z) : list Z :=
  match w with
  | a :: rest => rest ++ [a]
  | [] => []
  end.
Definition SubWord (w : list Z) : list Z := map sbox w.
Definition Rcon (j : nat) : list Z := [gf_pow (j - 1) 2; 0; 0; 0].

Fixpoint expand (n : nat) (i : nat) (w : list (list Z)) : list (list Z) :=
  match n with
  | O => w
  | S n' =>
      let temp := nth (i - 1) w [] in
      let temp :=
        if (i mod 8 =? 0)%nat then xor_bytes (SubWord (RotWord temp)) (Rcon (i / 8))
        else if (i mod 8 =? 4)%nat then SubWord temp
        else temp in
      expand n' (S i) (w ++ [xor_bytes (nth (i - 8) w []) temp])
  end.

Definition KeyExpansion (key : list Z) : list (list Z) :=
  expand 52 8 (map (fun i => firstn 4 (skipn (4 * i) key)) (seq 0 8)).

Definition round_key (w : list (list Z)) (r : nat) : list Z :=
  concat (firstn 4 (skipn (4 * r) w)).

Fixpoint rounds (n : nat) (r : nat) (w : list (list Z)) (s : State) : State :=
  match n with
  | O => s
  | S n' =>
      rounds n' (S r) w (AddRoundKey (round_key w r) (MixColumns (ShiftRows (SubBytes s))))
  end.

(** Cipher(in, w) of FIPS 197, section 5.1, on sixteen bytes. *)
Definition Cipher (key : list Z) (input : list Z) : list Z :=
  let w := KeyExpansion key in
  let s := AddRoundKey (round_key w 0) input in
  let s := rounds 13 1 w s in
  AddRoundKey (round_key w 14) (ShiftRows (SubBytes s)).

(** A block as the 128-bit big-endian number of its bytes. *)
Definition block_of_bytes (l : list Z) : Z := fold_left (fun acc b => acc * 256 + b) l 0.

(** The [n] low bytes of a number, most significant first. *)
Fixpoint be_bytes (n : nat) (x : Z) : list Z :=
  match n with
  | O => []
  | S n' => be_bytes n' (x / 256) ++ [x mod 256]
  end.

Definition bytes_of_block (x : Z) : list Z := be_bytes 16 x.

Definition encrypt_block (key : Buf.Buffer) (x : Z) : Z :=
  block_of_bytes (Cipher (map Buf.b2z key) (bytes_of_block (x mod 2 ^ 128))).

Definition hex (s : string) : Buf.Buffer := Buf.from_hex (lit s).

Lemma block_of_bytes_snoc (l : list Z) (b : Z) :
  block_of_bytes (l ++ [b]) = block_of_bytes l * 256 + b.
Proof. unfold block_of_bytes. rewrite fold_left_app. reflexivity. Qed.

Lemma block_of_be_bytes (n : nat) :
  forall x, block_of_bytes (be_bytes n x) = x mod 256 ^ Z.of_nat n.
Proof.
  induction n as [| n IH]; intros x.
  - cbn. rewrite Z.mod_1_r. reflexivity.
  - cbn [be_bytes]. rewrite block_of_bytes_snoc, IH.
    rewrite Nat2Z.inj_succ, Z.pow_succ_r by lia.
    rewrite (Z.rem_mul_r x 256 (256 ^ Z.of_nat n)) by lia. lia.
Qed.

Lemma be_bytes_length (n : nat) (x : Z) : length (be_bytes n x) = n.
Proof.
  revert x. induction n as [| n IH]; intros x; [reflexivity |].
  cbn [be_bytes]. rewrite length_app, IH. cbn. lia.
Qed.

Lemma be_bytes_range (n : nat) (x : Z) : Forall Buf.is_byte (be_bytes n x).
Proof.
  revert x. induction n as [| n IH]; intros x; [constructor |].
  cbn [be_bytes]. apply Forall_app. split; [apply IH |].
  constructor; [apply Z.mod_pos_bound; lia | constructor].
Qed.

Lemma fold_bytes_inj (l1 : list Z) :
  forall l2 a1 a2,
    length l1 = length l2 -> Forall Buf.is_byte l1 -> Forall Buf.is_byte l2 ->
    fold_left (fun acc b => acc * 256 + b) l1 a1
    = fold_left (fun acc b => acc * 256 + b) l2 a2 ->
    a1 = a2 /\ l1 = l2.
Proof.
  induction l1 as [| b1 l1 IH]; intros [| b2 l2] a1 a2 Hlen H1 H2 Heq;
    try discriminate; [split; [exact Heq | reflexivity] |].
  cbn [fold_left] in Heq. inversion H1 as [| ? ? Hb1 H1']; subst.
  inversion H2 as [| ? ? Hb2 H2']; subst.
  destruct (IH l2 _ _ (eq_add_S _ _ Hlen) H1' H2' Heq) as [Hhead ->].
  unfold Buf.is_byte in *. split; [lia | f_equal; lia].
Qed.

(** Byte lists of one length that denote the same number are equal. *)
Lemma block_of_bytes_inj (l1 l2 : list Z) :
  length l1 = length l2 -> Forall Buf.is_byte l1 -> Forall Buf.is_byte l2 ->
  block_of_bytes l1 = block_of_bytes l2 -> l1 = l2.
Proof. intros Hlen H1 H2 Heq. exact (proj2 (fold_bytes_inj l1 l2 0 0 Hlen H1 H2 Heq)). Qed.

Lemma fold_bytes_bound (l : list Z) :
  forall a, 0 <= a -> Forall Buf.is_byte l ->
    0 <= fold_left (fun acc b => acc * 256 + b) l a < (a + 1) * 256 ^ Z.of_nat (length l).
Proof.
  induction l as [| b l IH]; intros a Ha Hl; [cbn; lia |].
  inversion Hl as [| ? ? Hb Hl']; subst. unfold Buf.is_byte in Hb.
  cbn [fold_left length]. rewrite Nat2Z.inj_succ, Z.pow_succ_r by lia.
  specialize (IH (a * 256 + b) ltac:(lia) Hl').
  assert (Hpow : 0 < 256 ^ Z.of_nat (length l)) by (apply Z.pow_pos_nonneg; lia).
  nia.
Qed.

(** FIPS 197, appendix C.3. *)
Example fips197_c3 :
  Cipher (map Buf.b2z (hex "000102030405060708090a0b0c0d0e0f101112131415161718191a1b1c1d1e1f"))
         (map Buf.b2z (hex "00112233445566778899aabbccddeeff"))
  = map Buf.b2z (hex "8ea2b7ca516745bfeafc49904b496089").
Proof. vm_compute. reflexivity. Qed.

Example sbox_values : sbox 0 = 0x63 /\ sbox 0x53 = 0xED /\ sbox 0xFF = 0x16.
Proof. vm_compute. repeat split. Qed.

End AES.

(** ** Galois/Counter Mode (NIST SP 800-38D), as OpenSSL runs it *)

Module GCM.
Import Buf.

#[export] Instance byte_eq_dec : EqDecision byte.
Proof.
  intros a b. destruct (Z.eq_dec (b2z a) (b2z b)) as [H | H].
  - left. exact (b2z_inj a b H).
  - right. intros ->. apply H. reflexivity.
Defined.

Definition block_modulus : Z := 2 ^ 128.

(** The reduction constant R = 11100001 || 0^120. *)
Definition R : Z := 0xE1 * 2 ^ 120.

(** One iteration of the multiplication of SP 800-38D, algorithm 1: bit [i]
    of X, counted from the left, decides whether V is added. *)
Definition next_V (V : Z) : Z := if Z.odd V then Z.lxor (V / 2) R else V / 2.

Definition gmul_step (X : Z) (acc : Z * Z) (i : Z) : Z * Z :=
  (if Z.testbit X (127 - i) then Z.lxor (fst acc) (snd acc) else fst acc,
   next_V (snd acc)).

Definition bit_indices : list Z := map Z.of_nat (seq 0 128).

Definition gmul (X Y : Z) : Z := fst (fold_left (gmul_step X) bit_indices (0, Y)).

Definition ghash (H : Z) (blocks : list Z) : Z :=
  fold_left (fun Y X => gmul (Z.lxor Y X) H) blocks 0.

(** At most sixteen bytes as a block, zero-padded on the right. *)
Definition block_of (l : Buffer) : Z :=
  AES.block_of_bytes (map b2z l ++ repeat 0 (16 - length l)).

Fixpoint to_blocks_fuel (n : nat) (bytes : Buffer) : list Z :=
  match n with
  | O => []
  | S n' =>
      match bytes with
      | [] => []
      | _ :: _ => block_of (firstn 16 bytes) :: to_blocks_fuel n' (skipn 16 bytes)
      end
  end.

Definition to_blocks (bytes : Buffer) : list Z := to_blocks_fuel (length bytes) bytes.

Definition bit_length (l : Buffer) : Z := 8 * Z.of_nat (length l).

(** [len(A)]_64 || [len(C)]_64 *)
Definition length_block (A C : Buffer) : Z := bit_length A * 2 ^ 64 + bit_length C.

Definition inc32 (X : Z) : Z := (X / 2 ^ 32) * 2 ^ 32 + (X + 1) mod 2 ^ 32.

Definition block_bytes (x : Z) : Buffer := map z2b (AES.bytes_of_block x).

(** *** GHASH is linear, and injective when the subkey is *)

Definition in_block (x : Z) : Prop := 0 <= x < 2 ^ 128.

(** Multiplication by [H] is injective on blocks.  In the field GF(2^128)
    this is the case for every H but zero. *)
Definition ghash_key_injective (H : Z) : Prop :=
  forall a b, gmul a H = gmul b H -> a mod 2 ^ 128 = b mod 2 ^ 128.

Definition ghash_from (H Y : Z) (blocks : list Z) : Z :=
  fold_left (fun Y X => gmul (Z.lxor Y X) H) blocks Y.

Ltac bitwise :=
  apply Z.bits_inj'; intros ?i ?Hi; rewrite ?Z.lxor_spec;
  repeat match goal with
         | |- context [Z.testbit ?a ?i] => destruct (Z.testbit a i)
         end; reflexivity.

Lemma lxor_mod_pow2 (a b n : Z) :
  0 <= n -> Z.lxor a b mod 2 ^ n = Z.lxor (a mod 2 ^ n) (b mod 2 ^ n).
Proof.
  intros Hn. apply Z.bits_inj'. intros i Hi.
  rewrite Z.lxor_spec, !Z.testbit_mod_pow2, Z.lxor_spec by lia.
  destruct (i <? n); reflexivity.
Qed.

Lemma lxor_cancel_r (a b c : Z) : Z.lxor a c = Z.lxor b c -> a = b.
Proof.
  intros H. replace a with (Z.lxor (Z.lxor a c) c) by bitwise.
  rewrite H. bitwise.
Qed.

Lemma bit_indices_range (i : Z) : In i bit_indices -> 0 <= i < 128.
Proof.
  unfold bit_indices. rewrite in_map_iff. intros (k & <- & Hk).
  apply in_seq in Hk. lia.
Qed.

Lemma in_block_R : in_block R.
Proof. unfold in_block, R. lia. Qed.

Lemma in_block_lxor (a b : Z) : in_block a -> in_block b -> in_block (Z.lxor a b).
Proof. intros Ha Hb. apply (lxor_bound 128); [lia | exact Ha | exact Hb]. Qed.

Lemma in_block_half (v : Z) : in_block v -> in_block (v / 2).
Proof. unfold in_block. intros Hv. split; [apply Z.div_pos; lia |]. apply Z.div_lt_upper_bound; lia. Qed.

Lemma gmul_step_eq (X z v i : Z) :
  gmul_step X (z, v) i = (if Z.testbit X (127 - i) then Z.lxor z v else z, next_V v).
Proof. reflexivity. Qed.

Lemma in_block_next_V (v : Z) : in_block v -> in_block (next_V v).
Proof.
  intros Hv. unfold next_V.
  destruct (Z.odd v);
    [apply in_block_lxor; [apply in_block_half, Hv | apply in_block_R]
    | apply in_block_half, Hv].
Qed.

Lemma fold_gmul_range (X : Z) (l : list Z) :
  forall z v, in_block z -> in_block v ->
    in_block (fst (fold_left (gmul_step X) l (z, v))).
Proof.
  induction l as [| i l IH]; intros z v Hz Hv; [exact Hz |].
  cbn [fold_left]. rewrite gmul_step_eq.
  apply IH; [| apply in_block_next_V, Hv].
  destruct (Z.testbit X (127 - i)); [apply in_block_lxor; assumption | exact Hz].
Qed.

Lemma gmul_range (X H : Z) : in_block H -> in_block (gmul X H).
Proof. intros HH. apply fold_gmul_range; [unfold in_block; lia | exact HH]. Qed.

Lemma fold_gmul_linear (x y : Z) (l : list Z) :
  forall z1 z2 v,
    fold_left (gmul_step (Z.lxor x y)) l (Z.lxor z1 z2, v)
    = (Z.lxor (fst (fold_left (gmul_step x) l (z1, v)))
              (fst (fold_left (gmul_step y) l (z2, v))),
       snd (fold_left (gmul_step x) l (z1, v))) /\
    snd (fold_left (gmul_step x) l (z1, v)) = snd (fold_left (gmul_step y) l (z2, v)).
Proof.
  induction l as [| i l IH]; intros z1 z2 v; [split; reflexivity |].
  cbn [fold_left]. rewrite !gmul_step_eq, Z.lxor_spec.
  destruct (Z.testbit x (127 - i)), (Z.testbit y (127 - i)); cbn [xorb].
  - replace (Z.lxor z1 z2) with (Z.lxor (Z.lxor z1 v) (Z.lxor z2 v)) by bitwise. apply IH.
  - replace (Z.lxor (Z.lxor z1 z2) v) with (Z.lxor (Z.lxor z1 v) z2) by bitwise. apply IH.
  - replace (Z.lxor (Z.lxor z1 z2) v) with (Z.lxor z1 (Z.lxor z2 v)) by bitwise. apply IH.
  - apply IH.
Qed.

(** Multiplication is linear in its first argument. *)
Lemma gmul_linear (x y H : Z) : gmul (Z.lxor x y) H = Z.lxor (gmul x H) (gmul y H).
Proof.
  unfold gmul. destruct (fold_gmul_linear x y bit_indices 0 0 H) as [Heq _].
  change (Z.lxor 0 0) with 0 in Heq. rewrite Heq. reflexivity.
Qed.

Lemma fold_gmul_low_bits (a : Z) (l : list Z) :
  (forall i, In i l -> 0 <= i < 128) ->
  forall acc, fold_left (gmul_step (a mod 2 ^ 128)) l acc = fold_left (gmul_step a) l acc.
Proof.
  induction l as [| i l IH]; intros Hl acc; [reflexivity |].
  cbn [fold_left]. rewrite IH by (intros j Hj; apply Hl; right; exact Hj).
  f_equal. unfold gmul_step.
  rewrite Z.mod_pow2_bits_low by (specialize (Hl i (or_introl eq_refl)); lia).
  reflexivity.
Qed.

(** Only the 128 low bits of the first argument are read. *)
Lemma gmul_mod (a H : Z) : gmul (a mod 2 ^ 128) H = gmul a H.
Proof. unfold gmul. rewrite (fold_gmul_low_bits a bit_indices bit_indices_range). reflexivity. Qed.

Lemma linear_fixes_zero (F : Z -> Z) :
  (forall x y, F (Z.lxor x y) = Z.lxor (F x) (F y)) -> F 0 = 0.
Proof.
  intros Hlin. change 0 with (Z.lxor 0 0) at 1. rewrite Hlin. apply Z.lxor_nilpotent.
Qed.

(** A linear map that fixes the powers of two below 2^n fixes every number
    below 2^n. *)
Lemma linear_fixes_basis (F : Z -> Z) :
  (forall x y, F (Z.lxor x y) = Z.lxor (F x) (F y)) ->
  forall n : nat,
    (forall j, 0 <= j < Z.of_nat n -> F (2 ^ j) = 2 ^ j) ->
    forall a, 0 <= a < 2 ^ Z.of_nat n -> F a = a.
Proof.
  intros Hlin n. induction n as [| n IH]; intros Hbasis a Ha.
  - replace a with 0 by (cbn in Ha; lia). apply linear_fixes_zero, Hlin.
  - rewrite Nat2Z.inj_succ, Z.pow_succ_r in Ha by lia.
    destruct (Z.lt_ge_cases a (2 ^ Z.of_nat n)) as [Hlow | Hhigh].
    + apply IH; [intros j Hj; apply Hbasis; lia | lia].
    + set (r := a - 2 ^ Z.of_nat n).
      assert (Hr : 0 <= r < 2 ^ Z.of_nat n) by (subst r; lia).
      assert (Hsplit : a = Z.lxor (2 ^ Z.of_nat n) r).
      { rewrite <- Z.add_nocarry_lxor; [subst r; lia |].
        apply Z.bits_inj'. intros i Hi. rewrite Z.land_spec, Z.bits_0, Z.pow2_bits_eqb by lia.
        destruct (Z.eqb_spec (Z.of_nat n) i) as [<- | Hne]; [| reflexivity].
        rewrite <- (Z.mod_small r (2 ^ Z.of_nat n)) by exact Hr.
        rewrite Z.mod_pow2_bits_high by lia. reflexivity. }
      rewrite Hsplit, Hlin, Hbasis by lia.
      rewrite IH; [reflexivity | intros j Hj; apply Hbasis; lia | exact Hr].
Qed.

(** A subkey with a left inverse on the basis multiplies injectively. *)
Lemma left_inverse_injective (H Hinv : Z) :
  forallb (fun j => gmul (gmul (2 ^ j) H) Hinv =? 2 ^ j) bit_indices = true ->
  ghash_key_injective H.
Proof.
  intros Hcheck a b Heq.
  set (F := fun x => gmul (gmul x H) Hinv).
  assert (Hlin : forall x y, F (Z.lxor x y) = Z.lxor (F x) (F y))
    by (intros x y; unfold F; rewrite !gmul_linear; reflexivity).
  assert (Hid : forall x, 0 <= x < 2 ^ Z.of_nat 128 -> F x = x).
  { apply (linear_fixes_basis F Hlin). intros j Hj.
    rewrite forallb_forall in Hcheck. apply Z.eqb_eq. apply (Hcheck j).
    unfold bit_indices. apply in_map_iff. exists (Z.to_nat j).
    split; [lia | apply in_seq; lia]. }
  rewrite <- (Hid (a mod 2 ^ 128)), <- (Hid (b mod 2 ^ 128))
    by (apply Z.mod_pos_bound; lia).
  unfold F. rewrite !gmul_mod, Heq. reflexivity.
Qed.

(** H^(2^128 - 2), the inverse of a non-zero H; the unit of the field is the
    block 1 || 0^127. *)
Definition ginv (H : Z) : Z :=
  snd (Nat.iter 127 (fun p => let s := gmul (fst p) (fst p) in (s, gmul (snd p) s))
         (H, 2 ^ 127)).

Lemma ghash_from_range (H : Z) (blocks : list Z) :
  in_block H -> forall Y, in_block Y -> in_block (ghash_from H Y blocks).
Proof.
  intros HH. induction blocks as [| X blocks IH]; intros Y HY; [exact HY |].
  cbn [ghash_from fold_left]. apply IH, gmul_range, HH.
Qed.

Lemma ghash_step_injective (H Y1 Y2 X1 X2 : Z) :
  ghash_key_injective H ->
  Z.lxor Y1 X1 mod 2 ^ 128 <> Z.lxor Y2 X2 mod 2 ^ 128 ->
  gmul (Z.lxor Y1 X1) H <> gmul (Z.lxor Y2 X2) H.
Proof. intros Hinj Hne Heq. apply Hne, Hinj, Heq. Qed.

Lemma ghash_tail_injective (H : Z) (post : list Z) :
  ghash_key_injective H -> in_block H ->
  forall Y1 Y2, in_block Y1 -> in_block Y2 -> Y1 <> Y2 ->
    ghash_from H Y1 post <> ghash_from H Y2 post.
Proof.
  intros Hinj HH. induction post as [| X post IH]; intros Y1 Y2 H1 H2 Hne; [exact Hne |].
  cbn [ghash_from fold_left].
  apply IH; try (apply gmul_range, HH).
  apply ghash_step_injective; [exact Hinj |].
  rewrite !lxor_mod_pow2 by lia. intros Heq. apply lxor_cancel_r in Heq.
  rewrite !Z.mod_small in Heq by assumption. contradiction.
Qed.

(** Two inputs that differ in one block have different hashes. *)
Lemma ghash_single_block (H : Z) (pre post : list Z) (X X' : Z) :
  ghash_key_injective H -> in_block H ->
  X mod 2 ^ 128 <> X' mod 2 ^ 128 ->
  ghash H (pre ++ X :: post) <> ghash H (pre ++ X' :: post).
Proof.
  intros Hinj HH Hne. unfold ghash. rewrite !fold_left_app. cbn [fold_left].
  set (Y := fold_left _ pre 0).
  assert (HY : in_block Y) by (apply (ghash_from_range H pre HH 0); unfold in_block; lia).
  apply (ghash_tail_injective H post Hinj HH); try (apply gmul_range, HH).
  apply ghash_step_injective; [exact Hinj |].
  rewrite !lxor_mod_pow2 by lia. intros Heq.
  rewrite (Z.lxor_comm (Y mod _)), (Z.lxor_comm (Y mod _) (X' mod _)) in Heq.
  apply lxor_cancel_r in Heq. contradiction.
Qed.

(** *** Blocks of a buffer with one byte replaced *)

Lemma map_b2z_bytes (l : Buffer) : Forall is_byte (map b2z l).
Proof. induction l; constructor; [apply b2z_range | assumption]. Qed.

Definition padded (l : Buffer) : list Z := map b2z l ++ repeat 0 (16 - length l).

Lemma padded_bytes (l : Buffer) : Forall is_byte (padded l).
Proof.
  apply Forall_app. split; [apply map_b2z_bytes |].
  generalize (16 - length l)%nat. intros n.
  induction n; constructor; [unfold is_byte; lia | assumption].
Qed.

Lemma padded_length (l : Buffer) : (length l <= 16)%nat -> length (padded l) = 16%nat.
Proof. intros Hl. unfold padded. rewrite length_app, length_map, repeat_length. lia. Qed.

Lemma in_block_block_of (l : Buffer) : (length l <= 16)%nat -> in_block (block_of l).
Proof.
  intros Hl. unfold block_of, AES.block_of_bytes. fold (padded l).
  pose proof (AES.fold_bytes_bound (padded l) 0 ltac:(lia) (padded_bytes l)) as Hb.
  rewrite (padded_length l Hl) in Hb. unfold in_block. lia.
Qed.

Lemma block_of_inj (l1 l2 : Buffer) :
  length l1 = length l2 -> (length l1 <= 16)%nat ->
  block_of l1 = block_of l2 -> l1 = l2.
Proof.
  intros Hlen Hl Heq. unfold block_of in Heq. fold (padded l1) (padded l2) in Heq.
  apply AES.block_of_bytes_inj in Heq;
    [| rewrite !padded_length by lia; reflexivity | apply padded_bytes | apply padded_bytes].
  unfold padded in Heq. rewrite Hlen in Heq. apply app_inv_tail in Heq.
  revert l2 Hlen Heq. induction l1 as [| a l1 IH]; intros [| b l2] Hlen Heq;
    try discriminate; [reflexivity |].
  cbn [map] in Heq. injection Heq as Hab Hrest.
  f_equal; [apply b2z_inj, Hab | apply IH; [cbn in Hl; lia | cbn in Hlen; lia | exact Hrest]].
Qed.

(** Replacing one byte changes exactly one block. *)
Lemma to_blocks_fuel_insert (n : nat) :
  forall (C : Buffer) (j : nat) (b b' : byte),
    C !! j = Some b -> b' <> b -> (j < n)%nat ->
    exists pre post X X',
      to_blocks_fuel n C = pre ++ X :: post /\
      to_blocks_fuel n (<[j := b']> C) = pre ++ X' :: post /\
      X mod 2 ^ 128 <> X' mod 2 ^ 128.
Proof.
  induction n as [| n IH]; intros C j b b' Hj Hne Hfuel; [lia |].
  assert (Hlt : (j < length C)%nat) by (apply lookup_lt_is_Some; eauto).
  cbn [to_blocks_fuel].
  destruct C as [| c0 C0] eqn:HC; [cbn in Hlt; lia |]. rewrite <- HC in *.
  destruct (<[j := b']> C) as [| c1 C1] eqn:HC';
    [apply (f_equal length) in HC'; rewrite length_insert in HC'; cbn in HC'; lia |].
  rewrite <- HC'. clear c0 C0 HC c1 C1 HC'.
  destruct (Nat.lt_ge_cases j 16) as [Hlow | Hhigh].
  - exists [], (to_blocks_fuel n (skipn 16 C)), (block_of (firstn 16 C)),
      (block_of (firstn 16 (<[j := b']> C))).
    split; [reflexivity |]. split.
    + cbn [app]. f_equal. f_equal. apply drop_insert_lt. lia.
    + assert (Hlen16 : (length (firstn 16 C) <= 16)%nat) by (rewrite length_take; lia).
      rewrite !Z.mod_small
        by (apply in_block_block_of; rewrite ?length_take, ?length_insert; lia).
      intros Heq. apply block_of_inj in Heq;
        [| rewrite !length_take, length_insert; reflexivity | exact Hlen16].
      apply (f_equal (fun l => l !! j)) in Heq.
      rewrite !lookup_take_lt, list_lookup_insert_eq in Heq by lia.
      congruence.
  - destruct (IH (skipn 16 C) (j - 16)%nat b b') as (pre & post & X & X' & H1 & H2 & H3).
    + rewrite lookup_drop. replace (16 + (j - 16))%nat with j by lia. exact Hj.
    + exact Hne.
    + lia.
    + exists (block_of (firstn 16 C) :: pre), post, X, X'.
      rewrite take_insert_ge by lia.
      replace (skipn 16 (<[j := b']> C)) with (<[(j - 16)%nat := b']> (skipn 16 C))
        by (rewrite drop_insert_ge by lia; reflexivity).
      rewrite H1, H2. repeat split; [exact H3].
Qed.

Lemma block_bytes_inj (x y : Z) :
  in_block x -> in_block y -> block_bytes x = block_bytes y -> x = y.
Proof.
  intros Hx Hy Heq. unfold block_bytes, AES.bytes_of_block in Heq.
  apply (f_equal (map b2z)) in Heq.
  rewrite !map_b2z_z2b in Heq by apply AES.be_bytes_range.
  apply (f_equal AES.block_of_bytes) in Heq.
  rewrite !AES.block_of_be_bytes in Heq.
  change (256 ^ Z.of_nat 16) with (2 ^ 128) in Heq.
  rewrite !Z.mod_small in Heq by assumption. exact Heq.
Qed.

Section Mode.

(** The block cipher under the key. *)
Variable E : Z -> Z.

Definition hash_subkey : Z := E 0 mod block_modulus.

(** J0: IV || 0^31 || 1 for a 96-bit IV, GHASH of the padded IV and its
    length otherwise. *)
Definition pre_counter (iv : Buffer) : Z :=
  if (length iv =? 12)%nat then AES.block_of_bytes (map b2z iv) * 2 ^ 32 + 1
  else ghash hash_subkey (to_blocks iv ++ [bit_length iv]).

Fixpoint keystream (n : nat) (cb : Z) : Buffer :=
  match n with
  | O => []
  | S n' => block_bytes (E cb) ++ keystream n' (inc32 cb)
  end.

Definition blocks_needed (len : nat) : nat := (len + 15) / 16.

(** GCTR: the input XORed with the encrypted counter blocks, the last one
    truncated. *)
Definition gctr (icb : Z) (X : Buffer) : Buffer :=
  zip_with bxor X (keystream (blocks_needed (length X)) icb).

Definition ghash_input (A C : Buffer) : list Z :=
  to_blocks A ++ to_blocks C ++ [length_block A C].

(** The full 16-byte tag of ciphertext C under additional data A. *)
Definition tag_of (iv A C : Buffer) : Buffer :=
  block_bytes (Z.lxor (E (pre_counter iv) mod block_modulus)
                      (ghash hash_subkey (ghash_input A C))).

Definition gcm_encrypt (iv A P : Buffer) : Buffer * Buffer :=
  let C := gctr (inc32 (pre_counter iv)) P in (C, tag_of iv A C).

(** Decryption compares as many bytes of the tag as were supplied. *)
Definition gcm_decrypt (iv A C tag : Buffer) : option Buffer :=
  if decide (firstn (length tag) (tag_of iv A C) = tag)
  then Some (gctr (inc32 (pre_counter iv)) C)
  else None.

Lemma length_block_bytes (x : Z) : length (block_bytes x) = 16%nat.
Proof. reflexivity. Qed.

Lemma length_keystream (n : nat) (cb : Z) : length (keystream n cb) = (16 * n)%nat.
Proof.
  revert cb. induction n as [| n IH]; intros cb; [reflexivity |].
  cbn [keystream]. rewrite length_app, IH, length_block_bytes. lia.
Qed.

Lemma blocks_needed_enough (len : nat) : (len <= 16 * blocks_needed len)%nat.
Proof.
  unfold blocks_needed.
  pose proof (Nat.div_mod_eq (len + 15) 16) as Hdm.
  pose proof (Nat.mod_upper_bound (len + 15) 16) as Hlt. lia.
Qed.

Lemma zip_bxor_length (X ks : Buffer) :
  (length X <= length ks)%nat -> length (zip_with bxor X ks) = length X.
Proof.
  revert ks. induction X as [| x X IH]; intros [| k ks] Hlen; cbn in *;
    try reflexivity; try lia.
  f_equal. apply IH. lia.
Qed.

Lemma zip_bxor_involutive (X ks : Buffer) :
  (length X <= length ks)%nat -> zip_with bxor (zip_with bxor X ks) ks = X.
Proof.
  revert ks. induction X as [| x X IH]; intros [| k ks] Hlen; cbn in *;
    try reflexivity; try lia.
  rewrite bxor_involutive. f_equal. apply IH. lia.
Qed.

Lemma length_gctr (icb : Z) (X : Buffer) : length (gctr icb X) = length X.
Proof.
  unfold gctr. apply zip_bxor_length. rewrite length_keystream.
  apply blocks_needed_enough.
Qed.

(** Counter mode is its own inverse. *)
Lemma gctr_involutive (icb : Z) (X : Buffer) : gctr icb (gctr icb X) = X.
Proof.
  unfold gctr at 1. rewrite length_gctr. unfold gctr.
  apply zip_bxor_involutive. rewrite length_keystream. apply blocks_needed_enough.
Qed.

Lemma length_tag_of (iv A C : Buffer) : length (tag_of iv A C) = 16%nat.
Proof. reflexivity. Qed.

(** Decrypting what was encrypted, with its tag, gives the plaintext back. *)
Lemma gcm_decrypt_encrypt (iv A P : Buffer) :
  gcm_decrypt iv A (fst (gcm_encrypt iv A P)) (snd (gcm_encrypt iv A P)) = Some P.
Proof.
  unfold gcm_encrypt, gcm_decrypt. cbn [fst snd].
  rewrite length_tag_of.
  rewrite (firstn_all2 (tag_of _ _ _)) by (rewrite length_tag_of; lia).
  rewrite decide_True by reflexivity.
  rewrite gctr_involutive. reflexivity.
Qed.

(** A tag of the full length that is not the computed one is refused. *)
Lemma gcm_decrypt_wrong_tag (iv A C tag : Buffer) :
  length tag = 16%nat -> tag <> tag_of iv A C -> gcm_decrypt iv A C tag = None.
Proof.
  intros Hlen Hne. unfold gcm_decrypt. rewrite Hlen.
  rewrite (firstn_all2 (tag_of _ _ _)) by (rewrite length_tag_of; lia).
  rewrite decide_False by congruence. reflexivity.
Qed.

(** Whatever decryption returns under a full-length tag was encrypted to the
    ciphertext it was given. *)
Lemma gcm_decrypt_Some (iv A C tag P : Buffer) :
  gcm_decrypt iv A C tag = Some P ->
  P = gctr (inc32 (pre_counter iv)) C /\ firstn (length tag) (tag_of iv A C) = tag.
Proof.
  unfold gcm_decrypt. destruct (decide _) as [Heq | Hne]; [| discriminate].
  intros [= <-]. split; [reflexivity | exact Heq].
Qed.

Lemma in_block_hash_subkey : in_block hash_subkey.
Proof. apply Z.mod_pos_bound. lia. Qed.

(** With an injective subkey, a ciphertext with one byte replaced has
    another tag. *)
Lemma tag_of_insert (iv A C : Buffer) (j : nat) (b b' : byte) :
  ghash_key_injective hash_subkey ->
  C !! j = Some b -> b' <> b ->
  tag_of iv A (<[j := b']> C) <> tag_of iv A C.
Proof.
  intros Hinj Hj Hne Heq. unfold tag_of in Heq.
  assert (Hlt : (j < length C)%nat) by (apply lookup_lt_is_Some; eauto).
  destruct (to_blocks_fuel_insert (length C) C j b b' Hj Hne Hlt)
    as (pre & post & X & X' & H1 & H2 & H3).
  assert (HC : ghash_input A C = (to_blocks A ++ pre) ++ X :: (post ++ [length_block A C])).
  { unfold ghash_input, to_blocks. rewrite H1, <- !app_assoc. reflexivity. }
  assert (HC' : ghash_input A (<[j := b']> C)
                = (to_blocks A ++ pre) ++ X' :: (post ++ [length_block A C])).
  { unfold ghash_input, to_blocks, length_block, bit_length.
    rewrite length_insert, H2, <- !app_assoc. reflexivity. }
  apply block_bytes_inj in Heq;
    try (apply in_block_lxor;
         [apply Z.mod_pos_bound; lia
         | apply (ghash_from_range _ _ in_block_hash_subkey 0); unfold in_block; lia]).
  rewrite !(Z.lxor_comm (E _ mod _)) in Heq. apply lxor_cancel_r in Heq.
  rewrite HC, HC' in Heq.
  exact (ghash_single_block hash_subkey _ _ X' X Hinj in_block_hash_subkey
           (fun H => H3 (eq_sym H)) Heq).
Qed.

Lemma gcm_decrypt_tampered_ciphertext (iv A C : Buffer) (j : nat) (b b' : byte) :
  ghash_key_injective hash_subkey ->
  C !! j = Some b -> b' <> b ->
  gcm_decrypt iv A (<[j := b']> C) (tag_of iv A C) = None.
Proof.
  intros Hinj Hj Hne. apply gcm_decrypt_wrong_tag; [apply length_tag_of |].
  intros Heq. exact (tag_of_insert iv A C j b b' Hinj Hj Hne (eq_sym Heq)).
Qed.

End Mode.

Definition aes256 (key : Buffer) : Z -> Z := AES.encrypt_block key.

Definition zero_key : Buffer := repeat Init.Byte.x00 32.
Definition nist_key : Buffer :=
  AES.hex "feffe9928665731c6d6a8f9467308308feffe9928665731c6d6a8f9467308308".

(** The AES-256 test cases of the GCM specification (McGrew and Viega). *)
Example gcm_test_case_13 :
  gcm_encrypt (aes256 zero_key) (AES.hex "000000000000000000000000") [] []
  = ([], AES.hex "530f8afbc74536b9a963b4f1c4cb738b").
Proof. vm_compute. reflexivity. Qed.

Example gcm_test_case_14 :
  gcm_encrypt (aes256 zero_key) (AES.hex "000000000000000000000000") []
    (AES.hex "00000000000000000000000000000000")
  = (AES.hex "cea7403d4d606b6e074ec5d3baf39d18",
     AES.hex "d0d1c8a799996bf0265b98b5d48ab919").
Proof. vm_compute. reflexivity. Qed.

Example gcm_test_case_15 :
  gcm_encrypt (aes256 nist_key) (AES.hex "cafebabefacedbaddecaf888") []
    (AES.hex "d9313225f88406e5a55909c5aff5269a86a7a9531534f7da2e4c303d8a318a721c3c0c95956809532fcf0e2449a6b525b16aedf5aa0de657ba637b391aafd255")
  = (AES.hex "522dc1f099567d07f47f37a32a84427d643a8cdcbfe5c0c97598a2bd2555d1aa8cb08e48590dbb3da7b08b1056828838c5f61e6393ba7a0abcc9f662898015ad",
     AES.hex "b094dac5d93471bdec1a502270e3cc6c").
Proof. vm_compute. reflexivity. Qed.

(** Test case 18: a 60-byte IV (the GHASH path of J0, as for the 16-byte IV
    of the vault) and additional data. *)
Example gcm_test_case_18 :
  gcm_encrypt (aes256 nist_key)
    (AES.hex "9313225df88406e555909c5aff5269aa6a7a9538534f7da1e4c303d2a318a728c3c0c95156809539fcf0e2429a6b525416aedbf5a0de6a57a637b39b")
    (AES.hex "feedfacedeadbeeffeedfacedeadbeefabaddad2")
    (AES.hex "d9313225f88406e5a55909c5aff5269a86a7a9531534f7da2e4c303d8a318a721c3c0c95956809532fcf0e2449a6b525b16aedf5aa0de657ba637b39")
  = (AES.hex "5a8def2f0c9e53f1f75d7853659e2a20eeb2b22aafde6419a058ab4f6f746bf40fc0c3b780f244452da3ebf1c5d82cdea2418997200ef82e44ae7e3f",
     AES.hex "a44a8266ee1c8eb0c8b5d4cf5ae9f19a").
Proof. vm_compute. reflexivity. Qed.

End GCM.

(** ** serveur/routes/motsDePasse.js : the envelope codec *)

Module Codec.
Import Buf GCM.

(** Bind for code that throws and has no state. *)
Definition and_then {A B} (r : Res A) (k : A -> Res B) : Res B :=
  match r with
  | Ok a => k a
  | Throw e => Throw e
  end.

Notation "'let+' x := r 'in' k" := (and_then r (fun x => k))
  (at level 10, x name, r at level 100, k at level 200).

Definition lift {St A} (r : Res A) : M St A := fun st => (r, st).

Definition IV_LENGTH : nat := 16.

Definition ERR_INVALID_ARG_TYPE : JsError := TypeError "ERR_INVALID_ARG_TYPE".
Definition ERR_CRYPTO_INVALID_KEYLEN : JsError := CryptoError "Invalid key length".
Definition ERR_CRYPTO_INVALID_IV : JsError := CryptoError "Invalid initialization vector".
Definition ERR_CRYPTO_INVALID_AUTH_TAG : JsError :=
  CryptoError "Invalid authentication tag length".
Definition ERR_AUTHENTICATION : JsError :=
  CryptoError "Unsupported state or unable to authenticate data".

(** [Buffer.from(s, 'hex')]; [undefined] is not a string. *)
Definition Buffer_from_hex (s : option jsstring) : Res Buffer :=
  match s with
  | Some s => Ok (from_hex s)
  | None => Throw ERR_INVALID_ARG_TYPE
  end.

(** [crypto.createCipheriv('aes-256-gcm', key, iv)] and its decipher twin:
    the key must be 32 bytes and the IV not empty. *)
Definition create_aes_256_gcm (key iv : Buffer) : Res (Z -> Z) :=
  if negb (length key =? 32)%nat then Throw ERR_CRYPTO_INVALID_KEYLEN
  else if (length iv =? 0)%nat then Throw ERR_CRYPTO_INVALID_IV
  else Ok (aes256 key).

(** [decipher.setAuthTag(tag)]: GCM takes tags of 4, 8 and 12 to 16 bytes. *)
Definition setAuthTag (tag : Buffer) : Res unit :=
  if existsb (Nat.eqb (length tag)) [4; 8; 12; 13; 14; 15; 16]%nat then Ok tt
  else Throw ERR_CRYPTO_INVALID_AUTH_TAG.

(** The state of the codec is the number of [crypto.randomBytes] calls. *)
Definition Entropy := nat.

Section Key.

(** [crypto.scryptSync(config.JWT_SECRET, 'sel', 32)], derived once when the
    module loads. *)
Variable ENCRYPTION_KEY : Buffer.

(** Byte [j] of the [k]-th call of [crypto.randomBytes]. *)
Variable entropy : nat -> nat -> Z.

Definition randomBytes (n : nat) : M Entropy Buffer :=
  fun k => (Ok (map (fun j => z2b (entropy k j)) (seq 0 n)), S k).

Definition chiffrer (texte : jsstring) : M Entropy jsstring :=
  let* iv := randomBytes IV_LENGTH in
  let* cipher := lift (create_aes_256_gcm ENCRYPTION_KEY iv) in
  let chiffre := fst (gcm_encrypt cipher iv [] (utf8_encode texte)) in
  let tag := snd (gcm_encrypt cipher iv [] (utf8_encode texte)) in
  ret (toString_hex iv ++ [colon] ++ toString_hex chiffre ++ [colon] ++ toString_hex tag).

Definition dechiffrer (texteChiffre : jsstring) : Res jsstring :=
  let parts := split_on colon texteChiffre in
  let ivHex := parts !! 0%nat in
  let chiffreHex := parts !! 1%nat in
  let tagHex := parts !! 2%nat in
  let+ iv := Buffer_from_hex ivHex in
  let+ chiffre := Buffer_from_hex chiffreHex in
  let+ tag := Buffer_from_hex tagHex in
  let+ decipher := create_aes_256_gcm ENCRYPTION_KEY iv in
  let+ _ := setAuthTag tag in
  match gcm_decrypt decipher iv [] chiffre tag with
  | Some plain => Ok (utf8_decode plain ++ [])
  | None => Throw ERR_AUTHENTICATION
  end.

(** The envelope of a plaintext under a given IV. *)
Definition envelope (iv : Buffer) (texte : jsstring) : jsstring :=
  let c := gcm_encrypt (aes256 ENCRYPTION_KEY) iv [] (utf8_encode texte) in
  toString_hex iv ++ [colon] ++ toString_hex (fst c) ++ [colon] ++ toString_hex (snd c).

Definition fresh_iv (k : Entropy) : Buffer :=
  map (fun j => z2b (entropy k j)) (seq 0 IV_LENGTH).

Lemma chiffrer_envelope (texte : jsstring) (k : Entropy) :
  length ENCRYPTION_KEY = 32%nat ->
  chiffrer texte k = (Ok (envelope (fresh_iv k) texte), S k).
Proof.
  intros Hkey. unfold chiffrer, bind, randomBytes, lift, create_aes_256_gcm, ret.
  rewrite Hkey. reflexivity.
Qed.

Lemma split_envelope (a b c : Buffer) :
  split_on colon (toString_hex a ++ [colon] ++ toString_hex b ++ [colon] ++ toString_hex c)
  = [toString_hex a; toString_hex b; toString_hex c].
Proof.
  cbn [app].
  rewrite (split_on_segment colon _ _ (toString_hex_no_colon a)).
  rewrite (split_on_segment colon _ _ (toString_hex_no_colon b)).
  rewrite (split_on_last colon _ (toString_hex_no_colon c)). reflexivity.
Qed.

(** Decrypting a well-formed three-segment envelope, in terms of GCM. *)
Lemma dechiffrer_segments (iv chiffre tag : Buffer) :
  length ENCRYPTION_KEY = 32%nat -> iv <> [] -> length tag = 16%nat ->
  dechiffrer (toString_hex iv ++ [colon] ++ toString_hex chiffre ++ [colon] ++ toString_hex tag)
  = match gcm_decrypt (aes256 ENCRYPTION_KEY) iv [] chiffre tag with
    | Some plain => Ok (utf8_decode plain)
    | None => Throw ERR_AUTHENTICATION
    end.
Proof.
  intros Hkey Hiv Htag. unfold dechiffrer. rewrite split_envelope.
  cbn [lookup list_lookup Buffer_from_hex and_then]. rewrite !from_hex_toString_hex.
  unfold create_aes_256_gcm, setAuthTag. rewrite Hkey, Htag.
  destruct iv as [| i0 iv]; [congruence |]. cbn [length Nat.eqb negb existsb orb and_then].
  destruct (gcm_decrypt _ _ _ _ _); [rewrite app_nil_r |]; reflexivity.
Qed.

Lemma dechiffrer_envelope (iv : Buffer) (texte : jsstring) :
  length ENCRYPTION_KEY = 32%nat -> iv <> [] ->
  dechiffrer (envelope iv texte) = Ok (utf8_decode (utf8_encode texte)).
Proof.
  intros Hkey Hiv. unfold envelope.
  rewrite dechiffrer_segments by (assumption || apply length_tag_of).
  rewrite gcm_decrypt_encrypt. reflexivity.
Qed.

(** C2 (amended): for every well-formed string (no unpaired surrogate),
    whatever the key derived from the server secret and whatever the random
    IV, [chiffrer] returns an envelope and [dechiffrer] of that envelope is
    the string. *)
Theorem dechiffrer_chiffrer (s : jsstring) (k : Entropy) :
  length ENCRYPTION_KEY = 32%nat ->
  well_formed s = true ->
  exists e, chiffrer s k = (Ok e, S k) /\ dechiffrer e = Ok s.
Proof.
  intros Hkey Hwf. exists (envelope (fresh_iv k) s).
  split; [apply chiffrer_envelope, Hkey |].
  rewrite dechiffrer_envelope by (assumption || discriminate).
  rewrite (utf8_decode_encode s Hwf). reflexivity.
Qed.

(** *** Tampering with one hex character *)

Definition join3 (a b c : jsstring) : jsstring := a ++ [colon] ++ b ++ [colon] ++ c.

Definition sealed (iv : Buffer) (texte : jsstring) : Buffer * Buffer :=
  gcm_encrypt (aes256 ENCRYPTION_KEY) iv [] (utf8_encode texte).

Definition first_segment (s : jsstring) : jsstring := hd [] (split_on colon s).

(** What [dechiffrer] does once the three buffers are decoded. *)
Definition decrypt_parts (iv chiffre tag : Buffer) : Res jsstring :=
  let+ decipher := create_aes_256_gcm ENCRYPTION_KEY iv in
  let+ _ := setAuthTag tag in
  match gcm_decrypt decipher iv [] chiffre tag with
  | Some plain => Ok (utf8_decode plain ++ [])
  | None => Throw ERR_AUTHENTICATION
  end.

Lemma dechiffrer_join3 (ivHex chiffreHex rest : jsstring) :
  Forall (fun c => c <> colon) ivHex -> Forall (fun c => c <> colon) chiffreHex ->
  dechiffrer (join3 ivHex chiffreHex rest)
  = decrypt_parts (from_hex ivHex) (from_hex chiffreHex) (from_hex (first_segment rest)).
Proof.
  intros Hiv Hc. unfold dechiffrer, join3, first_segment. cbn [app].
  rewrite (split_on_segment colon _ _ Hiv), (split_on_segment colon _ _ Hc).
  destruct (split_on colon rest) as [| t segs] eqn:Hsplit;
    [exfalso; exact (split_on_nonempty _ _ Hsplit) |].
  reflexivity.
Qed.

Lemma first_segment_no_colon (s : jsstring) :
  Forall (fun c => c <> colon) s -> first_segment s = s.
Proof. intros Hs. unfold first_segment. rewrite (split_on_last colon s Hs). reflexivity. Qed.

Lemma envelope_join3 (iv : Buffer) (texte : jsstring) :
  envelope iv texte
  = join3 (toString_hex iv) (toString_hex (fst (sealed iv texte)))
      (toString_hex (snd (sealed iv texte))).
Proof. reflexivity. Qed.

Lemma decrypt_parts_authentic (iv chiffre tag : Buffer) :
  length ENCRYPTION_KEY = 32%nat -> iv <> [] -> length tag = 16%nat ->
  decrypt_parts iv chiffre tag
  = match gcm_decrypt (aes256 ENCRYPTION_KEY) iv [] chiffre tag with
    | Some plain => Ok (utf8_decode plain ++ [])
    | None => Throw ERR_AUTHENTICATION
    end.
Proof.
  intros Hkey Hiv Htag. unfold decrypt_parts, create_aes_256_gcm, setAuthTag.
  rewrite Hkey, Htag. destruct iv as [| i0 iv]; [congruence |]. reflexivity.
Qed.

(** Whatever stands for the tag, decrypting the untouched IV and ciphertext
    fails or gives what the untouched envelope gives. *)
Lemma decrypt_parts_any_tag (iv : Buffer) (texte : jsstring) (tag : Buffer) :
  length ENCRYPTION_KEY = 32%nat -> iv <> [] ->
  (exists err, decrypt_parts iv (fst (sealed iv texte)) tag = Throw err) \/
  decrypt_parts iv (fst (sealed iv texte)) tag = dechiffrer (envelope iv texte).
Proof.
  intros Hkey Hiv. rewrite (dechiffrer_envelope iv texte Hkey Hiv).
  unfold decrypt_parts, create_aes_256_gcm. rewrite Hkey.
  destruct iv as [| i0 iv]; [congruence |]. cbn [length Nat.eqb negb and_then].
  destruct (setAuthTag tag) as [[] | err]; cbn [and_then]; [| left; eauto].
  destruct (gcm_decrypt _ _ _ _ tag) as [plain |] eqn:Hdec; [| left; eauto].
  right. apply gcm_decrypt_Some in Hdec as [-> _].
  unfold sealed, gcm_encrypt. cbn [fst]. rewrite gctr_involutive, app_nil_r. reflexivity.
Qed.

Lemma insert_differs {A} (l : list A) (j : nat) (x y : A) :
  l !! j = Some x -> y <> x -> <[j := y]> l <> l.
Proof.
  intros Hj Hne Heq. apply (f_equal (fun l => l !! j)) in Heq.
  rewrite list_lookup_insert_eq in Heq by (apply lookup_lt_is_Some; eauto).
  congruence.
Qed.

(** C3 (amended): in a valid envelope, replacing the hex character of nibble
    [low] of byte [j] by a hex digit [c'] of value [v']
    - makes [dechiffrer] throw the authentication error when the byte is in
      the tag and the value is another one;
    - does so too when the byte is in the ciphertext and the value is another
      one, provided multiplication by the GHASH subkey is injective;
    - changes nothing when the value is the same (the other letter case);
    and whatever character is written anywhere in the tag segment,
    [dechiffrer] throws or returns what it returns for the valid envelope. *)
Theorem tamper_detection (texte : jsstring) (k : Entropy) (j : nat) (low : bool)
    (b : byte) (c' v' : Z) :
  length ENCRYPTION_KEY = 32%nat ->
  unhex c' = Some v' ->
  let iv := toString_hex (fresh_iv k) in
  let C := fst (sealed (fresh_iv k) texte) in
  let T := snd (sealed (fresh_iv k) texte) in
  let valid := envelope (fresh_iv k) texte in
  let in_tag := join3 iv (toString_hex C) (<[hex_index j low := c']> (toString_hex T)) in
  let in_ciphertext :=
    join3 iv (<[hex_index j low := c']> (toString_hex C)) (toString_hex T) in
  (T !! j = Some b -> v' <> nibble low b ->
     dechiffrer in_tag = Throw ERR_AUTHENTICATION) /\
  (C !! j = Some b -> v' <> nibble low b ->
     ghash_key_injective (hash_subkey (aes256 ENCRYPTION_KEY)) ->
     dechiffrer in_ciphertext = Throw ERR_AUTHENTICATION) /\
  (T !! j = Some b -> v' = nibble low b -> dechiffrer in_tag = dechiffrer valid) /\
  (C !! j = Some b -> v' = nibble low b -> dechiffrer in_ciphertext = dechiffrer valid) /\
  (forall (i : nat) (x : Z),
     (exists err, dechiffrer (join3 iv (toString_hex C) (<[i := x]> (toString_hex T)))
                  = Throw err) \/
     dechiffrer (join3 iv (toString_hex C) (<[i := x]> (toString_hex T)))
     = dechiffrer valid).
Proof.
  intros Hkey Hc iv C T valid in_tag in_ciphertext.
  assert (Hiv : fresh_iv k <> []) by discriminate.
  assert (Hcolon : c' <> colon) by exact (unhex_not_colon c' v' Hc).
  assert (Hv : 0 <= v' < 16) by exact (unhex_range c' v' Hc).
  assert (HT : T = tag_of (aes256 ENCRYPTION_KEY) (fresh_iv k) [] C) by reflexivity.
  repeat split.
  - intros Hj Hne. unfold in_tag, iv.
    rewrite dechiffrer_join3 by apply toString_hex_no_colon.
    rewrite first_segment_no_colon
      by (apply insert_no_colon; [exact Hcolon | apply toString_hex_no_colon]).
    rewrite !from_hex_toString_hex, (from_hex_insert T j low b c' v' Hj Hc).
    rewrite decrypt_parts_authentic
      by (assumption || (rewrite length_insert; apply length_tag_of)).
    rewrite gcm_decrypt_wrong_tag; [reflexivity | rewrite length_insert; apply length_tag_of |].
    rewrite <- HT. apply (insert_differs T j b); [exact Hj |].
    apply set_nibble_other; assumption.
  - intros Hj Hne Hinj. unfold in_ciphertext, iv.
    rewrite dechiffrer_join3
      by (try apply insert_no_colon; try apply toString_hex_no_colon; exact Hcolon).
    rewrite first_segment_no_colon by apply toString_hex_no_colon.
    rewrite !from_hex_toString_hex, (from_hex_insert C j low b c' v' Hj Hc).
    rewrite decrypt_parts_authentic by (assumption || apply length_tag_of).
    rewrite HT, (gcm_decrypt_tampered_ciphertext _ _ _ C j b); [reflexivity | exact Hinj | exact Hj |].
    apply set_nibble_other; assumption.
  - intros Hj ->. unfold in_tag, iv, valid.
    rewrite dechiffrer_join3 by apply toString_hex_no_colon.
    rewrite first_segment_no_colon
      by (apply insert_no_colon; [exact Hcolon | apply toString_hex_no_colon]).
    rewrite (from_hex_insert T j low b c' _ Hj Hc), set_nibble_same, (list_insert_id T j b Hj).
    rewrite envelope_join3, dechiffrer_join3 by apply toString_hex_no_colon.
    rewrite first_segment_no_colon by apply toString_hex_no_colon.
    rewrite !from_hex_toString_hex. reflexivity.
  - intros Hj ->. unfold in_ciphertext, iv, valid.
    rewrite dechiffrer_join3
      by (try apply insert_no_colon; try apply toString_hex_no_colon; exact Hcolon).
    rewrite (from_hex_insert C j low b c' _ Hj Hc), set_nibble_same, (list_insert_id C j b Hj).
    rewrite envelope_join3, dechiffrer_join3 by apply toString_hex_no_colon.
    rewrite !from_hex_toString_hex. reflexivity.
  - intros i x. unfold iv.
    rewrite dechiffrer_join3 by apply toString_hex_no_colon.
    rewrite !from_hex_toString_hex.
    apply (decrypt_parts_any_tag (fresh_iv k) texte _ Hkey Hiv).
Qed.

(** A text that does not start with a hex digit is no envelope: its IV
    decodes to nothing. *)
Lemma dechiffrer_bad_iv (c : Z) (s : jsstring) :
  unhex c = None -> c <> colon -> exists err, dechiffrer (c :: s) = Throw err.
Proof.
  intros Hc Hcolon. unfold dechiffrer. cbn [split_on].
  destruct (Z.eqb_spec c colon) as [| _]; [contradiction |].
  assert (Hiv : forall seg, from_hex (c :: seg) = []).
  { intros [| d seg]; [reflexivity |]. cbn [from_hex]. rewrite Hc. reflexivity. }
  destruct (split_on colon s) as [| seg [| chiffreHex [| tagHex rest]]];
    cbn [lookup list_lookup Buffer_from_hex and_then]; eauto.
  all: rewrite Hiv; unfold create_aes_256_gcm;
    destruct (negb (length ENCRYPTION_KEY =? 32)%nat); cbn [and_then length Nat.eqb]; eauto.
Qed.

(** C6: with fewer than three colon-separated segments [dechiffrer] throws
    before any cryptography (the TypeError of [Buffer.from(undefined, 'hex')],
    the code's malformed-envelope failure) and returns no plaintext. *)
Theorem dechiffrer_malformed (texteChiffre : jsstring) :
  (length (split_on colon texteChiffre) < 3)%nat ->
  dechiffrer texteChiffre = Throw ERR_INVALID_ARG_TYPE.
Proof.
  intros Hlen. unfold dechiffrer.
  destruct (split_on colon texteChiffre) as [| a [| b [| c rest]]] eqn:Hsplit.
  - exfalso. exact (split_on_nonempty _ _ Hsplit).
  - reflexivity.
  - reflexivity.
  - cbn in Hlen. lia.
Qed.

(** *** The shape of an envelope *)

(** A hex digit as [toString('hex')] writes it: 0-9 or a-f. *)
Definition is_lower_hex (c : Z) : bool :=
  ((48 <=? c) && (c <=? 57)) || ((97 <=? c) && (c <=? 102)).

Lemma toString_hex_lower (buf : Buffer) :
  Forall (fun c => is_lower_hex c = true) (toString_hex buf).
Proof.
  unfold toString_hex. induction buf as [| b buf IH]; [constructor |].
  cbn [flat_map]. apply Forall_app. split; [| exact IH].
  destruct b; repeat (apply List.Forall_cons; [reflexivity |]); apply List.Forall_nil.
Qed.

Lemma toString_hex_take (buf : Buffer) (n : nat) :
  take (2 * n) (toString_hex buf) = toString_hex (take n buf).
Proof.
  revert buf. induction n as [| n IH]; intros buf; [reflexivity |].
  destruct buf as [| b buf]; [reflexivity |].
  replace (2 * S n)%nat with (S (S (2 * n))) by lia.
  change (toString_hex (b :: buf)) with (byte_hex b ++ toString_hex buf).
  change (toString_hex (take (S n) (b :: buf)))
    with (byte_hex b ++ toString_hex (take n buf)).
  cbn [byte_hex app take]. rewrite IH. reflexivity.
Qed.

Lemma toString_hex_inj (a b : Buffer) : toString_hex a = toString_hex b -> a = b.
Proof.
  intros Heq. apply (f_equal from_hex) in Heq.
  rewrite !from_hex_toString_hex in Heq. exact Heq.
Qed.

Lemma length_fresh_iv (k : Entropy) : length (fresh_iv k) = 16%nat.
Proof. reflexivity. Qed.

Lemma no_colon_check (s : jsstring) :
  forallb (fun c => negb (c =? colon)) s = true -> Forall (fun c => c <> colon) s.
Proof.
  intros Hall. rewrite List.Forall_forall. intros c Hc.
  rewrite forallb_forall in Hall. specialize (Hall c Hc).
  destruct (Z.eqb_spec c colon); [discriminate | assumption].
Qed.

(** X8: [chiffrer] returns three colon-separated segments of lowercase hex
    digits: the 16-byte IV (32 characters), the ciphertext, exactly as long
    as the UTF-8 encoding of the plaintext (two characters per byte, no
    padding), and the 16-byte tag (32 characters).  The call draws one IV
    from [crypto.randomBytes]. *)
Theorem chiffrer_format (texte : jsstring) (k : Entropy) :
  length ENCRYPTION_KEY = 32%nat ->
  exists ivHex chiffreHex tagHex,
    chiffrer texte k = (Ok (join3 ivHex chiffreHex tagHex), S k) /\
    split_on colon (join3 ivHex chiffreHex tagHex) = [ivHex; chiffreHex; tagHex] /\
    length ivHex = 32%nat /\
    length chiffreHex = (2 * length (utf8_encode texte))%nat /\
    length tagHex = 32%nat /\
    Forall (fun c => is_lower_hex c = true) (ivHex ++ chiffreHex ++ tagHex) /\
    from_hex ivHex = fresh_iv k.
Proof.
  intros Hkey.
  exists (toString_hex (fresh_iv k)), (toString_hex (fst (sealed (fresh_iv k) texte))),
    (toString_hex (snd (sealed (fresh_iv k) texte))).
  split; [rewrite (chiffrer_envelope texte k Hkey); reflexivity |].
  split; [apply split_envelope |].
  rewrite !toString_hex_length, length_fresh_iv.
  split; [reflexivity |].
  split; [unfold sealed, gcm_encrypt; cbn [fst]; rewrite length_gctr; reflexivity |].
  split; [reflexivity |].
  split; [| apply from_hex_toString_hex].
  rewrite !Forall_app. repeat split; apply toString_hex_lower.
Qed.

(** X9: [dechiffrer] reads the first three colon-separated segments and
    nothing else: whatever follows a third colon is ignored, so a text with
    more than three segments decrypts like its first three. *)
Theorem dechiffrer_ignores_trailing_segments (a b c rest : jsstring) :
  Forall (fun x => x <> colon) a ->
  Forall (fun x => x <> colon) b ->
  Forall (fun x => x <> colon) c ->
  dechiffrer (join3 a b c ++ colon :: rest) = dechiffrer (join3 a b c).
Proof.
  intros Ha Hb Hc.
  replace (join3 a b c ++ colon :: rest) with (join3 a b (c ++ colon :: rest))
    by (unfold join3; rewrite <- !app_assoc; reflexivity).
  rewrite !dechiffrer_join3 by assumption.
  rewrite (first_segment_no_colon c Hc).
  unfold first_segment. rewrite (split_on_segment colon c rest Hc). reflexivity.
Qed.

(** X10: [dechiffrer] takes the tag at whatever length it arrives.  A valid
    envelope whose tag segment is cut down to its first 4, 8, 12, 13, 14, 15
    or 16 bytes still decrypts to the plaintext; cut to any other length it
    is refused with the invalid-tag-length error. *)
Theorem dechiffrer_truncated_tag (texte : jsstring) (iv : Buffer) (n : nat) :
  length ENCRYPTION_KEY = 32%nat ->
  iv <> [] ->
  well_formed texte = true ->
  (n <= 16)%nat ->
  let truncated :=
    join3 (toString_hex iv) (toString_hex (fst (sealed iv texte)))
      (take (2 * n) (toString_hex (snd (sealed iv texte)))) in
  (In n [4; 8; 12; 13; 14; 15; 16]%nat -> dechiffrer truncated = Ok texte) /\
  (~ In n [4; 8; 12; 13; 14; 15; 16]%nat ->
     dechiffrer truncated = Throw ERR_CRYPTO_INVALID_AUTH_TAG).
Proof.
  intros Hkey Hiv Hwf Hn truncated. unfold truncated.
  rewrite toString_hex_take, dechiffrer_join3 by apply toString_hex_no_colon.
  rewrite first_segment_no_colon by apply toString_hex_no_colon.
  rewrite !from_hex_toString_hex.
  assert (Hlen : length (take n (snd (sealed iv texte))) = n).
  { rewrite length_take. unfold sealed, gcm_encrypt. cbn [snd].
    rewrite length_tag_of. lia. }
  unfold decrypt_parts, create_aes_256_gcm, setAuthTag. rewrite Hkey, Hlen.
  destruct iv as [| i0 iv]; [congruence |]. cbn [length Nat.eqb negb and_then].
  split.
  - intros Hin.
    assert (Hok : existsb (Nat.eqb n) [4; 8; 12; 13; 14; 15; 16]%nat = true).
    { apply existsb_exists. exists n. split; [exact Hin | apply Nat.eqb_refl]. }
    rewrite Hok. cbn [and_then].
    unfold gcm_decrypt. rewrite Hlen.
    unfold sealed, gcm_encrypt. cbn [fst snd].
    rewrite decide_True by reflexivity.
    rewrite gctr_involutive, app_nil_r. f_equal. apply utf8_decode_encode, Hwf.
  - intros Hout.
    assert (Hno : existsb (Nat.eqb n) [4; 8; 12; 13; 14; 15; 16]%nat = false).
    { destruct (existsb _ _) eqn:E; [| reflexivity].
      apply existsb_exists in E as (x & Hx & Heq).
      apply Nat.eqb_eq in Heq. subst x. contradiction. }
    rewrite Hno. reflexivity.
Qed.

(** X11: the envelope is determined by the key, the plaintext and the IV
    drawn.  Encrypting the same well-formed string twice gives two envelopes
    that both decrypt to it, and the two are equal exactly when
    [crypto.randomBytes] returned the same IV twice. *)
Theorem chiffrer_twice (s : jsstring) (k : Entropy) :
  length ENCRYPTION_KEY = 32%nat ->
  well_formed s = true ->
  exists e1 e2,
    chiffrer s k = (Ok e1, S k) /\
    chiffrer s (S k) = (Ok e2, S (S k)) /\
    dechiffrer e1 = Ok s /\ dechiffrer e2 = Ok s /\
    (e1 = e2 <-> fresh_iv k = fresh_iv (S k)).
Proof.
  intros Hkey Hwf.
  exists (envelope (fresh_iv k) s), (envelope (fresh_iv (S k)) s).
  rewrite !chiffrer_envelope by exact Hkey.
  rewrite !dechiffrer_envelope by (assumption || discriminate).
  rewrite (utf8_decode_encode s Hwf).
  do 4 (split; [reflexivity |]).
  split; [| intros ->; reflexivity].
  intros Heq. apply (f_equal first_segment) in Heq.
  unfold first_segment, envelope in Heq. rewrite !split_envelope in Heq.
  cbn [hd] in Heq. exact (toString_hex_inj _ _ Heq).
Qed.

End Key.

(** [scryptSync('votre_secret_jwt', 'sel', 32)], the key under the default
    secret of config.ts. *)
Definition example_key : Buffer :=
  AES.hex "d8c2bdf054a92a9e35dbe4c1ba0de1f77ce2af8c7ad88a94a7a7dbf0e92aceff".

Definition example_entropy (k j : nat) : Z := Z.of_nat (17 * k + 29 * j + 3).

Lemma dechiffrer_malformed_witness :
  dechiffrer example_key (lit "not-a-valid-envelope") = Throw ERR_INVALID_ARG_TYPE.
Proof.
  apply (dechiffrer_malformed example_key (lit "not-a-valid-envelope")).
  vm_compute. lia.
Defined.

(** The GHASH subkey under the example key, and its inverse. *)
Definition example_subkey : Z :=
  Eval vm_compute in hash_subkey (aes256 example_key).
Definition example_subkey_inverse : Z :=
  Eval vm_compute in ginv example_subkey.

Lemma example_subkey_injective : ghash_key_injective (hash_subkey (aes256 example_key)).
Proof.
  replace (hash_subkey (aes256 example_key)) with example_subkey
    by (vm_compute; reflexivity).
  apply (left_inverse_injective example_subkey example_subkey_inverse).
  vm_compute. reflexivity.
Qed.

Definition example_envelope : jsstring :=
  lit "03203d5a7794b1ceeb0825425f7c99b6:12a5b24f52f9635f4f0737:16df4f549cafbf6ccd7f028216017592".

(** C2, as stated, fails on a string with an unpaired surrogate: it comes
    back as U+FFFD. *)
Lemma dechiffrer_chiffrer_lone_surrogate :
  exists e,
    chiffrer example_key example_entropy [0xD800] 0%nat = (Ok e, 1%nat) /\
    dechiffrer example_key e = Ok [0xFFFD] /\
    [0xFFFD] <> [0xD800].
Proof.
  eexists. split; [vm_compute; reflexivity |].
  split; [vm_compute; reflexivity | discriminate].
Qed.

Lemma dechiffrer_chiffrer_witness :
  exists e,
    chiffrer example_key example_entropy [0x70; 0xE9; 0x3A; 0x20AC; 0xD83D; 0xDE00] 0%nat
      = (Ok e, 1%nat) /\
    dechiffrer example_key e = Ok [0x70; 0xE9; 0x3A; 0x20AC; 0xD83D; 0xDE00].
Proof.
  apply (dechiffrer_chiffrer example_key example_entropy
           [0x70; 0xE9; 0x3A; 0x20AC; 0xD83D; 0xDE00] 0%nat); reflexivity.
Defined.

(** C3, as stated, fails: a hex letter of the ciphertext or of the tag
    written in upper case is a changed character, and [dechiffrer] returns
    the plaintext as before. *)
Lemma tamper_undetected_case_change :
  fst (chiffrer example_key example_entropy (lit "s3cret:p@ss") 0%nat) = Ok example_envelope /\
  dechiffrer example_key
    (lit "03203d5a7794b1ceeb0825425f7c99b6:12A5b24f52f9635f4f0737:16df4f549cafbf6ccd7f028216017592")
    = Ok (lit "s3cret:p@ss") /\
  dechiffrer example_key
    (lit "03203d5a7794b1ceeb0825425f7c99b6:12a5b24f52f9635f4f0737:16Df4f549cafbf6ccd7f028216017592")
    = Ok (lit "s3cret:p@ss").
Proof. split; [| split]; vm_compute; reflexivity. Qed.

Lemma tamper_detection_witness :
  dechiffrer example_key
    (lit "03203d5a7794b1ceeb0825425f7c99b6:12a5b24f52f9635f4f0737:160f4f549cafbf6ccd7f028216017592")
    = Throw ERR_AUTHENTICATION /\
  dechiffrer example_key
    (lit "03203d5a7794b1ceeb0825425f7c99b6:1205b24f52f9635f4f0737:16df4f549cafbf6ccd7f028216017592")
    = Throw ERR_AUTHENTICATION.
Proof.
  split.
  - pose proof (tamper_detection example_key example_entropy (lit "s3cret:p@ss") 0%nat
                  1%nat false Init.Byte.xdf 48 0 eq_refl eq_refl) as H.
    cbv zeta in H. destruct H as (Htag & _).
    replace (lit "03203d5a7794b1ceeb0825425f7c99b6:12a5b24f52f9635f4f0737:160f4f549cafbf6ccd7f028216017592")
      with (join3 (toString_hex (fresh_iv example_entropy 0%nat))
              (toString_hex (fst (sealed example_key (fresh_iv example_entropy 0%nat)
                                    (lit "s3cret:p@ss"))))
              (<[hex_index 1 false := 48]>
                 (toString_hex (snd (sealed example_key (fresh_iv example_entropy 0%nat)
                                       (lit "s3cret:p@ss"))))))
      by (vm_compute; reflexivity).
    apply Htag; [vm_compute; reflexivity | vm_compute; discriminate].
  - pose proof (tamper_detection example_key example_entropy (lit "s3cret:p@ss") 0%nat
                  1%nat false Init.Byte.xa5 48 0 eq_refl eq_refl) as H.
    cbv zeta in H. destruct H as (_ & Hct & _).
    replace (lit "03203d5a7794b1ceeb0825425f7c99b6:1205b24f52f9635f4f0737:16df4f549cafbf6ccd7f028216017592")
      with (join3 (toString_hex (fresh_iv example_entropy 0%nat))
              (<[hex_index 1 false := 48]>
                 (toString_hex (fst (sealed example_key (fresh_iv example_entropy 0%nat)
                                       (lit "s3cret:p@ss")))))
              (toString_hex (snd (sealed example_key (fresh_iv example_entropy 0%nat)
                                    (lit "s3cret:p@ss")))))
      by (vm_compute; reflexivity).
    apply Hct; [vm_compute; reflexivity | vm_compute; discriminate
               | exact example_subkey_injective].
Defined.

Lemma chiffrer_format_witness :
  exists ivHex chiffreHex tagHex,
    chiffrer example_key example_entropy (lit "s3cret:p@ss") 0%nat
      = (Ok (join3 ivHex chiffreHex tagHex), 1%nat) /\
    split_on colon (join3 ivHex chiffreHex tagHex) = [ivHex; chiffreHex; tagHex] /\
    length ivHex = 32%nat /\
    length chiffreHex = (2 * length (utf8_encode (lit "s3cret:p@ss")))%nat /\
    length tagHex = 32%nat /\
    Forall (fun c => is_lower_hex c = true) (ivHex ++ chiffreHex ++ tagHex) /\
    from_hex ivHex = fresh_iv example_entropy 0%nat.
Proof.
  apply (chiffrer_format example_key example_entropy (lit "s3cret:p@ss") 0%nat).
  reflexivity.
Defined.

Lemma dechiffrer_ignores_trailing_segments_witness :
  dechiffrer example_key
    (join3 (lit "03203d5a7794b1ceeb0825425f7c99b6") (lit "12a5b24f52f9635f4f0737")
       (lit "16df4f549cafbf6ccd7f028216017592") ++ colon :: lit "anything:else")
  = dechiffrer example_key
      (join3 (lit "03203d5a7794b1ceeb0825425f7c99b6") (lit "12a5b24f52f9635f4f0737")
         (lit "16df4f549cafbf6ccd7f028216017592")).
Proof.
  apply (dechiffrer_ignores_trailing_segments example_key);
    apply no_colon_check; reflexivity.
Defined.

Lemma dechiffrer_truncated_tag_witness :
  dechiffrer example_key
    (join3 (toString_hex (fresh_iv example_entropy 0%nat))
       (toString_hex (fst (sealed example_key (fresh_iv example_entropy 0%nat)
                             (lit "s3cret:p@ss"))))
       (take (2 * 4)
          (toString_hex (snd (sealed example_key (fresh_iv example_entropy 0%nat)
                                (lit "s3cret:p@ss"))))))
  = Ok (lit "s3cret:p@ss").
Proof.
  refine (proj1 (dechiffrer_truncated_tag example_key (lit "s3cret:p@ss")
                   (fresh_iv example_entropy 0%nat) 4%nat eq_refl _ eq_refl _) _).
  - discriminate.
  - lia.
  - left. reflexivity.
Defined.

Lemma chiffrer_twice_witness :
  exists e1 e2,
    chiffrer example_key example_entropy (lit "s3cret:p@ss") 0%nat = (Ok e1, 1%nat) /\
    chiffrer example_key example_entropy (lit "s3cret:p@ss") 1%nat = (Ok e2, 2%nat) /\
    dechiffrer example_key e1 = Ok (lit "s3cret:p@ss") /\
    dechiffrer example_key e2 = Ok (lit "s3cret:p@ss") /\
    (e1 = e2 <-> fresh_iv example_entropy 0%nat = fresh_iv example_entropy 1%nat).
Proof.
  apply (chiffrer_twice example_key example_entropy (lit "s3cret:p@ss") 0%nat);
    reflexivity.
Defined.

(** The same envelope with its tag cut to four bytes. *)
Example truncated_tag_example :
  dechiffrer example_key
    (lit "03203d5a7794b1ceeb0825425f7c99b6:12a5b24f52f9635f4f0737:16df4f54")
  = Ok (lit "s3cret:p@ss").
Proof. vm_compute. reflexivity. Qed.

Example chiffrer_example :
  fst (chiffrer example_key example_entropy (lit "s3cret:p@ss") 0%nat)
  = Ok (lit "03203d5a7794b1ceeb0825425f7c99b6:12a5b24f52f9635f4f0737:16df4f549cafbf6ccd7f028216017592").
Proof. vm_compute. reflexivity. Qed.

End Codec.

(** ** The vault over HTTP: middleware/auth.js and routes/motsDePasse.js *)

Module Vault.
Import Buf.

(** A value of a parsed JSON body. *)
Inductive JsVal :=
| JUndefined
| JNull
| JBool (b : bool)
| JNum (n : Z)
| JStr (s : jsstring).

#[export] Instance JsVal_inhabited : Inhabited JsVal := populate JUndefined.

Definition truthy (v : JsVal) : bool :=
  match v with
  | JUndefined | JNull => false
  | JBool b => b
  | JNum n => negb (n =? 0)
  | JStr s => negb (length s =? 0)%nat
  end.

Inductive Langue := fr | en.

(** [req.langue === 'fr' ? a : b] *)
Definition localise (l : Langue) (a b : string) : string :=
  match l with fr => a | en => b end.

(** The payload [jwt.verify] decodes. *)
Record Payload := { payload_id : Z }.

Record Body := {
  pin : JsVal;
  siteWeb : JsVal;
  identifiant : JsVal;
  motDePasse : JsVal;
  notes : JsVal
}.

Record Req := {
  authorization : option jsstring;
  langue : Langue;
  params_id : jsstring;
  body : Body;
  utilisateur : option Payload;
  erreurs_validation : list (string * string)
}.

(** The JSON sent back: [message], [erreurs], and [motDePasse] or
    [motsDePasse] where the route sends them. *)
Record Response := {
  status : Z;
  message : string;
  erreurs : list string;
  motDePasseJson : option (gmap string JsVal);
  motsDePasseJson : list (gmap string JsVal)
}.

Definition reply (code : Z) (msg : string) : Response :=
  {| status := code; message := msg; erreurs := [];
     motDePasseJson := None; motsDePasseJson := [] |}.

Definition reply_with (code : Z) (msg : string) (row : gmap string JsVal) : Response :=
  {| status := code; message := msg; erreurs := [];
     motDePasseJson := Some row; motsDePasseJson := [] |}.

(** A middleware either calls [next()] or ends the request. *)
Inductive Step :=
| Next (req : Req)
| Respond (res : Response).

Record Session := { s_utilisateur_id : Z; s_token : jsstring; s_expire_le : Z }.

Record Utilisateur := { code_pin_hash : jsstring }.

(** A row of [mots_de_passe_stockes]. *)
Record Stocke := {
  st_id : Z;
  st_utilisateur_id : Z;
  st_site_web : JsVal;
  st_identifiant : JsVal;
  st_mot_de_passe_crypte : jsstring;
  st_notes : JsVal;
  st_cree_le : Z;
  st_modifie_le : Z
}.

Inductive Event :=
| QuerySessions
| QueryUtilisateurs
| QueryStore (statement : string)
| CodecChiffrer
| CodecDechiffrer
| ConsoleError (text : string)
| LogService (event : string).

Record World := {
  sessions : list Session;
  utilisateurs : gmap Z Utilisateur;
  mots_de_passe_stockes : gmap Z Stocke;
  mots_de_passe_stockes_id_seq : Z;
  NOW : Z;
  randomBytes_calls : nat;
  trace : list Event
}.

Definition emit (e : Event) : M World unit :=
  modify (fun w =>
    {| sessions := sessions w; utilisateurs := utilisateurs w;
       mots_de_passe_stockes := mots_de_passe_stockes w;
       mots_de_passe_stockes_id_seq := mots_de_passe_stockes_id_seq w;
       NOW := NOW w; randomBytes_calls := randomBytes_calls w;
       trace := trace w ++ [e] |}).

Definition set_store (t : gmap Z Stocke) (seq : Z) : M World unit :=
  modify (fun w =>
    {| sessions := sessions w; utilisateurs := utilisateurs w;
       mots_de_passe_stockes := t; mots_de_passe_stockes_id_seq := seq;
       NOW := NOW w; randomBytes_calls := randomBytes_calls w;
       trace := trace w |}).

Definition set_randomBytes_calls (n : nat) : M World unit :=
  modify (fun w =>
    {| sessions := sessions w; utilisateurs := utilisateurs w;
       mots_de_passe_stockes := mots_de_passe_stockes w;
       mots_de_passe_stockes_id_seq := mots_de_passe_stockes_id_seq w;
       NOW := NOW w; randomBytes_calls := n; trace := trace w |}).

(** The events that reach the credential store or the codec. *)
Definition touches_vault (e : Event) : bool :=
  match e with
  | QueryStore _ | CodecChiffrer | CodecDechiffrer => true
  | _ => false
  end.

Definition jsstring_eqb (a b : jsstring) : bool := bool_decide (a = b).

(** *** middleware/auth.js *)

(** The names bound in the module: its four [require]s, [deviceDetector],
    the middlewares it defines, and the CommonJS wrapper's. *)
Definition auth_scope : list string :=
  ["jwt"; "config"; "db"; "DeviceDetector"; "geoip"; "deviceDetector";
   "verifierToken"; "verifierAdmin"; "verifierPin"; "collecterInfoUtilisateur";
   "module"; "exports"; "require"].

(** Evaluating an identifier: a name bound nowhere is a ReferenceError. *)
Definition resolve (scope : list string) (name : string) : M World unit :=
  if bool_decide (name ∈ scope) then ret tt else throw (ReferenceError name).

Section Libraries.

(** [jwt.verify(token, config.JWT_SECRET)]: the payload, or the error thrown
    for a token that is malformed, wrongly signed or expired. *)
Variable jwt_verify : jsstring -> Res Payload.

(** [bcrypt.compare(data, hash)] of the bcrypt library. *)
Variable bcrypt_compare : JsVal -> jsstring -> bool.

(** The key and the randomness of the codec. *)
Variable ENCRYPTION_KEY : Buffer.
Variable entropy : nat -> nat -> Z.

(** [ORDER BY site_web ASC] on the rows selected, as the collation of the
    database orders them. *)
Variable order_by_site_web : list Stocke -> list Stocke.

(** Ordering neither drops nor adds a row. *)
Definition ordering_permutes : Prop :=
  forall rows, Permutation (order_by_site_web rows) rows.

(** [req.headers.authorization?.split(' ')[1]] *)
Definition bearer_token (req : Req) : option jsstring :=
  match authorization req with
  | Some h => split_on 32 h !! 1%nat
  | None => None
  end.

Definition token_truthy (t : option jsstring) : bool :=
  match t with
  | Some (_ :: _) => true
  | _ => false
  end.

(** [SELECT * FROM sessions WHERE utilisateur_id = $1 AND token = $2 AND
    expire_le > NOW()] *)
Definition select_sessions (uid : Z) (token : jsstring) : M World (list Session) :=
  do emit QuerySessions then
  let* w := get in
  ret (List.filter (fun s => (s_utilisateur_id s =? uid) && jsstring_eqb (s_token s) token
                             && (NOW w <? s_expire_le s)) (sessions w)).

Definition with_utilisateur (req : Req) (p : Payload) : Req :=
  {| authorization := authorization req; langue := langue req;
     params_id := params_id req; body := body req; utilisateur := Some p;
     erreurs_validation := erreurs_validation req |}.

Definition verifierToken (req : Req) : M World Step :=
  try_catch
    (let token := bearer_token req in
     if negb (token_truthy token) then
       ret (Respond (reply 401 (localise (langue req) "Token non fourni" "No token provided")))
     else
       let token := default [] token in
       let* decoded := Codec.lift (jwt_verify token) in
       let req := with_utilisateur req decoded in
       let* session := select_sessions (payload_id decoded) token in
       if (length session =? 0)%nat then
         ret (Respond (reply 401 (localise (langue req) "Session expirée" "Session expired")))
       else ret (Next req))
    (fun error =>
       ret (Respond (reply 401 (localise (langue req) "Token invalide" "Invalid token")))).

(** [SELECT code_pin_hash FROM utilisateurs WHERE id = $1] *)
Definition select_code_pin_hash (uid : Z) : M World (list Utilisateur) :=
  do emit QueryUtilisateurs then
  let* w := get in
  ret (match utilisateurs w !! uid with Some u => [u] | None => [] end).

Definition verifierPin (req : Req) : M World Step :=
  try_catch
    (let pin := pin (body req) in
     let* utilisateurId :=
       match utilisateur req with
       | Some p => ret (payload_id p)
       | None => throw (TypeError "Cannot read properties of undefined")
       end in
     if negb (truthy pin) then
       ret (Respond (reply 400 (localise (langue req) "Code PIN requis" "PIN required")))
     else
       let* rows := select_code_pin_hash utilisateurId in
       do resolve auth_scope "bcrypt" then
       let* row :=
         match rows with
         | u :: _ => ret u
         | [] => throw (TypeError "Cannot read properties of undefined")
         end in
       let isValidPin := bcrypt_compare pin (code_pin_hash row) in
       if negb isValidPin then
         ret (Respond (reply 401 (localise (langue req) "Code PIN invalide" "Invalid PIN")))
       else ret (Next req))
    (fun error =>
       ret (Respond (reply 500 (localise (langue req)
                                  "Erreur lors de la vérification du PIN"
                                  "Error verifying PIN")))).

(** *** routes/motsDePasse.js *)

(** express-validator's [notEmpty()]: the value, as a string, is not ''. *)
Definition notEmpty (v : JsVal) : bool :=
  match v with
  | JUndefined | JNull => false
  | JStr s => negb (length s =? 0)%nat
  | _ => true
  end.

Definition validationMotDePasse (req : Req) : M World Step :=
  let check (v : JsVal) (m : string * string) := if notEmpty v then [] else [m] in
  ret (Next
    {| authorization := authorization req; langue := langue req;
       params_id := params_id req; body := body req; utilisateur := utilisateur req;
       erreurs_validation :=
         erreurs_validation req
         ++ check (siteWeb (body req)) ("Le site web est requis", "Website is required")
         ++ check (identifiant (body req)) ("L'identifiant est requis", "Username is required")
         ++ check (motDePasse (body req))
              ("Le mot de passe est requis", "Password is required") |}).

Definition validation_reply (req : Req) : Response :=
  {| status := 400; message := "";
     erreurs := map (fun m => localise (langue req) (fst m) (snd m)) (erreurs_validation req);
     motDePasseJson := None; motsDePasseJson := [] |}.

(** [chiffrer] on what is not a string: the IV is drawn and the cipher made,
    then [cipher.update(texte, 'utf8')] refuses the argument. *)
Definition chiffrer_non_string : M Codec.Entropy jsstring :=
  let* iv := Codec.randomBytes entropy Codec.IV_LENGTH in
  let* cipher := Codec.lift (Codec.create_aes_256_gcm ENCRYPTION_KEY iv) in
  throw Codec.ERR_INVALID_ARG_TYPE.

(** [chiffrer(motDePasse)] *)
Definition chiffrer (v : JsVal) : M World jsstring :=
  do emit CodecChiffrer then
  let* w := get in
  match
    match v with
    | JStr texte => Codec.chiffrer ENCRYPTION_KEY entropy texte
    | _ => chiffrer_non_string
    end (randomBytes_calls w)
  with
  | (Ok e, n) => do set_randomBytes_calls n then ret e
  | (Throw err, n) => do set_randomBytes_calls n then throw err
  end.

Definition dechiffrer (texteChiffre : jsstring) : M World jsstring :=
  do emit CodecDechiffrer then
  Codec.lift (Codec.dechiffrer ENCRYPTION_KEY texteChiffre).

Definition is_digit (c : Z) : bool := (48 <=? c) && (c <=? 57).

(** White space, as [isspace] of C has it. *)
Definition is_space (c : Z) : bool := (c =? 32) || ((9 <=? c) && (c <=? 13)).

Fixpoint skip_spaces (s : jsstring) : jsstring :=
  match s with
  | c :: s' => if is_space c then skip_spaces s' else s
  | [] => []
  end.

(** How PostgreSQL reads an [integer] parameter sent as text: white space
    around it apart, an optional sign and decimal digits, within 32 bits.
    (From version 16 on it reads the prefixes 0x, 0o and 0b and underscores
    between digits as well; the properties below are about ids that this
    function reads.) *)
Definition parse_int4 (s : jsstring) : option Z :=
  let s := rev (skip_spaces (rev (skip_spaces s))) in
  let digits := match s with
                | 45 :: d | 43 :: d => d
                | d => d
                end in
  let negative := match s with 45 :: _ => true | _ => false end in
  if negb (length digits =? 0)%nat && forallb is_digit digits then
    let n := fold_left (fun acc c => acc * 10 + (c - 48)) digits 0 in
    let n := if negative then - n else n in
    if (- 2 ^ 31 <=? n) && (n <? 2 ^ 31) then Some n else None
  else None.

(** [req.utilisateur.id] *)
Definition utilisateur_id_of (req : Req) : M World Z :=
  match utilisateur req with
  | Some p => ret (payload_id p)
  | None => throw (TypeError "Cannot read properties of undefined")
  end.

(** The decimal digits of a natural number before [acc]; [fuel] bounds
    their number. *)
Fixpoint decimal (fuel : nat) (n : Z) (acc : jsstring) : jsstring :=
  match fuel with
  | O => acc
  | S fuel' =>
      let acc := (48 + n mod 10) :: acc in
      if n <? 10 then acc else decimal fuel' (n / 10) acc
  end.

(** [String(n)] of an integer: JS prints an integer below [10^21] in
    absolute value with its sign and decimal digits. *)
Definition Number_toString (n : Z) : jsstring :=
  if n <? 0 then 45 :: decimal (S (Z.to_nat (Z.log2 (- n)))) (- n) []
  else decimal (S (Z.to_nat (Z.log2 n))) n [].

(** A parameter of a text column ([site_web], [identifiant], [notes]) as
    node-postgres sends it and the column gives it back: [undefined] and
    [null] are NULL, a number or a boolean is its [toString()], a string is
    its UTF-8 text, in which an unpaired surrogate is written as U+FFFD. *)
Definition sql_param (v : JsVal) : JsVal :=
  match v with
  | JUndefined | JNull => JNull
  | JBool b => JStr (if b then lit "true" else lit "false")
  | JNum n => JStr (Number_toString n)
  | JStr s => JStr (utf8_decode (utf8_encode s))
  end.

Definition insert_stocke (uid : Z) (site ident : JsVal) (crypte : jsstring) (n : JsVal)
  : M World Stocke :=
  do emit (QueryStore "INSERT INTO mots_de_passe_stockes") then
  let* w := get in
  let i := mots_de_passe_stockes_id_seq w in
  match mots_de_passe_stockes w !! i with
  | Some _ => throw (DatabaseError "duplicate key")
  | None =>
      let r := {| st_id := i; st_utilisateur_id := uid; st_site_web := sql_param site;
                  st_identifiant := sql_param ident; st_mot_de_passe_crypte := crypte;
                  st_notes := sql_param n; st_cree_le := NOW w; st_modifie_le := NOW w |} in
      do set_store (<[i := r]> (mots_de_passe_stockes w)) (i + 1) then
      ret r
  end.

(** The rows [WHERE id = $1 AND utilisateur_id = $2] selects. *)
Definition where_id_owner (w : World) (i u : Z) : list Stocke :=
  match mots_de_passe_stockes w !! i with
  | Some r => if st_utilisateur_id r =? u then [r] else []
  | None => []
  end.

Definition select_stocke (id_text : jsstring) (u : Z) : M World (list Stocke) :=
  do emit (QueryStore "SELECT * FROM mots_de_passe_stockes") then
  match parse_int4 id_text with
  | Some i => let* w := get in ret (where_id_owner w i u)
  | None => throw (DatabaseError "invalid input syntax for type integer")
  end.

Definition update_stocke (id_text : jsstring) (u : Z) (site ident : JsVal)
    (crypte : jsstring) (n : JsVal) : M World (list Stocke) :=
  do emit (QueryStore "UPDATE mots_de_passe_stockes") then
  match parse_int4 id_text with
  | Some i =>
      let* w := get in
      match where_id_owner w i u with
      | [] => ret []
      | r :: _ =>
          let r' := {| st_id := st_id r; st_utilisateur_id := st_utilisateur_id r;
                       st_site_web := sql_param site; st_identifiant := sql_param ident;
                       st_mot_de_passe_crypte := crypte; st_notes := sql_param n;
                       st_cree_le := st_cree_le r; st_modifie_le := NOW w |} in
          do set_store (<[i := r']> (mots_de_passe_stockes w))
               (mots_de_passe_stockes_id_seq w) then
          ret [r']
      end
  | None => throw (DatabaseError "invalid input syntax for type integer")
  end.

Definition delete_stocke (id_text : jsstring) (u : Z) : M World (list Stocke) :=
  do emit (QueryStore "DELETE FROM mots_de_passe_stockes") then
  match parse_int4 id_text with
  | Some i =>
      let* w := get in
      match where_id_owner w i u with
      | [] => ret []
      | r :: _ =>
          do set_store (delete i (mots_de_passe_stockes w))
               (mots_de_passe_stockes_id_seq w) then
          ret [r]
      end
  | None => throw (DatabaseError "invalid input syntax for type integer")
  end.

(** The records of a user: the table restricted to [utilisateur_id = u]. *)
Definition records_of (w : World) (u : Z) : gmap Z Stocke :=
  filter (fun ir => st_utilisateur_id ir.2 = u) (mots_de_passe_stockes w).

(** The rows [WHERE utilisateur_id = $1] selects: one per record. *)
Definition where_owner (w : World) (u : Z) : list Stocke :=
  (map_to_list (records_of w u)).*2.

(** The rows of a user, for the listing: [SELECT ... WHERE utilisateur_id =
    $1 ORDER BY site_web ASC]. *)
Definition select_by_owner (u : Z) : M World (list Stocke) :=
  do emit (QueryStore "SELECT id, site_web FROM mots_de_passe_stockes") then
  let* w := get in
  ret (order_by_site_web (where_owner w u)).

(** [SELECT *]: the row as the JS object node-postgres builds. *)
Definition row_object (r : Stocke) : gmap string JsVal :=
  <["id" := JNum (st_id r)]>
  (<["utilisateur_id" := JNum (st_utilisateur_id r)]>
  (<["site_web" := st_site_web r]>
  (<["identifiant" := st_identifiant r]>
  (<["mot_de_passe_crypte" := JStr (st_mot_de_passe_crypte r)]>
  (<["notes" := st_notes r]>
  (<["cree_le" := JNum (st_cree_le r)]>
  (<["modifie_le" := JNum (st_modifie_le r)]> ∅))))))).

(** [RETURNING id, site_web, identifiant, notes] and one timestamp. *)
Definition returning (r : Stocke) (stamp : string) (t : Z) : gmap string JsVal :=
  <["id" := JNum (st_id r)]>
  (<["site_web" := st_site_web r]>
  (<["identifiant" := st_identifiant r]>
  (<["notes" := st_notes r]>
  (<[stamp := JNum t]> ∅)))).

Definition listing (r : Stocke) : gmap string JsVal :=
  delete "utilisateur_id" (delete "mot_de_passe_crypte" (row_object r)).

Definition console_error (text : string) : M World unit := emit (ConsoleError text).

(** [router.post('/')], the handler after the middlewares. *)
Definition ajouter (req : Req) : M World Response :=
  if negb (length (erreurs_validation req) =? 0)%nat then ret (validation_reply req)
  else
    try_catch
      (let* motDePasseChiffre := chiffrer (motDePasse (body req)) in
       let* uid := utilisateur_id_of req in
       let* r := insert_stocke uid (siteWeb (body req)) (identifiant (body req))
                   motDePasseChiffre (notes (body req)) in
       ret (reply_with 201
              (localise (langue req) "Mot de passe ajouté avec succès"
                 "Password added successfully")
              (returning r "cree_le" (st_cree_le r))))
      (fun error =>
         do console_error "Erreur lors de l'ajout du mot de passe:" then
         ret (reply 500 (localise (langue req) "Erreur lors de l'ajout du mot de passe"
                           "Error adding password"))).

(** [router.get('/')] *)
Definition lister (req : Req) : M World Response :=
  try_catch
    (let* uid := utilisateur_id_of req in
     let* rows := select_by_owner uid in
     ret {| status := 200;
            message := localise (langue req) "Mots de passe récupérés avec succès"
                         "Passwords retrieved successfully";
            erreurs := []; motDePasseJson := None;
            motsDePasseJson := map listing rows |})
    (fun error =>
       do console_error "Erreur lors de la récupération des mots de passe:" then
       ret (reply 500 (localise (langue req)
                         "Erreur lors de la récupération des mots de passe"
                         "Error retrieving passwords"))).

Definition msg_non_trouve (req : Req) : string :=
  localise (langue req) "Mot de passe non trouvé" "Password not found".

(** [router.get('/:id')] *)
Definition reveler (req : Req) : M World Response :=
  try_catch
    (let* uid := utilisateur_id_of req in
     let* rows := select_stocke (params_id req) uid in
     match rows with
     | [] => ret (reply 404 (msg_non_trouve req))
     | r :: _ =>
         let* motDePasseDechiffre := dechiffrer (st_mot_de_passe_crypte r) in
         let row := <["mot_de_passe" := JStr motDePasseDechiffre]> (row_object r) in
         let row := delete "mot_de_passe_crypte" row in
         ret (reply_with 200
                (localise (langue req) "Mot de passe récupéré avec succès"
                   "Password retrieved successfully") row)
     end)
    (fun error =>
       do console_error "Erreur lors de la récupération du mot de passe:" then
       ret (reply 500 (localise (langue req)
                         "Erreur lors de la récupération du mot de passe"
                         "Error retrieving password"))).

(** [router.put('/:id')] *)
Definition modifier (req : Req) : M World Response :=
  if negb (length (erreurs_validation req) =? 0)%nat then ret (validation_reply req)
  else
    try_catch
      (let* motDePasseChiffre := chiffrer (motDePasse (body req)) in
       let* uid := utilisateur_id_of req in
       let* rows := update_stocke (params_id req) uid (siteWeb (body req))
                      (identifiant (body req)) motDePasseChiffre (notes (body req)) in
       match rows with
       | [] => ret (reply 404 (msg_non_trouve req))
       | r :: _ =>
           ret (reply_with 200
                  (localise (langue req) "Mot de passe modifié avec succès"
                     "Password updated successfully")
                  (returning r "modifie_le" (st_modifie_le r)))
       end)
      (fun error =>
         do console_error "Erreur lors de la modification du mot de passe:" then
         ret (reply 500 (localise (langue req)
                           "Erreur lors de la modification du mot de passe"
                           "Error updating password"))).

(** [router.delete('/:id')] *)
Definition supprimer (req : Req) : M World Response :=
  try_catch
    (let* uid := utilisateur_id_of req in
     let* rows := delete_stocke (params_id req) uid in
     match rows with
     | [] => ret (reply 404 (msg_non_trouve req))
     | _ :: _ =>
         ret (reply 200 (localise (langue req) "Mot de passe supprimé avec succès"
                           "Password deleted successfully"))
     end)
    (fun error =>
       do console_error "Erreur lors de la suppression du mot de passe:" then
       ret (reply 500 (localise (langue req)
                         "Erreur lors de la suppression du mot de passe"
                         "Error deleting password"))).

(** [router.post('/verifier-fuite')]: [estCompromis] is the constant false. *)
Definition verifier_fuite (req : Req) : M World Response :=
  ret (reply 200 (localise (langue req)
                    "Aucune fuite de données détectée pour ce mot de passe"
                    "No data breaches detected for this password")).

Definition terminal (h : Req -> M World Response) (req : Req) : M World Step :=
  let* res := h req in ret (Respond res).

Inductive Method := GET | POST | PUT | DELETE.

(** A path of the router: '/', '/verifier-fuite' or '/:id'. *)
Inductive Pattern := Root | VerifierFuite | Id.

Record Route := {
  method : Method;
  pattern : Pattern;
  chain : list (Req -> M World Step)
}.

(** The routes, in the order the file registers them. *)
Definition router : list Route :=
  [ {| method := POST; pattern := Root;
       chain := [verifierToken; verifierPin; validationMotDePasse; terminal ajouter] |};
    {| method := GET; pattern := Root; chain := [verifierToken; terminal lister] |};
    {| method := GET; pattern := Id;
       chain := [verifierToken; verifierPin; terminal reveler] |};
    {| method := PUT; pattern := Id;
       chain := [verifierToken; verifierPin; validationMotDePasse; terminal modifier] |};
    {| method := DELETE; pattern := Id;
       chain := [verifierToken; verifierPin; terminal supprimer] |};
    {| method := POST; pattern := VerifierFuite;
       chain := [verifierToken; terminal verifier_fuite] |} ].

(** Express runs the middlewares of a route in order until one does not
    call [next()]; a chain that runs out answers 404. *)
Fixpoint run (ms : list (Req -> M World Step)) (req : Req) : M World Response :=
  match ms with
  | [] => ret (reply 404 "Cannot find route")
  | m :: ms' =>
      let* s := m req in
      match s with
      | Next req' => run ms' req'
      | Respond res => ret res
      end
  end.

(** The session check of [verifierToken] passes: a token is present, it
    verifies, and an unexpired session row carries it. *)
Definition session_valid (req : Req) (w : World) : bool :=
  match bearer_token req with
  | Some (c :: t) =>
      match jwt_verify (c :: t) with
      | Ok p =>
          existsb (fun s => (s_utilisateur_id s =? payload_id p)
                            && jsstring_eqb (s_token s) (c :: t)
                            && (NOW w <? s_expire_le s)) (sessions w)
      | Throw _ => false
      end
  | _ => false
  end.

(** *** The gate *)

(** Between two worlds, neither the credential store nor the codec was
    reached. *)
Definition vault_untouched (w w' : World) : Prop :=
  mots_de_passe_stockes w' = mots_de_passe_stockes w /\
  mots_de_passe_stockes_id_seq w' = mots_de_passe_stockes_id_seq w /\
  randomBytes_calls w' = randomBytes_calls w /\
  exists evs, trace w' = trace w ++ evs /\ Forall (fun e => touches_vault e = false) evs.

Lemma vault_untouched_refl (w : World) : vault_untouched w w.
Proof.
  repeat split. exists []. rewrite app_nil_r. split; [reflexivity | constructor].
Qed.

Lemma filter_length_existsb {A} (f : A -> bool) (l : list A) :
  (length (List.filter f l) =? 0)%nat = negb (existsb f l).
Proof.
  induction l as [| x l IH]; [reflexivity |].
  cbn [List.filter existsb]. destruct (f x); [reflexivity | exact IH].
Qed.

Ltac run_gate :=
  cbv [verifierToken verifierPin try_catch bind select_sessions select_code_pin_hash
       resolve Codec.lift emit modify get ret throw];
  cbn [sessions utilisateurs mots_de_passe_stockes mots_de_passe_stockes_id_seq NOW
       randomBytes_calls trace].

(** Without a valid session [verifierToken] answers 401 and calls nothing
    of the vault. *)
Lemma verifierToken_rejects (req : Req) (w : World) :
  session_valid req w = false ->
  exists msg w',
    verifierToken req w = (Ok (Respond (reply 401 msg)), w') /\ vault_untouched w w'.
Proof.
  unfold session_valid. intros Hinvalid. run_gate.
  destruct (bearer_token req) as [[| c t] |]; cbn [token_truthy negb from_option id];
    try (eexists _, w; split; [reflexivity | apply vault_untouched_refl]).
  destruct (jwt_verify (c :: t)) as [p | err];
    [| eexists _, w; split; [reflexivity | apply vault_untouched_refl]].
  rewrite filter_length_existsb, Hinvalid. cbn [negb].
  eexists _, _. split; [reflexivity |].
  repeat split. exists [QuerySessions]. split; [reflexivity | repeat constructor].
Qed.

(** With a valid session it calls [next()], the user bound to the request. *)
Lemma verifierToken_accepts (req : Req) (w : World) :
  session_valid req w = true ->
  exists p w',
    verifierToken req w = (Ok (Next (with_utilisateur req p)), w') /\ vault_untouched w w'.
Proof.
  unfold session_valid. intros Hvalid. run_gate.
  destruct (bearer_token req) as [[| c t] |]; try discriminate.
  cbn [token_truthy negb from_option id].
  destruct (jwt_verify (c :: t)) as [p | err]; [| discriminate].
  rewrite filter_length_existsb, Hvalid. cbn [negb].
  eexists _, _. split; [reflexivity |].
  repeat split. exists [QuerySessions]. split; [reflexivity | repeat constructor].
Qed.

(** C5: on every route of the vault, a request whose session token is
    missing, invalid or expired is answered 401 by the session check, and
    neither the credential store nor the codec is reached, whatever PIN the
    body carries. *)
Theorem gate_ordering (route : Route) (req : Req) (w : World) :
  In route router ->
  session_valid req w = false ->
  exists res w',
    run (chain route) req w = (Ok res, w') /\
    status res = 401 /\
    vault_untouched w w'.
Proof.
  intros Hroute Hinvalid.
  destruct (verifierToken_rejects req w Hinvalid) as (msg & w' & Hrun & Hclean).
  exists (reply 401 msg), w'.
  assert (Hhead : exists rest, chain route = verifierToken :: rest).
  { cbn in Hroute.
    destruct Hroute as [<- | [<- | [<- | [<- | [<- | [<- | []]]]]]]; eexists; reflexivity. }
  destruct Hhead as [rest ->].
  cbn [run]. unfold bind at 1. rewrite Hrun.
  split; [reflexivity | split; [reflexivity | exact Hclean]].
Qed.

(** What [verifierPin] does with a PIN that is not falsy: the lookup of the
    unbound name [bcrypt] throws, and the catch block answers 500.  It never
    answers 401 and never calls [next()]. *)
Lemma verifierPin_answers_500 (req : Req) (w : World) :
  truthy (pin (body req)) = true ->
  exists w',
    verifierPin req w
    = (Ok (Respond (reply 500 (localise (langue req)
                                 "Erreur lors de la vérification du PIN"
                                 "Error verifying PIN"))), w') /\
    vault_untouched w w'.
Proof.
  intros Hpin. run_gate.
  destruct (utilisateur req) as [p |];
    [| eexists; split; [reflexivity | apply vault_untouched_refl]].
  rewrite Hpin. cbn [negb].
  eexists. split; [vm_compute; reflexivity |].
  repeat split. exists [QueryUtilisateurs]. split; [reflexivity | repeat constructor].
Qed.

Lemma verifierPin_never_passes (req : Req) (w : World) :
  exists res w', verifierPin req w = (Ok (Respond res), w') /\
                 (status res = 400 \/ status res = 500).
Proof.
  destruct (truthy (pin (body req))) eqn:Hpin.
  - destruct (verifierPin_answers_500 req w Hpin) as (w' & Hrun & _).
    eexists _, w'. split; [exact Hrun | right; reflexivity].
  - run_gate. destruct (utilisateur req) as [p |].
    + rewrite Hpin. eexists _, _. split; [reflexivity | left; reflexivity].
    + eexists _, _. split; [reflexivity | right; reflexivity].
Qed.

(** *** The handlers *)

Definition without_stocke (i : Z) (w : World) : World :=
  {| sessions := sessions w; utilisateurs := utilisateurs w;
     mots_de_passe_stockes := delete i (mots_de_passe_stockes w);
     mots_de_passe_stockes_id_seq := mots_de_passe_stockes_id_seq w;
     NOW := NOW w; randomBytes_calls := randomBytes_calls w; trace := trace w |}.

Definition select_event : Event := QueryStore "SELECT * FROM mots_de_passe_stockes".

Ltac run_handler :=
  cbv [ajouter reveler modifier supprimer lister chiffrer dechiffrer utilisateur_id_of
       select_stocke insert_stocke update_stocke delete_stocke select_by_owner
       console_error set_store set_randomBytes_calls try_catch bind Codec.lift emit
       modify get ret throw];
  cbn [sessions utilisateurs mots_de_passe_stockes mots_de_passe_stockes_id_seq NOW
       randomBytes_calls trace].

(** A record that is not the caller's, or not there: 404, after the one
    SELECT and nothing else. *)
Lemma reveler_not_found (req : Req) (w : World) (p : Payload) (i : Z) :
  utilisateur req = Some p ->
  parse_int4 (params_id req) = Some i ->
  where_id_owner w i (payload_id p) = [] ->
  reveler req w
  = (Ok (reply 404 (msg_non_trouve req)),
     {| sessions := sessions w; utilisateurs := utilisateurs w;
        mots_de_passe_stockes := mots_de_passe_stockes w;
        mots_de_passe_stockes_id_seq := mots_de_passe_stockes_id_seq w;
        NOW := NOW w; randomBytes_calls := randomBytes_calls w;
        trace := trace w ++ [select_event] |}).
Proof.
  intros Hu Hid Hnone. run_handler. rewrite Hu, Hid.
  unfold where_id_owner in *. cbn [mots_de_passe_stockes] in *.
  rewrite Hnone. reflexivity.
Qed.

Lemma stocke_other_owner (w : World) (i B : Z) (r : Stocke) :
  mots_de_passe_stockes w !! i = Some r -> B <> st_utilisateur_id r ->
  where_id_owner w i B = [].
Proof.
  intros Hrow Hne. unfold where_id_owner. rewrite Hrow.
  destruct (Z.eqb_spec (st_utilisateur_id r) B); [congruence | reflexivity].
Qed.

Lemma where_without (w : World) (i B : Z) : where_id_owner (without_stocke i w) i B = [].
Proof. unfold where_id_owner; cbn. rewrite lookup_delete_eq. reflexivity. Qed.

(** The owner's reveal: the decrypted secret attached, the envelope gone. *)
Lemma reveler_owner (req : Req) (w : World) (p : Payload) (i : Z) (r : Stocke)
    (secret : jsstring) :
  utilisateur req = Some p ->
  parse_int4 (params_id req) = Some i ->
  mots_de_passe_stockes w !! i = Some r ->
  st_utilisateur_id r = payload_id p ->
  Codec.dechiffrer ENCRYPTION_KEY (st_mot_de_passe_crypte r) = Ok secret ->
  exists row w',
    reveler req w
    = (Ok (reply_with 200 (localise (langue req) "Mot de passe récupéré avec succès"
                             "Password retrieved successfully") row), w') /\
    row !! "mot_de_passe" = Some (JStr secret) /\
    row !! "mot_de_passe_crypte" = None /\
    row !! "site_web" = Some (st_site_web r) /\
    row !! "identifiant" = Some (st_identifiant r).
Proof.
  intros Hu Hid Hrow Howner Hdec. run_handler. rewrite Hu, Hid.
  unfold where_id_owner. cbn [mots_de_passe_stockes]. rewrite Hrow, Howner, Z.eqb_refl, Hdec.
  eexists _, _. split; [reflexivity |].
  split; [rewrite lookup_delete_ne, lookup_insert_eq by discriminate; reflexivity |].
  split; [apply lookup_delete_eq |].
  unfold row_object.
  split; rewrite lookup_delete_ne by discriminate;
    repeat (rewrite lookup_insert_ne by discriminate); apply lookup_insert_eq.
Qed.

(** What the add handler stores: the envelope of the secret under a fresh IV. *)
Lemma ajouter_stores (req : Req) (w : World) (p : Payload) (secret : jsstring) :
  erreurs_validation req = [] ->
  motDePasse (body req) = JStr secret ->
  utilisateur req = Some p ->
  length ENCRYPTION_KEY = 32%nat ->
  mots_de_passe_stockes w !! mots_de_passe_stockes_id_seq w = None ->
  exists r res w',
    ajouter req w = (Ok res, w') /\
    status res = 201 /\
    mots_de_passe_stockes w' = <[mots_de_passe_stockes_id_seq w := r]> (mots_de_passe_stockes w) /\
    st_id r = mots_de_passe_stockes_id_seq w /\
    st_utilisateur_id r = payload_id p /\
    st_mot_de_passe_crypte r
    = Codec.envelope ENCRYPTION_KEY (Codec.fresh_iv entropy (randomBytes_calls w)) secret.
Proof.
  intros Hval Hsecret Hu Hkey Hfresh. run_handler.
  rewrite Hval, Hsecret, Hu. cbn [length Nat.eqb negb].
  rewrite (Codec.chiffrer_envelope ENCRYPTION_KEY entropy secret _ Hkey).
  cbn [sessions utilisateurs mots_de_passe_stockes mots_de_passe_stockes_id_seq NOW
       randomBytes_calls trace]. rewrite Hfresh.
  eexists _, _, _. split; [reflexivity |]. repeat split.
Qed.

(** The routes' own add-then-reveal: a well-formed secret stored by the add
    handler comes back from the reveal handler of the same user and id. *)
Lemma ajouter_then_reveler (add get_ : Req) (w : World) (p : Payload) (secret : jsstring) :
  erreurs_validation add = [] ->
  motDePasse (body add) = JStr secret ->
  well_formed secret = true ->
  utilisateur add = Some p ->
  utilisateur get_ = Some p ->
  parse_int4 (params_id get_) = Some (mots_de_passe_stockes_id_seq w) ->
  length ENCRYPTION_KEY = 32%nat ->
  mots_de_passe_stockes w !! mots_de_passe_stockes_id_seq w = None ->
  exists res w1 row w2,
    ajouter add w = (Ok res, w1) /\ status res = 201 /\
    reveler get_ w1
    = (Ok (reply_with 200 (localise (langue get_) "Mot de passe récupéré avec succès"
                             "Password retrieved successfully") row), w2) /\
    row !! "mot_de_passe" = Some (JStr secret) /\
    row !! "mot_de_passe_crypte" = None.
Proof.
  intros Hval Hsecret Hwf Hadd Hget Hid Hkey Hfresh.
  destruct (ajouter_stores add w p secret Hval Hsecret Hadd Hkey Hfresh)
    as (r & res & w1 & Hrun & Hstatus & Hstore & _ & Howner & Henv).
  assert (Hdec : Codec.dechiffrer ENCRYPTION_KEY (st_mot_de_passe_crypte r) = Ok secret).
  { rewrite Henv, Codec.dechiffrer_envelope by (assumption || discriminate).
    rewrite (utf8_decode_encode secret Hwf). reflexivity. }
  destruct (reveler_owner get_ w1 p _ r secret Hget Hid) as (row & w2 & Hrev & Hm & Hc & _);
    [rewrite Hstore; apply lookup_insert_eq | exact Howner | exact Hdec |].
  exists res, w1, row, w2. auto.
Qed.

(** The add handler in full: the row stored, the answer, the sequence. *)
Lemma ajouter_effect (req : Req) (w : World) (p : Payload) (secret : jsstring) :
  erreurs_validation req = [] ->
  motDePasse (body req) = JStr secret ->
  utilisateur req = Some p ->
  length ENCRYPTION_KEY = 32%nat ->
  mots_de_passe_stockes w !! mots_de_passe_stockes_id_seq w = None ->
  let r := {| st_id := mots_de_passe_stockes_id_seq w;
              st_utilisateur_id := payload_id p;
              st_site_web := sql_param (siteWeb (body req));
              st_identifiant := sql_param (identifiant (body req));
              st_mot_de_passe_crypte :=
                Codec.envelope ENCRYPTION_KEY
                  (Codec.fresh_iv entropy (randomBytes_calls w)) secret;
              st_notes := sql_param (notes (body req));
              st_cree_le := NOW w; st_modifie_le := NOW w |} in
  exists w',
    ajouter req w
    = (Ok (reply_with 201 (localise (langue req) "Mot de passe ajouté avec succès"
                             "Password added successfully")
             (returning r "cree_le" (NOW w))), w') /\
    mots_de_passe_stockes w'
      = <[mots_de_passe_stockes_id_seq w := r]> (mots_de_passe_stockes w) /\
    mots_de_passe_stockes_id_seq w' = mots_de_passe_stockes_id_seq w + 1.
Proof.
  intros Hval Hsecret Hu Hkey Hfresh r. run_handler.
  rewrite Hval, Hsecret, Hu. cbn [length Nat.eqb negb].
  rewrite (Codec.chiffrer_envelope ENCRYPTION_KEY entropy secret _ Hkey).
  cbn [sessions utilisateurs mots_de_passe_stockes mots_de_passe_stockes_id_seq NOW
       randomBytes_calls trace]. rewrite Hfresh.
  eexists. split; [reflexivity |]. split; reflexivity.
Qed.

(** C1 (amended): a secret that the add handler has stored (it answered
    201) comes back from the reveal handler, run for the same user and the
    id the add handler returned: the record carries exactly the plaintext,
    when that has no unpaired surrogate, and the envelope is not in it. *)
Theorem stored_secret_revealed (add get_ : Req) (w w1 : World) (res : Response)
    (p : Payload) (secret : jsstring) (i : Z) :
  ajouter add w = (Ok res, w1) ->
  status res = 201 ->
  motDePasseJson res ≫= (.!! "id") = Some (JNum i) ->
  motDePasse (body add) = JStr secret ->
  well_formed secret = true ->
  utilisateur add = Some p ->
  utilisateur get_ = Some p ->
  parse_int4 (params_id get_) = Some i ->
  length ENCRYPTION_KEY = 32%nat ->
  exists row w2,
    reveler get_ w1
    = (Ok (reply_with 200 (localise (langue get_) "Mot de passe récupéré avec succès"
                             "Password retrieved successfully") row), w2) /\
    row !! "mot_de_passe" = Some (JStr secret) /\
    row !! "mot_de_passe_crypte" = None.
Proof.
  intros Hrun Hstatus Hreturned Hsecret Hwf Hadd Hget Hid Hkey.
  destruct (erreurs_validation add) as [| e errs] eqn:Hval.
  2: { unfold ajouter in Hrun. rewrite Hval in Hrun. cbn [length Nat.eqb negb ret] in Hrun.
       injection Hrun as <- _. discriminate Hstatus. }
  destruct (mots_de_passe_stockes w !! mots_de_passe_stockes_id_seq w) as [taken |]
    eqn:Hfresh.
  { revert Hrun. run_handler. rewrite Hval, Hsecret, Hadd. cbn [length Nat.eqb negb].
    rewrite (Codec.chiffrer_envelope ENCRYPTION_KEY entropy secret _ Hkey).
    cbn [sessions utilisateurs mots_de_passe_stockes mots_de_passe_stockes_id_seq NOW
         randomBytes_calls trace]. rewrite Hfresh.
    intros Hrun. injection Hrun as <- _. discriminate Hstatus. }
  destruct (ajouter_effect add w p secret Hval Hsecret Hadd Hkey Hfresh)
    as (w1' & Hrun' & Hstore & _).
  rewrite Hrun in Hrun'. injection Hrun' as -> <-.
  match type of Hstore with _ = <[_ := ?x]> _ => set (r := x) in * end.
  unfold reply_with, returning in Hreturned.
  cbn [motDePasseJson mbind option_bind] in Hreturned.
  rewrite lookup_insert_eq in Hreturned. injection Hreturned as <-.
  assert (Hdec : Codec.dechiffrer ENCRYPTION_KEY (st_mot_de_passe_crypte r) = Ok secret).
  { unfold r. cbn [st_mot_de_passe_crypte].
    rewrite Codec.dechiffrer_envelope by (assumption || discriminate).
    rewrite (utf8_decode_encode secret Hwf). reflexivity. }
  destruct (reveler_owner get_ w1 p _ r secret Hget Hid) as (row & w2 & Hrev & Hm & Hc & _);
    [rewrite Hstore; apply lookup_insert_eq | reflexivity | exact Hdec |].
  exists row, w2. auto.
Qed.

(** C9: a record stored under owner A and fetched by another owner B is
    "not found" with status 404, at the service ([findById]) and at the route
    ([GET /:id] after the gate), with exactly the outcome of fetching an id
    that is not there; 403 is never the answer. *)
Theorem cross_owner_isolation (i A B : Z)
    (sw : PasswordService.World) (r : PasswordService.PasswordModel)
    (w : World) (st : Stocke) (req : Req) :
  B <> A ->
  (PasswordService.mots_de_passe (PasswordService.db sw) !! i = Some r ->
   PasswordService.utilisateur_id r = A ->
   fst (PasswordService.findById i B sw)
     = Throw (AppError PasswordService.msg_not_found 404) /\
   fst (PasswordService.findById i B sw)
     = fst (PasswordService.findById i B (PasswordService.without_row i sw)) /\
   PasswordService.db (snd (PasswordService.findById i B sw)) = PasswordService.db sw) /\
  (mots_de_passe_stockes w !! i = Some st ->
   st_utilisateur_id st = A ->
   utilisateur req = Some {| payload_id := B |} ->
   parse_int4 (params_id req) = Some i ->
   fst (reveler req w) = Ok (reply 404 (msg_non_trouve req)) /\
   fst (reveler req w) = fst (reveler req (without_stocke i w)) /\
   mots_de_passe_stockes (snd (reveler req w)) = mots_de_passe_stockes w /\
   trace (snd (reveler req w)) = trace w ++ [select_event]).
Proof.
  intros Hne. split.
  - intros Hrow <-. exact (PasswordService.findById_cross_owner sw i B r Hrow Hne).
  - intros Hrow <- Hu Hid.
    rewrite (reveler_not_found req w _ i Hu Hid (stocke_other_owner w i B st Hrow Hne)).
    rewrite (reveler_not_found req (without_stocke i w) _ i Hu Hid (where_without w i B)).
    repeat split.
Qed.

(** *** The TypeScript gate: middleware/auth.ts and authService.verifyPin *)

(** authService.verifyPin of services/auth.ts, which imports bcrypt. *)
Definition authService_verifyPin (userId : Z) (codePin : JsVal) : M World unit :=
  try_catch
    (let* rows := select_code_pin_hash userId in
     match rows with
     | [] => throw (AppError "Utilisateur non trouvé" 404)
     | user :: _ =>
         let pinValide := bcrypt_compare codePin (code_pin_hash user) in
         if negb pinValide then throw (AppError "Code PIN incorrect" 401)
         else emit (LogService "pin_verified")
     end)
    (fun error => do emit (LogService "pin_verification_error") then throw error).

(** The middleware [verifyPin]: [next()] or [next(error)]. *)
Definition verifyPin (req : Req) (code_pin : JsVal) : M World Step :=
  try_catch
    (let* uid :=
       match utilisateur req with
       | Some p => ret (payload_id p)
       | None => throw (AppError "Utilisateur non authentifié" 401)
       end in
     if negb (truthy code_pin) then throw (AppError "Code PIN requis" 400)
     else do authService_verifyPin uid code_pin then ret (Next req))
    (fun error =>
       ret (Respond match error with
                    | AppError m code => reply code m
                    | _ => reply 500 "Une erreur interne est survenue"
                    end)).

(** There a PIN that does not match is answered 401. *)
Lemma verifyPin_mismatch_401 (req : Req) (w : World) (p : Payload) (u : Utilisateur)
    (code_pin : JsVal) :
  utilisateur req = Some p ->
  utilisateurs w !! payload_id p = Some u ->
  truthy code_pin = true ->
  bcrypt_compare code_pin (code_pin_hash u) = false ->
  fst (verifyPin req code_pin w) = Ok (Respond (reply 401 "Code PIN incorrect")).
Proof.
  intros Hu Huser Hpin Hcmp.
  cbv [verifyPin authService_verifyPin select_code_pin_hash try_catch bind emit modify
       get ret throw].
  cbn [utilisateurs]. rewrite Hu, Hpin. cbn [negb]. rewrite Huser, Hcmp. reflexivity.
Qed.

(** *** The routes behind the PIN check *)

(** The routes registered with [verifierPin]: POST /, GET /:id, PUT /:id and
    DELETE /:id. *)
Definition pin_gated (route : Route) : bool :=
  match method route, pattern route with
  | GET, Root | POST, VerifierFuite => false
  | _, _ => true
  end.

Lemma vault_untouched_trans (w1 w2 w3 : World) :
  vault_untouched w1 w2 -> vault_untouched w2 w3 -> vault_untouched w1 w3.
Proof.
  intros (Hs & Hq & Hr & evs & Ht & Hevs) (Hs' & Hq' & Hr' & evs' & Ht' & Hevs').
  repeat split; try congruence.
  exists (evs ++ evs'). split; [rewrite Ht', Ht, app_assoc; reflexivity |].
  apply Forall_app. split; assumption.
Qed.

(** The world after a query that only reads: the trace grows. *)
Definition logged (w : World) (evs : list Event) : World :=
  {| sessions := sessions w; utilisateurs := utilisateurs w;
     mots_de_passe_stockes := mots_de_passe_stockes w;
     mots_de_passe_stockes_id_seq := mots_de_passe_stockes_id_seq w;
     NOW := NOW w; randomBytes_calls := randomBytes_calls w;
     trace := trace w ++ evs |}.

(** With a valid session, the user [verifierToken] binds to the request is
    the one the token verifies to. *)
Lemma verifierToken_payload (req : Req) (w : World) :
  session_valid req w = true ->
  exists t p,
    bearer_token req = Some t /\ jwt_verify t = Ok p /\
    verifierToken req w = (Ok (Next (with_utilisateur req p)), logged w [QuerySessions]).
Proof.
  unfold session_valid. intros Hvalid. run_gate.
  destruct (bearer_token req) as [[| c t] |]; try discriminate.
  cbn [token_truthy negb from_option id].
  destruct (jwt_verify (c :: t)) as [p | err] eqn:Hjwt; [| discriminate].
  rewrite filter_length_existsb, Hvalid. cbn [negb].
  exists (c :: t), p. split; [reflexivity |]. split; [exact Hjwt | reflexivity].
Qed.

Lemma verifierPin_missing_pin (req : Req) (w : World) (p : Payload) :
  utilisateur req = Some p ->
  truthy (pin (body req)) = false ->
  verifierPin req w
  = (Ok (Respond (reply 400 (localise (langue req) "Code PIN requis" "PIN required"))), w).
Proof. intros Hu Hpin. run_gate. rewrite Hu, Hpin. reflexivity. Qed.

(** X12: no request gets past [verifierPin].  On each of the four routes
    registered with it, every request is answered by the gate itself, with
    401 when the session check fails, with 400 when the session is valid and
    the body has no PIN, and with 500 when the session is valid and the body
    has a PIN, right or wrong; the handler is not run, and neither the
    credential store nor the codec is reached. *)
Theorem pin_gated_routes_closed (route : Route) (req : Req) (w : World) :
  In route router ->
  pin_gated route = true ->
  exists res w',
    run (chain route) req w = (Ok res, w') /\
    vault_untouched w w' /\
    status res = (if negb (session_valid req w) then 401
                  else if truthy (pin (body req)) then 500 else 400).
Proof.
  intros Hroute Hgated.
  assert (Hhead : exists rest, chain route = verifierToken :: verifierPin :: rest).
  { cbn in Hroute.
    destruct Hroute as [<- | [<- | [<- | [<- | [<- | [<- | []]]]]]];
      try discriminate Hgated; eexists; reflexivity. }
  destruct Hhead as [rest ->]. cbn [run].
  destruct (session_valid req w) eqn:Hsession; cbn [negb].
  - destruct (verifierToken_accepts req w Hsession) as (p & w1 & Hrun & Hclean).
    unfold bind at 1. rewrite Hrun.
    destruct (truthy (pin (body req))) eqn:Hpin.
    + destruct (verifierPin_answers_500 (with_utilisateur req p) w1 Hpin)
        as (w2 & Hrun2 & Hclean2).
      unfold bind at 1. rewrite Hrun2.
      eexists _, w2. split; [reflexivity |].
      split; [exact (vault_untouched_trans _ _ _ Hclean Hclean2) | reflexivity].
    + unfold bind at 1.
      rewrite (verifierPin_missing_pin (with_utilisateur req p) w1 p eq_refl Hpin).
      eexists _, w1. split; [reflexivity |]. split; [exact Hclean | reflexivity].
  - destruct (verifierToken_rejects req w Hsession) as (msg & w1 & Hrun & Hclean).
    unfold bind at 1. rewrite Hrun.
    eexists _, w1. split; [reflexivity |]. split; [exact Hclean | reflexivity].
Qed.

(** *** Listing *)

Lemma listing_hides (r : Stocke) :
  listing r !! "mot_de_passe_crypte" = None /\
  listing r !! "mot_de_passe" = None /\
  listing r !! "utilisateur_id" = None /\
  listing r !! "id" = Some (JNum (st_id r)) /\
  listing r !! "site_web" = Some (st_site_web r) /\
  listing r !! "identifiant" = Some (st_identifiant r).
Proof.
  unfold listing, row_object.
  repeat split;
    repeat first
      [ rewrite lookup_delete_eq
      | rewrite lookup_delete_ne by discriminate
      | rewrite lookup_insert_eq
      | rewrite lookup_insert_ne by discriminate
      | rewrite lookup_empty ];
    reflexivity.
Qed.

(** X13: GET / needs the session only.  With a valid session it answers 200
    with the records of the user the token verifies to, as ORDER BY leaves
    them: one object per stored record of that user and none of anyone
    else's; no object carries the envelope, a plaintext or the owner's id;
    the store is left as it was and the codec is not called. *)
Theorem lister_discloses_no_secret (req : Req) (w : World) (t : jsstring) (p : Payload) :
  ordering_permutes ->
  bearer_token req = Some t ->
  jwt_verify t = Ok p ->
  session_valid req w = true ->
  exists res w',
    run [verifierToken; terminal lister] req w = (Ok res, w') /\
    status res = 200 /\
    motsDePasseJson res
    = listing <$> order_by_site_web ((map_to_list (records_of w (payload_id p))).*2) /\
    motsDePasseJson res ≡ₚ listing <$> (map_to_list (records_of w (payload_id p))).*2 /\
    (forall i r, records_of w (payload_id p) !! i = Some r <->
       mots_de_passe_stockes w !! i = Some r /\ st_utilisateur_id r = payload_id p) /\
    (forall o, In o (motsDePasseJson res) ->
       o !! "mot_de_passe_crypte" = None /\ o !! "mot_de_passe" = None /\
       o !! "utilisateur_id" = None) /\
    mots_de_passe_stockes w' = mots_de_passe_stockes w /\
    randomBytes_calls w' = randomBytes_calls w /\
    trace w' = trace w ++ [QuerySessions;
                           QueryStore "SELECT id, site_web FROM mots_de_passe_stockes"].
Proof.
  intros Horder Htoken Hjwt Hvalid.
  destruct (verifierToken_payload req w Hvalid) as (t' & p' & Htoken' & Hjwt' & Hrun).
  assert (t' = t) by congruence. subst t'.
  assert (p' = p) by congruence. subst p'.
  cbn [run]. unfold bind at 1. rewrite Hrun.
  eexists _, _. split; [run_handler; reflexivity |].
  unfold logged, where_owner, records_of.
  cbn [status motsDePasseJson mots_de_passe_stockes randomBytes_calls trace
       with_utilisateur utilisateur payload_id].
  split; [reflexivity |]. split; [reflexivity |].
  split; [apply fmap_Permutation, Horder |].
  split.
  { intros i r. rewrite map_lookup_filter_Some. reflexivity. }
  split; [| rewrite <- app_assoc; repeat split].
  intros o Ho. apply in_map_iff in Ho as (r & <- & _).
  pose proof (listing_hides r) as (H1 & H2 & H3 & _). auto.
Qed.

(** *** Validation of the body *)

(** The messages [validationMotDePasse] leaves for a body, in the order of
    its three checks. *)
Definition missing_fields (req : Req) : list string :=
  (if notEmpty (siteWeb (body req)) then []
   else [localise (langue req) "Le site web est requis" "Website is required"]) ++
  (if notEmpty (identifiant (body req)) then []
   else [localise (langue req) "L'identifiant est requis" "Username is required"]) ++
  (if notEmpty (motDePasse (body req)) then []
   else [localise (langue req) "Le mot de passe est requis" "Password is required"]).

(** X14: a body in which siteWeb, identifiant or motDePasse is missing or
    empty never reaches the work of the add and update handlers: the answer
    is 400 with one message per missing field, in the order siteWeb,
    identifiant, motDePasse and in the language of the request, and the
    world is exactly as before: nothing encrypted, nothing queried. *)
Theorem validation_rejects_before_handler (req : Req) (w : World) :
  erreurs_validation req = [] ->
  missing_fields req <> [] ->
  let refusal := {| status := 400; message := ""; erreurs := missing_fields req;
                    motDePasseJson := None; motsDePasseJson := [] |} in
  run [validationMotDePasse; terminal ajouter] req w = (Ok refusal, w) /\
  run [validationMotDePasse; terminal modifier] req w = (Ok refusal, w).
Proof.
  intros Hfresh Hmissing. unfold missing_fields in *.
  cbv [run validationMotDePasse terminal ajouter modifier bind ret validation_reply].
  cbn [erreurs_validation langue body]. rewrite Hfresh. cbn [app].
  destruct (notEmpty (siteWeb (body req))), (notEmpty (identifiant (body req))),
    (notEmpty (motDePasse (body req)));
    cbn [app] in Hmissing |- *; try congruence;
    cbn [length Nat.eqb negb erreurs_validation langue map fst snd];
    split; reflexivity.
Qed.

(** On what is not a string [chiffrer] throws, one IV drawn. *)
Lemma chiffrer_non_string_throws (k : Codec.Entropy) :
  exists err, chiffrer_non_string k = (Throw err, S k).
Proof.
  unfold chiffrer_non_string, bind, Codec.randomBytes, Codec.lift, throw.
  destruct (Codec.create_aes_256_gcm ENCRYPTION_KEY _); eauto.
Qed.

(** X15: a motDePasse that is not a string (a number or a boolean of the
    JSON body) passes [notEmpty] and then makes [chiffrer] throw, at
    [cipher.update], after the IV has been drawn: the add handler answers
    500, nothing is stored, and one call of [crypto.randomBytes] has been
    made. *)
Theorem ajouter_non_string_secret (req : Req) (w : World) :
  erreurs_validation req = [] ->
  missing_fields req = [] ->
  (forall s, motDePasse (body req) <> JStr s) ->
  exists w',
    run [validationMotDePasse; terminal ajouter] req w
    = (Ok (reply 500 (localise (langue req) "Erreur lors de l'ajout du mot de passe"
                        "Error adding password")), w') /\
    mots_de_passe_stockes w' = mots_de_passe_stockes w /\
    mots_de_passe_stockes_id_seq w' = mots_de_passe_stockes_id_seq w /\
    randomBytes_calls w' = S (randomBytes_calls w).
Proof.
  intros Hfresh Hmissing Hsecret. unfold missing_fields in Hmissing.
  cbv [run validationMotDePasse terminal bind ret].
  run_handler. cbn [erreurs_validation langue body]. rewrite Hfresh. cbn [app].
  destruct (notEmpty (siteWeb (body req))), (notEmpty (identifiant (body req))),
    (notEmpty (motDePasse (body req))); try discriminate Hmissing.
  cbn [length Nat.eqb negb app].
  destruct (chiffrer_non_string_throws (randomBytes_calls w)) as [err Hthrow].
  destruct (motDePasse (body req)) as [| | b | n | s] eqn:Hm;
    [| | | | exfalso; exact (Hsecret s eq_refl)];
    rewrite Hthrow; (eexists; split; [reflexivity | repeat split]).
Qed.

(** *** Update and delete at the handlers *)

(** What the update handler stores: the new fields, a new envelope, the
    time of the update. *)
Lemma modifier_stores (req : Req) (w : World) (p : Payload) (i : Z) (r : Stocke)
    (secret : jsstring) :
  erreurs_validation req = [] ->
  motDePasse (body req) = JStr secret ->
  utilisateur req = Some p ->
  parse_int4 (params_id req) = Some i ->
  length ENCRYPTION_KEY = 32%nat ->
  mots_de_passe_stockes w !! i = Some r ->
  st_utilisateur_id r = payload_id p ->
  let r' := {| st_id := st_id r; st_utilisateur_id := st_utilisateur_id r;
               st_site_web := sql_param (siteWeb (body req));
               st_identifiant := sql_param (identifiant (body req));
               st_mot_de_passe_crypte :=
                 Codec.envelope ENCRYPTION_KEY
                   (Codec.fresh_iv entropy (randomBytes_calls w)) secret;
               st_notes := sql_param (notes (body req));
               st_cree_le := st_cree_le r; st_modifie_le := NOW w |} in
  exists res w',
    modifier req w = (Ok res, w') /\
    status res = 200 /\
    mots_de_passe_stockes w' = <[i := r']> (mots_de_passe_stockes w) /\
    mots_de_passe_stockes_id_seq w' = mots_de_passe_stockes_id_seq w.
Proof.
  intros Hval Hsecret Hu Hid Hkey Hrow Howner r'. run_handler.
  rewrite Hval, Hsecret, Hu, Hid. cbn [length Nat.eqb negb].
  rewrite (Codec.chiffrer_envelope ENCRYPTION_KEY entropy secret _ Hkey).
  unfold where_id_owner.
  cbn [sessions utilisateurs mots_de_passe_stockes mots_de_passe_stockes_id_seq NOW
       randomBytes_calls trace].
  rewrite Hrow, Howner, Z.eqb_refl.
  eexists _, _. split; [reflexivity |]. repeat split.
Qed.

(** The update handler on a record of another user: 404, the store as it
    was. *)
Lemma modifier_other_owner (req : Req) (w : World) (p : Payload) (i : Z) (r : Stocke)
    (secret : jsstring) :
  erreurs_validation req = [] ->
  motDePasse (body req) = JStr secret ->
  utilisateur req = Some p ->
  parse_int4 (params_id req) = Some i ->
  length ENCRYPTION_KEY = 32%nat ->
  mots_de_passe_stockes w !! i = Some r ->
  st_utilisateur_id r <> payload_id p ->
  fst (modifier req w) = Ok (reply 404 (msg_non_trouve req)).
Proof.
  intros Hval Hsecret Hu Hid Hkey Hrow Hother.
  assert (Hnone : where_id_owner w i (payload_id p) = [])
    by (apply (stocke_other_owner w i _ r Hrow); congruence).
  unfold where_id_owner in Hnone.
  run_handler. rewrite Hval, Hsecret, Hu, Hid. cbn [length Nat.eqb negb].
  rewrite (Codec.chiffrer_envelope ENCRYPTION_KEY entropy secret _ Hkey).
  unfold where_id_owner.
  cbn [sessions utilisateurs mots_de_passe_stockes mots_de_passe_stockes_id_seq NOW
       randomBytes_calls trace].
  rewrite Hnone. reflexivity.
Qed.

(** X16: when the update handler has answered 200 for a record, the record
    was the caller's, and the reveal handler then returns, for the same id,
    the new secret and the new site and identifier as they were sent, for
    well-formed strings (no unpaired surrogate; site and identifier of at
    most 255 code units, the limit of the sibling table); the record keeps
    its id, its owner and its creation time, and gets the time of the
    update. *)
Theorem modifier_then_reveler (upd get_ : Req) (w w1 : World) (res : Response)
    (p : Payload) (i : Z) (r : Stocke) (secret site ident : jsstring) :
  modifier upd w = (Ok res, w1) ->
  status res = 200 ->
  mots_de_passe_stockes w !! i = Some r ->
  motDePasse (body upd) = JStr secret -> well_formed secret = true ->
  siteWeb (body upd) = JStr site -> well_formed site = true -> (length site <= 255)%nat ->
  identifiant (body upd) = JStr ident -> well_formed ident = true ->
  (length ident <= 255)%nat ->
  utilisateur upd = Some p ->
  utilisateur get_ = Some p ->
  parse_int4 (params_id upd) = Some i ->
  parse_int4 (params_id get_) = Some i ->
  length ENCRYPTION_KEY = 32%nat ->
  exists r' row w2,
    st_utilisateur_id r = payload_id p /\
    mots_de_passe_stockes w1 = <[i := r']> (mots_de_passe_stockes w) /\
    st_id r' = st_id r /\ st_utilisateur_id r' = st_utilisateur_id r /\
    st_cree_le r' = st_cree_le r /\ st_modifie_le r' = NOW w /\
    reveler get_ w1
    = (Ok (reply_with 200 (localise (langue get_) "Mot de passe récupéré avec succès"
                             "Password retrieved successfully") row), w2) /\
    row !! "mot_de_passe" = Some (JStr secret) /\
    row !! "mot_de_passe_crypte" = None /\
    row !! "site_web" = Some (JStr site) /\
    row !! "identifiant" = Some (JStr ident).
Proof.
  intros Hrun Hstatus Hrow Hsecret Hwf Hsite Hwfsite _ Hident Hwfident _
    Hupd Hget Hid Hid' Hkey.
  destruct (erreurs_validation upd) as [| e errs] eqn:Hval.
  2: { unfold modifier in Hrun. rewrite Hval in Hrun. cbn [length Nat.eqb negb ret] in Hrun.
       injection Hrun as <- _. discriminate Hstatus. }
  destruct (Z.eq_dec (st_utilisateur_id r) (payload_id p)) as [Howner | Hother].
  2: { pose proof (modifier_other_owner upd w p i r secret Hval Hsecret Hupd Hid Hkey Hrow
                     Hother) as H404.
       rewrite Hrun in H404. cbn [fst] in H404. injection H404 as ->.
       discriminate Hstatus. }
  destruct (modifier_stores upd w p i r secret Hval Hsecret Hupd Hid Hkey Hrow Howner)
    as (res' & w1' & Hrun' & _ & Hstore & _).
  rewrite Hrun in Hrun'. injection Hrun' as <- <-.
  match type of Hstore with _ = <[_ := ?x]> _ => set (r' := x) in * end.
  assert (Hdec : Codec.dechiffrer ENCRYPTION_KEY (st_mot_de_passe_crypte r') = Ok secret).
  { unfold r'. cbn [st_mot_de_passe_crypte].
    rewrite Codec.dechiffrer_envelope by (assumption || discriminate).
    rewrite (utf8_decode_encode secret Hwf). reflexivity. }
  destruct (reveler_owner get_ w1 p i r' secret Hget Hid')
    as (row & w2 & Hrev & Hm & Hc & Hs & Hi);
    [rewrite Hstore; apply lookup_insert_eq | exact Howner | exact Hdec |].
  exists r', row, w2.
  split; [exact Howner |]. split; [exact Hstore |].
  split; [reflexivity |]. split; [reflexivity |]. split; [reflexivity |].
  split; [reflexivity |]. split; [exact Hrev |]. split; [exact Hm |]. split; [exact Hc |].
  unfold r' in Hs, Hi. cbn [st_site_web st_identifiant] in Hs, Hi.
  rewrite Hsite in Hs. rewrite Hident in Hi. cbn [sql_param] in Hs, Hi.
  rewrite (utf8_decode_encode site Hwfsite) in Hs.
  rewrite (utf8_decode_encode ident Hwfident) in Hi.
  split; assumption.
Qed.


(** X18: the delete handler, run for the owner, answers 200 and removes the
    record and no other; a reveal of the same id then answers 404. *)
Theorem supprimer_then_reveler (del get_ : Req) (w : World) (p : Payload) (i : Z)
    (r : Stocke) :
  utilisateur del = Some p ->
  utilisateur get_ = Some p ->
  parse_int4 (params_id del) = Some i ->
  parse_int4 (params_id get_) = Some i ->
  mots_de_passe_stockes w !! i = Some r ->
  st_utilisateur_id r = payload_id p ->
  exists w1,
    supprimer del w
    = (Ok (reply 200 (localise (langue del) "Mot de passe supprimé avec succès"
                        "Password deleted successfully")), w1) /\
    mots_de_passe_stockes w1 = delete i (mots_de_passe_stockes w) /\
    fst (reveler get_ w1) = Ok (reply 404 (msg_non_trouve get_)).
Proof.
  intros Hdel Hget Hid Hid' Hrow Howner. run_handler.
  rewrite Hdel, Hget, Hid, Hid'. unfold where_id_owner.
  cbn [sessions utilisateurs mots_de_passe_stockes mots_de_passe_stockes_id_seq NOW
       randomBytes_calls trace].
  rewrite Hrow, Howner, Z.eqb_refl.
  eexists. split; [reflexivity |].
  cbn [sessions utilisateurs mots_de_passe_stockes mots_de_passe_stockes_id_seq NOW
       randomBytes_calls trace fst].
  rewrite lookup_delete_eq. repeat split.
Qed.


End Libraries.

(** *** A deployment for the examples *)

Definition example_jwt_verify (token : jsstring) : Res Payload :=
  if jsstring_eqb token (lit "good.token") then Ok {| payload_id := 1 |}
  else Throw JsonWebTokenError.

(** A stand-in for bcrypt: the hash is the PIN after a version prefix. *)
Definition example_bcrypt_compare (data : JsVal) (hash : jsstring) : bool :=
  match data with
  | JStr s => jsstring_eqb (lit "$2b$10$" ++ s) hash
  | _ => false
  end.

Definition example_world : World :=
  {| sessions := [ {| s_utilisateur_id := 1; s_token := lit "good.token";
                      s_expire_le := 2000 |} ];
     utilisateurs := {[ 1 := {| code_pin_hash := lit "$2b$10$123456" |} ]};
     mots_de_passe_stockes := ∅;
     mots_de_passe_stockes_id_seq := 1;
     NOW := 1000;
     randomBytes_calls := 0;
     trace := [] |}.

Definition example_body (p : jsstring) : Body :=
  {| pin := JStr p; siteWeb := JStr (lit "example.com");
     identifiant := JStr (lit "testuser"); motDePasse := JStr (lit "Password123!");
     notes := JUndefined |}.

Definition example_request (auth : option jsstring) (p : jsstring) (id_text : jsstring) : Req :=
  {| authorization := auth; langue := en; params_id := id_text;
     body := example_body p; utilisateur := None; erreurs_validation := [] |}.

(** An order for the examples: by the code units of [site_web], NULL last. *)
Fixpoint code_units_leb (s t : jsstring) : bool :=
  match s, t with
  | [], _ => true
  | _ :: _, [] => false
  | c :: s', d :: t' => (c <? d) || ((c =? d) && code_units_leb s' t')
  end.

Definition site_web_leb (a b : Stocke) : bool :=
  match st_site_web a, st_site_web b with
  | JStr s, JStr t => code_units_leb s t
  | JStr _, _ => true
  | _, JStr _ => false
  | _, _ => true
  end.

Fixpoint insert_by_site_web (r : Stocke) (rows : list Stocke) : list Stocke :=
  match rows with
  | [] => [r]
  | a :: rest => if site_web_leb r a then r :: a :: rest else a :: insert_by_site_web r rest
  end.

Definition example_order (rows : list Stocke) : list Stocke :=
  foldr insert_by_site_web [] rows.

Lemma insert_by_site_web_permutes (r : Stocke) (rows : list Stocke) :
  Permutation (insert_by_site_web r rows) (r :: rows).
Proof.
  induction rows as [| a rest IH]; cbn [insert_by_site_web]; [reflexivity |].
  destruct (site_web_leb r a); [reflexivity |].
  rewrite IH. apply perm_swap.
Qed.

Lemma example_order_permutes : ordering_permutes example_order.
Proof.
  intros rows. unfold example_order. induction rows as [| r rows IH]; cbn [foldr].
  - reflexivity.
  - rewrite insert_by_site_web_permutes, IH. reflexivity.
Qed.

Definition route_ajouter : Route :=
  {| method := POST; pattern := Root;
     chain := [verifierToken example_jwt_verify;
               verifierPin example_bcrypt_compare;
               validationMotDePasse;
               terminal (ajouter Codec.example_key Codec.example_entropy)] |}.

Lemma route_ajouter_registered :
  In route_ajouter
     (router example_jwt_verify example_bcrypt_compare Codec.example_key Codec.example_entropy
        example_order).
Proof. left. reflexivity. Qed.

Lemma gate_ordering_witness :
  exists res w',
    run (chain route_ajouter)
        (example_request (Some (lit "Bearer expired.token")) (lit "123456") (lit "1"))
        example_world
    = (Ok res, w') /\
    status res = 401 /\
    vault_untouched example_world w'.
Proof.
  apply (gate_ordering example_jwt_verify example_bcrypt_compare Codec.example_key
           Codec.example_entropy example_order route_ajouter).
  - exact route_ajouter_registered.
  - vm_compute. reflexivity.
Defined.

Lemma ajouter_then_reveler_witness :
  let add := {| authorization := Some (lit "Bearer good.token"); langue := fr;
                params_id := []; body := example_body (lit "123456");
                utilisateur := Some {| payload_id := 1 |}; erreurs_validation := [] |} in
  let get_ := {| authorization := Some (lit "Bearer good.token"); langue := fr;
                 params_id := lit "1"; body := example_body (lit "123456");
                 utilisateur := Some {| payload_id := 1 |}; erreurs_validation := [] |} in
  exists res w1 row w2,
    ajouter Codec.example_key Codec.example_entropy add example_world = (Ok res, w1) /\
    status res = 201 /\
    reveler Codec.example_key get_ w1
    = (Ok (reply_with 200 "Mot de passe récupéré avec succès" row), w2) /\
    row !! "mot_de_passe" = Some (JStr (lit "Password123!")) /\
    row !! "mot_de_passe_crypte" = None.
Proof.
  intros add get_.
  apply (ajouter_then_reveler Codec.example_key Codec.example_entropy add get_
           example_world {| payload_id := 1 |} (lit "Password123!"));
    try reflexivity.
Defined.

(** C4, on the code: an authenticated request to the PIN-gated reveal route
    whose PIN does not match the stored hash is answered 500 "Error verifying
    PIN", whatever [bcrypt.compare] would say, and so is one whose PIN
    matches: the 401 "Invalid PIN" answer is never reached. *)
Theorem verifierPin_mismatch_answers_500 (bcrypt_compare : JsVal -> jsstring -> bool) :
  let route := [verifierToken example_jwt_verify; verifierPin bcrypt_compare;
                terminal (reveler Codec.example_key)] in
  let wrong := example_request (Some (lit "Bearer good.token")) (lit "000000") (lit "1") in
  let right := example_request (Some (lit "Bearer good.token")) (lit "123456") (lit "1") in
  fst (run route wrong example_world) = Ok (reply 500 "Error verifying PIN") /\
  fst (run route right example_world) = Ok (reply 500 "Error verifying PIN") /\
  Forall (fun e => touches_vault e = false) (trace (snd (run route wrong example_world))).
Proof.
  cbv zeta. repeat split; vm_compute; repeat constructor.
Qed.

(** C9 at a concrete deployment. *)
Lemma cross_owner_isolation_witness :
  let sw := {| PasswordService.db :=
                 {| PasswordService.utilisateurs := {[ 1; 2 ]};
                    PasswordService.mots_de_passe :=
                      {[ 7 := {| PasswordService.id := 7;
                                 PasswordService.utilisateur_id := 1;
                                 PasswordService.site_web := lit "example.com";
                                 PasswordService.identifiant := lit "testuser";
                                 PasswordService.mot_de_passe_crypte := lit "$2b$10$hash";
                                 PasswordService.notes := None;
                                 PasswordService.cree_le := 0;
                                 PasswordService.modifie_le := 0 |} ]};
                    PasswordService.mots_de_passe_id_seq := 8;
                    PasswordService.current_timestamp := 0 |};
               PasswordService.salts_drawn := 0;
               PasswordService.trace := [] |} in
  fst (PasswordService.findById 7 2 sw)
  = Throw (AppError PasswordService.msg_not_found 404).
Proof.
  intros sw.
  refine (proj1 (proj1 (cross_owner_isolation Codec.example_key 7 1 2 sw _ example_world
                          {| st_id := 7; st_utilisateur_id := 1;
                             st_site_web := JNull; st_identifiant := JNull;
                             st_mot_de_passe_crypte := []; st_notes := JNull;
                             st_cree_le := 0; st_modifie_le := 0 |}
                          (example_request None [] [])
                          _) _ _)).
  - lia.
  - vm_compute. reflexivity.
  - reflexivity.
Defined.

(** *** The routes and handlers at the example deployment *)

(** A store with one record of user 1, holding the example envelope, and one
    of user 2. *)
Definition example_stocke (i u : Z) : Stocke :=
  {| st_id := i; st_utilisateur_id := u; st_site_web := JStr (lit "example.com");
     st_identifiant := JStr (lit "testuser");
     st_mot_de_passe_crypte := Codec.example_envelope; st_notes := JNull;
     st_cree_le := 500; st_modifie_le := 500 |}.

Definition example_vault : World :=
  {| sessions := sessions example_world; utilisateurs := utilisateurs example_world;
     mots_de_passe_stockes := {[ 1 := example_stocke 1 1; 2 := example_stocke 2 2 ]};
     mots_de_passe_stockes_id_seq := 3; NOW := 1000; randomBytes_calls := 0;
     trace := [] |}.

(** A request as the handlers see it, the user of the token bound to it. *)
Definition example_call (user : Z) (id_text : jsstring) (secret : JsVal) : Req :=
  {| authorization := Some (lit "Bearer good.token"); langue := en;
     params_id := id_text;
     body := {| pin := JStr (lit "123456"); siteWeb := JStr (lit "example.org");
                identifiant := JStr (lit "someone"); motDePasse := secret;
                notes := JUndefined |};
     utilisateur := Some {| payload_id := user |}; erreurs_validation := [] |}.

Lemma pin_gated_routes_closed_witness :
  let req := example_request (Some (lit "Bearer good.token")) (lit "123456") (lit "1") in
  exists res w',
    run (chain route_ajouter) req example_world = (Ok res, w') /\
    vault_untouched example_world w' /\
    status res = (if negb (session_valid example_jwt_verify req example_world) then 401
                  else if truthy (pin (body req)) then 500 else 400).
Proof.
  intros req.
  apply (pin_gated_routes_closed example_jwt_verify example_bcrypt_compare
           Codec.example_key Codec.example_entropy example_order route_ajouter req
           example_world).
  - exact route_ajouter_registered.
  - reflexivity.
Defined.

(** C1 at the example deployment: user 1 adds a secret and reveals it. *)
Lemma stored_secret_revealed_witness :
  let add := example_call 1 [] (JStr (lit "Password123!")) in
  let get_ := example_call 1 (lit "3") JUndefined in
  let w1 := snd (ajouter Codec.example_key Codec.example_entropy add example_vault) in
  exists row w2,
    reveler Codec.example_key get_ w1
    = (Ok (reply_with 200 "Password retrieved successfully" row), w2) /\
    row !! "mot_de_passe" = Some (JStr (lit "Password123!")) /\
    row !! "mot_de_passe_crypte" = None.
Proof.
  intros add get_ w1.
  apply (stored_secret_revealed Codec.example_key Codec.example_entropy add get_
           example_vault w1
           (match fst (ajouter Codec.example_key Codec.example_entropy add example_vault)
            with Ok res => res | Throw _ => reply 0 "" end)
           {| payload_id := 1 |} (lit "Password123!") 3);
    vm_compute; reflexivity.
Defined.

(** C1, as stated, fails for a secret with an unpaired surrogate: the add
    handler stores it (201), and the reveal handler returns U+FFFD in its
    place. *)
Lemma stored_secret_lone_surrogate :
  exists res w1 row w2,
    ajouter Codec.example_key Codec.example_entropy (example_call 1 [] (JStr [0xD800]))
      example_vault = (Ok res, w1) /\
    status res = 201 /\
    motDePasseJson res ≫= (.!! "id") = Some (JNum 3) /\
    reveler Codec.example_key (example_call 1 (lit "3") JUndefined) w1
    = (Ok (reply_with 200 "Password retrieved successfully" row), w2) /\
    row !! "mot_de_passe" = Some (JStr [0xFFFD]) /\
    JStr [0xFFFD] <> JStr [0xD800].
Proof.
  eexists _, _, _, _. split; [vm_compute; reflexivity |].
  split; [reflexivity |]. split; [reflexivity |].
  split; [vm_compute; reflexivity |].
  split; [reflexivity | discriminate].
Qed.

Lemma lister_discloses_no_secret_witness :
  let req := example_request (Some (lit "Bearer good.token")) [] [] in
  exists res w',
    run [verifierToken example_jwt_verify; terminal (lister example_order)] req example_vault
      = (Ok res, w') /\
    status res = 200 /\
    motsDePasseJson res
    = listing <$> example_order ((map_to_list (records_of example_vault 1)).*2) /\
    motsDePasseJson res ≡ₚ listing <$> (map_to_list (records_of example_vault 1)).*2 /\
    (forall i r, records_of example_vault 1 !! i = Some r <->
       mots_de_passe_stockes example_vault !! i = Some r /\ st_utilisateur_id r = 1) /\
    (forall o, In o (motsDePasseJson res) ->
       o !! "mot_de_passe_crypte" = None /\ o !! "mot_de_passe" = None /\
       o !! "utilisateur_id" = None) /\
    mots_de_passe_stockes w' = mots_de_passe_stockes example_vault /\
    randomBytes_calls w' = randomBytes_calls example_vault /\
    trace w' = trace example_vault
               ++ [QuerySessions;
                   QueryStore "SELECT id, site_web FROM mots_de_passe_stockes"].
Proof.
  intros req.
  apply (lister_discloses_no_secret example_jwt_verify example_order req example_vault
           (lit "good.token") {| payload_id := 1 |}).
  - exact example_order_permutes.
  - reflexivity.
  - reflexivity.
  - vm_compute. reflexivity.
Defined.

(** The listing of user 1 at the example store: the one record, without its
    envelope. *)
Example lister_example :
  motsDePasseJson <$>
    (match fst (run [verifierToken example_jwt_verify; terminal (lister example_order)]
                  (example_request (Some (lit "Bearer good.token")) [] []) example_vault)
     with Ok res => Some res | Throw _ => None end)
  = Some [listing (example_stocke 1 1)].
Proof. vm_compute. reflexivity. Qed.

Lemma validation_rejects_before_handler_witness :
  let req := example_call 1 [] (JStr []) in
  run [validationMotDePasse; terminal (ajouter Codec.example_key Codec.example_entropy)]
    req example_vault
  = (Ok {| status := 400; message := ""; erreurs := ["Password is required"];
           motDePasseJson := None; motsDePasseJson := [] |}, example_vault).
Proof.
  intros req.
  refine (proj1 (validation_rejects_before_handler Codec.example_key Codec.example_entropy
                   req example_vault eq_refl _)).
  discriminate.
Defined.

Lemma ajouter_non_string_secret_witness :
  let req := example_call 1 [] (JNum 12345) in
  exists w',
    run [validationMotDePasse; terminal (ajouter Codec.example_key Codec.example_entropy)]
      req example_vault
    = (Ok (reply 500 (localise (langue req) "Erreur lors de l'ajout du mot de passe"
                        "Error adding password")), w') /\
    mots_de_passe_stockes w' = mots_de_passe_stockes example_vault /\
    mots_de_passe_stockes_id_seq w' = mots_de_passe_stockes_id_seq example_vault /\
    randomBytes_calls w' = S (randomBytes_calls example_vault).
Proof.
  intros req.
  apply (ajouter_non_string_secret Codec.example_key Codec.example_entropy req
           example_vault);
    [reflexivity | reflexivity | discriminate].
Defined.

Lemma modifier_then_reveler_witness :
  let upd := example_call 1 (lit "1") (JStr (lit "N3w:secret")) in
  let w1 := snd (modifier Codec.example_key Codec.example_entropy upd example_vault) in
  exists r' row w2,
    st_utilisateur_id (example_stocke 1 1) = 1 /\
    mots_de_passe_stockes w1 = <[1 := r']> (mots_de_passe_stockes example_vault) /\
    st_id r' = st_id (example_stocke 1 1) /\
    st_utilisateur_id r' = st_utilisateur_id (example_stocke 1 1) /\
    st_cree_le r' = st_cree_le (example_stocke 1 1) /\
    st_modifie_le r' = NOW example_vault /\
    reveler Codec.example_key upd w1
    = (Ok (reply_with 200 "Password retrieved successfully" row), w2) /\
    row !! "mot_de_passe" = Some (JStr (lit "N3w:secret")) /\
    row !! "mot_de_passe_crypte" = None /\
    row !! "site_web" = Some (JStr (lit "example.org")) /\
    row !! "identifiant" = Some (JStr (lit "someone")).
Proof.
  intros upd w1.
  apply (modifier_then_reveler Codec.example_key Codec.example_entropy upd upd
           example_vault w1
           (match fst (modifier Codec.example_key Codec.example_entropy upd example_vault)
            with Ok res => res | Throw _ => reply 0 "" end)
           {| payload_id := 1 |} 1 (example_stocke 1 1) (lit "N3w:secret")
           (lit "example.org") (lit "someone"));
    try (vm_compute; reflexivity); cbn; lia.
Defined.


Lemma supprimer_then_reveler_witness :
  let del := example_call 1 (lit "1") JUndefined in
  exists w1,
    supprimer del example_vault
    = (Ok (reply 200 (localise (langue del) "Mot de passe supprimé avec succès"
                        "Password deleted successfully")), w1) /\
    mots_de_passe_stockes w1 = delete 1 (mots_de_passe_stockes example_vault) /\
    fst (reveler Codec.example_key del w1) = Ok (reply 404 (msg_non_trouve del)).
Proof.
  intros del.
  apply (supprimer_then_reveler Codec.example_key del del example_vault
           {| payload_id := 1 |} 1 (example_stocke 1 1));
    reflexivity.
Defined.


End Vault.


(** ** serveur/types/index.ts : the error classes, and Express around them *)

Module Types.
Import Buf.

(** A string literal of the source: the UTF-16 code units of its text. *)
Definition js (s : string) : jsstring := utf8_decode (String.list_byte_of_string s).

(** A value of a parsed JSON body, or of [details: any]. *)
#[warnings="-register-all"] Inductive Value :=
| VNull
| VBool (b : bool)
| VNum (n : Z)
| VStr (s : jsstring)
| VArr (items : list Value)
| VObj (fields : list (string * Value)).

(** The classes an error of the application can be an instance of: those of
    types/index.ts, and the built-in and jsonwebtoken classes the handlers
    test for. *)
Inductive Class :=
| CError
| CSyntaxError
| CJsonWebTokenError
| CTokenExpiredError
| CNotBeforeError
| CAppError
| CValidationError
| CAuthenticationError
| CAuthorizationError
| CNotFoundError.

#[export] Instance Class_eq_dec : EqDecision Class.
Proof. solve_decision. Defined.

(** [class C extends P] *)
Definition superclass (c : Class) : option Class :=
  match c with
  | CError => None
  | CSyntaxError | CJsonWebTokenError | CAppError => Some CError
  | CTokenExpiredError | CNotBeforeError => Some CJsonWebTokenError
  | CValidationError | CAuthenticationError | CAuthorizationError | CNotFoundError =>
      Some CAppError
  end.

(** [c] is [d] or inherits from it; no chain is longer than three links. *)
Fixpoint inherits (fuel : nat) (c d : Class) : bool :=
  bool_decide (c = d) ||
  match fuel, superclass c with
  | S fuel', Some p => inherits fuel' p d
  | _, _ => false
  end.

(** An error object: its class, [message], [stack], and for the classes of
    types/index.ts the fields [name], [status] and [details] their
    constructors set; [body] is the property body-parser adds. *)
Record ErrorObj := {
  class_of : Class;
  name : jsstring;
  message : jsstring;
  stack : jsstring;
  status : option Z;
  details : option Value;
  body : option Value
}.

(** [err instanceof C] *)
Definition instanceof (err : ErrorObj) (c : Class) : bool := inherits 3 (class_of err) c.

(** [new AppError(message, status = 500, details)] *)
Definition new_AppError (message : jsstring) (status : option Z) (details : option Value)
    (stack : jsstring) : ErrorObj :=
  {| class_of := CAppError; name := js "AppError"; message := message; stack := stack;
     status := Some (default 500 status); details := details; body := None |}.

(** [super(message, 400, details); this.name = 'ValidationError'] *)
Definition new_ValidationError (message : jsstring) (details : option Value)
    (stack : jsstring) : ErrorObj :=
  {| class_of := CValidationError; name := js "ValidationError"; message := message;
     stack := stack; status := Some 400; details := details; body := None |}.

Definition new_AuthenticationError (message stack : jsstring) : ErrorObj :=
  {| class_of := CAuthenticationError; name := js "AuthenticationError";
     message := message; stack := stack; status := Some 401; details := None;
     body := None |}.

Definition new_AuthorizationError (message stack : jsstring) : ErrorObj :=
  {| class_of := CAuthorizationError; name := js "AuthorizationError";
     message := message; stack := stack; status := Some 403; details := None;
     body := None |}.

Definition new_NotFoundError (message stack : jsstring) : ErrorObj :=
  {| class_of := CNotFoundError; name := js "NotFoundError"; message := message;
     stack := stack; status := Some 404; details := None; body := None |}.

(** The errors the constructors of types/index.ts build. *)
Inductive constructed : ErrorObj -> Prop :=
| built_AppError m s d st : constructed (new_AppError m s d st)
| built_ValidationError m d st : constructed (new_ValidationError m d st)
| built_AuthenticationError m st : constructed (new_AuthenticationError m st)
| built_AuthorizationError m st : constructed (new_AuthorizationError m st)
| built_NotFoundError m st : constructed (new_NotFoundError m st).

(** *** logService of services/common.ts *)

Inductive Level := info | warn | error | debug.

Record LogEntry := { level : Level; event : string }.

Definition Log := list LogEntry.

(** *** Code that logs and may throw an error object *)

Inductive Outcome (A : Type) :=
| Done (a : A)
| Raised (err : ErrorObj).
Arguments Done {A} a.
Arguments Raised {A} err.

Definition H (A : Type) : Type := Log -> Outcome A * Log.

Definition pure {A} (a : A) : H A := fun log => (Done a, log).
Definition raise {A} (err : ErrorObj) : H A := fun log => (Raised err, log).
Definition and_then {A B} (m : H A) (k : A -> H B) : H B :=
  fun log => match m log with
             | (Done a, log') => k a log'
             | (Raised err, log') => (Raised err, log')
             end.

Definition logService_warn (ev : string) : H unit :=
  fun log => (Done tt, log ++ [{| level := warn; event := ev |}]).
Definition logService_error (ev : string) : H unit :=
  fun log => (Done tt, log ++ [{| level := error; event := ev |}]).

(** *** An Express request, as the middlewares read it

    Header names are in lower case, as Node gives them; [req_body] is the
    parsed JSON object by its keys, [None] when [req.body] is not set. *)

Record Request := {
  method : jsstring;
  path : jsstring;
  ip : jsstring;
  headers : gmap string jsstring;
  req_body : option (gmap string Value)
}.

(** The JSON of an error answer: [{ success, error: { message, status,
    details, stack } }], a missing key being [None]. *)
Record Reply := {
  http_status : Z;
  success : bool;
  error_message : jsstring;
  error_status : option Z;
  error_details : option Value;
  error_stack : option jsstring
}.

End Types.

Notation "'let!' x := m 'in' k" := (Types.and_then m (fun x => k))
  (at level 10, x name, m at level 100, k at level 200).
Notation "'do!' m 'then' k" := (Types.and_then m (fun _ => k))
  (at level 10, m at level 100, k at level 200).

(** ** serveur/middleware/errorHandler.ts *)

Module ErrorHandler.
Import Types.

Section Config.

(** config.NODE_ENV *)
Variable NODE_ENV : jsstring.

Definition development : bool := bool_decide (NODE_ENV = js "development").

(** [res.status(code).json({ success: false, error: {...} })] *)
Definition answer (code : Z) (msg : jsstring) (st : option Z) (d : option Value)
    (stk : option jsstring) : Reply :=
  {| http_status := code; success := false; error_message := msg; error_status := st;
     error_details := d; error_stack := stk |}.

(** [statusCode |= 0]: the status as a 32-bit integer. *)
Definition to_int32 (n : Z) : Z := (n + 2 ^ 31) mod 2 ^ 32 - 2 ^ 31.

(** The RangeError of Node for a status that cannot be written. *)
Definition ERR_HTTP_INVALID_STATUS_CODE (code : option Z) : ErrorObj :=
  {| class_of := CError; name := js "RangeError";
     message := js "Invalid status code: "
                ++ match code with
                   | Some c => Vault.Number_toString c
                   | None => js "undefined"
                   end;
     stack := []; status := None; details := None; body := None |}.

(** [res.status(code).json(...)] for a status read from the error: Express
    keeps it as it is given, and Node, when it writes the head, converts it
    with [|= 0] and throws unless it is then from 100 to 999. *)
Definition send_with_status (code : option Z) (reply : Z -> Reply) : H Reply :=
  let written := to_int32 (default 0 code) in
  if (100 <=? written) && (written <=? 999) then pure (reply written)
  else raise (ERR_HTTP_INVALID_STATUS_CODE code).

(** [errorHandler] *)
Definition errorHandler (err : ErrorObj) (req : Request) : H Reply :=
  do! logService_error "error_handler" then
  if instanceof err CValidationError then
    pure (answer 400 (message err) (Some 400) (details err) None)
  else if instanceof err CAuthenticationError || instanceof err CJsonWebTokenError then
    pure (answer 401 (message err) (Some 401) None None)
  else if instanceof err CAuthorizationError then
    pure (answer 403 (message err) (Some 403) None None)
  else if instanceof err CNotFoundError then
    pure (answer 404 (message err) (Some 404) None None)
  else if instanceof err CAppError then
    send_with_status (status err)
      (fun written => answer written (message err) (status err) (details err) None)
  else if development then
    pure (answer 500 (message err) (Some 500) None (Some (stack err)))
  else
    pure (answer 500 (js "Une erreur interne est survenue") (Some 500) None None).

(** [notFoundHandler]: the error it passes to [next]. *)
Definition notFoundHandler (req : Request) (stack : jsstring) : ErrorObj :=
  new_NotFoundError (js "Route " ++ method req ++ js " " ++ path req ++ js " non trouvée")
    stack.

(** [jsonSyntaxErrorHandler]: it answers, or passes the error on. *)
Definition jsonSyntaxErrorHandler (err : ErrorObj) (req : Request) : Reply + ErrorObj :=
  if instanceof err CSyntaxError && bool_decide (is_Some (body err)) then
    inl (answer 400 (js "Erreur de syntaxe JSON") None (Some (VStr (message err))) None)
  else inr err.

(** The error-handling middlewares in the order serveur.ts registers them:
    [jsonSyntaxErrorHandler], then [errorHandler]. *)
Definition error_chain (err : ErrorObj) (req : Request) : H Reply :=
  match jsonSyntaxErrorHandler err req with
  | inl reply => pure reply
  | inr err' => errorHandler err' req
  end.

(** The log after one entry of [logService.error]. *)
Definition logged_error (log : Log) (ev : string) : Log :=
  log ++ [{| level := error; event := ev |}].

Ltac run_error_handler :=
  cbv [error_chain jsonSyntaxErrorHandler errorHandler notFoundHandler and_then pure raise
       logService_error logged_error instanceof];
  cbn [class_of message stack status details body inherits superclass].

Lemma to_int32_small (n : Z) : - 2 ^ 31 <= n < 2 ^ 31 -> to_int32 n = n.
Proof. intros Hn. unfold to_int32. rewrite Z.mod_small by lia. lia. Qed.

(** An error of the class AppError itself is answered with its own status. *)
Lemma errorHandler_AppError (err : ErrorObj) (req : Request) (log : Log) :
  class_of err = CAppError ->
  errorHandler err req log
  = send_with_status (status err)
      (fun written => answer written (message err) (status err) (details err) None)
      (logged_error log "error_handler").
Proof.
  intros Hclass. unfold errorHandler, and_then, logService_error, logged_error, instanceof.
  rewrite Hclass. reflexivity.
Qed.

(** X20: for every error built by a constructor of types/index.ts whose
    status is from 100 to 999, [errorHandler] answers with the status the
    error carries, as the HTTP status and in the body, with the error's
    message, the error's details and no stack, and writes one entry to the
    error log; the statuses the handler hard-codes for the four subclasses
    are the ones their constructors set.  For an AppError with another
    32-bit status the handler itself throws the RangeError of Node, after
    the log entry, instead of answering. *)
Theorem errorHandler_answers_error_status (err : ErrorObj) (req : Request) (log : Log) :
  constructed err ->
  exists code,
    status err = Some code /\
    (100 <= code <= 999 ->
       errorHandler err req log
       = (Done (answer code (message err) (Some code) (details err) None),
          logged_error log "error_handler")) /\
    (- 2 ^ 31 <= code < 100 \/ 999 < code < 2 ^ 31 ->
       errorHandler err req log
       = (Raised (ERR_HTTP_INVALID_STATUS_CODE (Some code)),
          logged_error log "error_handler")).
Proof.
  intros Hbuilt. destruct Hbuilt as [m s d st | m d st | m st | m st | m st];
    eexists; (split; [reflexivity |]);
    try (split; [intros _; run_error_handler; reflexivity | intros Hout; lia]).
  rewrite (errorHandler_AppError (new_AppError m s d st) req log eq_refl).
  unfold send_with_status, pure, raise. cbn [status new_AppError message details].
  set (code := default 500 s). cbn [default from_option id].
  split; intros Hcode; rewrite to_int32_small by lia;
    destruct (Z.leb_spec 100 code), (Z.leb_spec code 999); try lia; reflexivity.
Qed.

(** X21: an error that is no AppError and no JsonWebTokenError is answered
    500.  Outside development the answer is the same for all such errors:
    the fixed message, no stack, no details, so nothing of the error reaches
    the client; in development the answer carries the error's message and
    its stack.  A jsonwebtoken error is answered 401 with its message in
    both. *)
Theorem errorHandler_foreign_errors (err : ErrorObj) (req : Request) (log : Log) :
  instanceof err CAppError = false ->
  (instanceof err CJsonWebTokenError = true ->
     errorHandler err req log
     = (Done (answer 401 (message err) (Some 401) None None),
        logged_error log "error_handler")) /\
  (instanceof err CJsonWebTokenError = false -> development = false ->
     errorHandler err req log
     = (Done (answer 500 (js "Une erreur interne est survenue") (Some 500) None None),
        logged_error log "error_handler")) /\
  (instanceof err CJsonWebTokenError = false -> development = true ->
     errorHandler err req log
     = (Done (answer 500 (message err) (Some 500) None (Some (stack err))),
        logged_error log "error_handler")).
Proof.
  unfold instanceof. intros Happ.
  destruct (class_of err) eqn:Hclass; try discriminate Happ;
    repeat split; intros Hjwt; try discriminate Hjwt;
    try intros Hdev; run_error_handler; rewrite Hclass;
    cbn [inherits superclass]; try rewrite Hdev; reflexivity.
Qed.

(** A request that no route takes is answered 404 with the message
    "Route <method> <path> non trouvée": [notFoundHandler] passes a
    NotFoundError to the error middlewares, [jsonSyntaxErrorHandler] lets it
    through and [errorHandler] answers, in development as elsewhere. *)
Theorem unknown_route_404 (req : Request) (stack : jsstring) (log : Log) :
  error_chain (notFoundHandler req stack) req log
  = (Done (answer 404
             (js "Route " ++ method req ++ js " " ++ path req ++ js " non trouvée")
             (Some 404) None None),
     logged_error log "error_handler").
Proof. run_error_handler. reflexivity. Qed.

(** X23: a SyntaxError that carries a [body] property (what the JSON body
    parser throws) is answered 400 "Erreur de syntaxe JSON" by
    [jsonSyntaxErrorHandler], with the parser's message as details; it never
    reaches [errorHandler] and leaves no log entry.  Any other error goes
    through to [errorHandler] unchanged. *)
Theorem json_syntax_error_400 (err : ErrorObj) (req : Request) (log : Log) :
  (class_of err = CSyntaxError -> is_Some (body err) ->
     error_chain err req log
     = (Done {| http_status := 400; success := false;
                error_message := js "Erreur de syntaxe JSON"; error_status := None;
                error_details := Some (VStr (message err)); error_stack := None |},
        log)) /\
  (class_of err <> CSyntaxError \/ body err = None ->
     error_chain err req log = errorHandler err req log).
Proof.
  split.
  - intros Hclass Hbody. unfold error_chain, jsonSyntaxErrorHandler, instanceof.
    rewrite Hclass, (bool_decide_true (is_Some (body err))) by exact Hbody.
    reflexivity.
  - intros Hother. unfold error_chain, jsonSyntaxErrorHandler, instanceof.
    destruct Hother as [Hclass | Hbody].
    + destruct (class_of err); try congruence; reflexivity.
    + rewrite Hbody. rewrite (bool_decide_false (is_Some None)) by (intros [? ?]; discriminate).
      rewrite andb_false_r. reflexivity.
Qed.

End Config.

(** A request for the examples. *)
Definition example_express_request : Request :=
  {| method := js "GET"; path := js "/api/inconnu"; ip := js "127.0.0.1";
     headers := ∅; req_body := None |}.

(** An error of a library: a plain [Error]. *)
Definition example_foreign_error : ErrorObj :=
  {| class_of := CError; name := js "Error";
     message := js "connect ECONNREFUSED 127.0.0.1:5432";
     stack := js "Error: connect ECONNREFUSED 127.0.0.1:5432 at db.js:12";
     status := None; details := None; body := None |}.

Lemma errorHandler_answers_error_status_witness :
  errorHandler (js "production") (new_AppError (js "Trop de requêtes") (Some 429) None [])
    example_express_request []
  = (Done (answer 429 (js "Trop de requêtes") (Some 429) None None),
     logged_error [] "error_handler") /\
  errorHandler (js "production") (new_AppError (js "Trop de requêtes") (Some 1000) None [])
    example_express_request []
  = (Raised (ERR_HTTP_INVALID_STATUS_CODE (Some 1000)), logged_error [] "error_handler").
Proof.
  split.
  - destruct (errorHandler_answers_error_status (js "production")
                (new_AppError (js "Trop de requêtes") (Some 429) None [])
                example_express_request [] (built_AppError _ _ _ _))
      as (code & Hcode & Hin & _).
    injection Hcode as <-. apply Hin. cbn. lia.
  - destruct (errorHandler_answers_error_status (js "production")
                (new_AppError (js "Trop de requêtes") (Some 1000) None [])
                example_express_request [] (built_AppError _ _ _ _))
      as (code & Hcode & _ & Hout).
    injection Hcode as <-. apply Hout. cbn. lia.
Defined.

Lemma errorHandler_foreign_errors_witness :
  errorHandler (js "production") example_foreign_error example_express_request []
  = (Done (answer 500 (js "Une erreur interne est survenue") (Some 500) None None),
     logged_error [] "error_handler").
Proof.
  destruct (errorHandler_foreign_errors (js "production") example_foreign_error
              example_express_request [] eq_refl) as (_ & Hproduction & _).
  apply Hproduction; vm_compute; reflexivity.
Defined.

End ErrorHandler.

(** ** serveur/middleware/security.ts *)

Module Security.
Import Types.

(** *** Strings *)

(** The white space and line terminators [String.prototype.trim] removes
    (ECMA-262 22.1.3.32); all of them are single code units. *)
Definition is_white_space (c : Z) : bool :=
  bool_decide (c ∈ [0x9; 0xA; 0xB; 0xC; 0xD; 0x20; 0xA0; 0x1680; 0x2028; 0x2029;
                    0x202F; 0x205F; 0x3000; 0xFEFF])
  || ((0x2000 <=? c) && (c <=? 0x200A)).

Fixpoint trimStart (s : jsstring) : jsstring :=
  match s with
  | c :: s' => if is_white_space c then trimStart s' else s
  | [] => []
  end.

Definition trimEnd (s : jsstring) : jsstring := rev (trimStart (rev s)).

(** [s.trim()] *)
Definition trim (s : jsstring) : jsstring := trimEnd (trimStart s).

(** [sub] starts [s]. *)
Fixpoint startsWith (s sub : jsstring) {struct sub} : bool :=
  match sub, s with
  | [], _ => true
  | c :: sub', d :: s' => (c =? d) && startsWith s' sub'
  | _ :: _, [] => false
  end.

(** [s.includes(sub)] *)
Fixpoint String_includes (s sub : jsstring) : bool :=
  startsWith s sub ||
  match s with
  | [] => false
  | _ :: s' => String_includes s' sub
  end.

(** [array.includes(x)] on strings *)
Definition Array_includes (array : list jsstring) (x : jsstring) : bool :=
  bool_decide (x ∈ array).

(** JS truthiness of a string that may be [undefined]. *)
Definition truthy (v : option jsstring) : bool :=
  match v with
  | Some (_ :: _) => true
  | _ => false
  end.

(** *** The middlewares *)

Definition allowedOrigins : list jsstring :=
  [js "https://app-resume.com"; js "https://www.app-resume.com"].

Definition with_body (req : Request) (b : gmap string Value) : Request :=
  {| method := method req; path := path req; ip := ip req; headers := headers req;
     req_body := Some b |}.

(** [if (typeof req.body[key] === 'string') req.body[key] = req.body[key].trim()] *)
Definition trim_field (b : gmap string Value) (key : string) : gmap string Value :=
  match b !! key with
  | Some (VStr s) => <[key := VStr (trim s)]> b
  | _ => b
  end.

(** [Object.keys(req.body)]: the keys, each once. *)
Definition Object_keys (b : gmap string Value) : list string := (map_to_list b).*1.

Section Config.

(** config.NODE_ENV and config.API_KEY *)
Variable NODE_ENV : jsstring.
Variable API_KEY : jsstring.

(** The stack the engine records in an error made by [new]. *)
Variable stack_trace : jsstring.

Definition development : bool := bool_decide (NODE_ENV = js "development").

(** [new Error(message)] *)
Definition new_Error (message : jsstring) : ErrorObj :=
  {| class_of := CError; name := js "Error"; message := message; stack := stack_trace;
     status := None; details := None; body := None |}.

(** [corsOptions.origin]: [callback(null, true)] or [callback(error)]. *)
Definition corsOptions_origin (origin : option jsstring) : Outcome bool :=
  if development then Done true
  else if negb (truthy origin) || Array_includes allowedOrigins (default [] origin)
  then Done true
  else Raised (new_Error (js "Non autorisé par CORS")).

(** A middleware calls [next()], here with the request as it leaves it, or
    throws. *)
Definition checkApiKey (req : Request) : H Request :=
  let apiKey := headers req !! "x-api-key" in
  if negb (truthy apiKey) || negb (bool_decide (apiKey = Some API_KEY)) then
    do! logService_warn "invalid_api_key" then
    raise (new_AppError (js "Clé API invalide") (Some 401) None stack_trace)
  else pure req.

Definition checkOrigin (req : Request) : H Request :=
  let origin := headers req !! "origin" in
  if development then pure req
  else if negb (truthy origin) then
    do! logService_warn "missing_origin" then
    raise (new_AppError (js "Origine manquante") (Some 400) None stack_trace)
  else if negb (Array_includes allowedOrigins (default [] origin)) then
    do! logService_warn "invalid_origin" then
    raise (new_AppError (js "Origine non autorisée") (Some 403) None stack_trace)
  else pure req.

Definition checkContentType (req : Request) : H Request :=
  if bool_decide (method req = js "POST") || bool_decide (method req = js "PUT") then
    let contentType := headers req !! "content-type" in
    if negb (truthy contentType)
       || negb (String_includes (default [] contentType) (js "application/json"))
    then raise (new_AppError (js "Content-Type doit être application/json") (Some 400) None
                  stack_trace)
    else pure req
  else pure req.

Definition sanitizeInput (req : Request) : H Request :=
  match req_body req with
  | Some b => pure (with_body req (foldl trim_field b (Object_keys b)))
  | None => pure req
  end.

(** Express around a middleware: what it throws goes to the error
    middlewares of errorHandler.ts. *)
Definition through (m : Request -> H Request) (req : Request) : H (Request + Reply) :=
  fun log =>
    match m req log with
    | (Done req', log') => (Done (inl req'), log')
    | (Raised err, log') =>
        match ErrorHandler.error_chain NODE_ENV err req log' with
        | (Done reply, log'') => (Done (inr reply), log'')
        | (Raised err', log'') => (Raised err', log'')
        end
    end.

(** *** What [trim] removes *)

(** A string does not start, or does not end, with white space. *)
Definition clean_start (s : jsstring) : Prop :=
  match s with
  | c :: _ => is_white_space c = false
  | [] => True
  end.

Definition clean_end (s : jsstring) : Prop := clean_start (rev s).

Definition trim_value (v : Value) : Value :=
  match v with
  | VStr s => VStr (trim s)
  | _ => v
  end.

Lemma trimStart_clean (s : jsstring) : clean_start (trimStart s).
Proof.
  induction s as [| c s IH]; cbn [trimStart]; [exact I |].
  destruct (is_white_space c) eqn:E; [exact IH | exact E].
Qed.

Lemma trimStart_fixed (s : jsstring) : clean_start s -> trimStart s = s.
Proof. destruct s as [| c s]; cbn; [reflexivity |]. intros ->. reflexivity. Qed.

Lemma trimStart_split (s : jsstring) :
  exists pre, s = pre ++ trimStart s /\ forallb is_white_space pre = true.
Proof.
  induction s as [| c s (pre & Hs & Hpre)]; cbn [trimStart]; [exists []; auto |].
  destruct (is_white_space c) eqn:E.
  - exists (c :: pre). cbn. rewrite E, Hpre, <- Hs. auto.
  - exists []. auto.
Qed.

Lemma forallb_rev {A} (f : A -> bool) (l : list A) : forallb f (rev l) = forallb f l.
Proof.
  induction l as [| x l IH]; [reflexivity |].
  cbn [rev forallb]. rewrite forallb_app, IH. cbn. rewrite andb_true_r. apply andb_comm.
Qed.

Lemma trimEnd_clean (s : jsstring) : clean_end (trimEnd s).
Proof. unfold clean_end, trimEnd. rewrite rev_involutive. apply trimStart_clean. Qed.

Lemma trimEnd_fixed (s : jsstring) : clean_end s -> trimEnd s = s.
Proof.
  unfold clean_end, trimEnd. intros Hs. rewrite (trimStart_fixed _ Hs).
  apply rev_involutive.
Qed.

Lemma trimEnd_split (s : jsstring) :
  exists post, s = trimEnd s ++ post /\ forallb is_white_space post = true.
Proof.
  destruct (trimStart_split (rev s)) as (pre & Hs & Hpre).
  exists (rev pre). split; [| rewrite forallb_rev; exact Hpre].
  apply (f_equal (@rev Z)) in Hs. rewrite rev_involutive, rev_app_distr in Hs. exact Hs.
Qed.

Lemma trimEnd_keeps_start (s : jsstring) : clean_start s -> clean_start (trimEnd s).
Proof.
  intros Hs. destruct (trimEnd_split s) as (post & Hsplit & _).
  destruct (trimEnd s) as [| c t]; [exact I |].
  rewrite Hsplit in Hs. exact Hs.
Qed.

Lemma trim_clean (s : jsstring) : clean_start (trim s) /\ clean_end (trim s).
Proof.
  unfold trim. split; [apply trimEnd_keeps_start, trimStart_clean | apply trimEnd_clean].
Qed.

Lemma trim_idempotent (s : jsstring) : trim (trim s) = trim s.
Proof.
  destruct (trim_clean s) as [Hstart Hend].
  unfold trim at 1. rewrite (trimStart_fixed _ Hstart). apply trimEnd_fixed, Hend.
Qed.

Lemma trim_split (s : jsstring) :
  exists pre post,
    s = pre ++ trim s ++ post /\
    forallb is_white_space pre = true /\ forallb is_white_space post = true.
Proof.
  destruct (trimStart_split s) as (pre & Hs & Hpre).
  destruct (trimEnd_split (trimStart s)) as (post & Ht & Hpost).
  exists pre, post. unfold trim. rewrite <- Ht. auto.
Qed.

Lemma trim_value_idempotent (v : Value) : trim_value (trim_value v) = trim_value v.
Proof. destruct v; cbn; try reflexivity. rewrite trim_idempotent. reflexivity. Qed.

(** *** The loop of [sanitizeInput] *)

Lemma trim_field_lookup (b : gmap string Value) (k0 k : string) :
  trim_field b k0 !! k = if bool_decide (k = k0) then trim_value <$> (b !! k) else b !! k.
Proof.
  unfold trim_field. destruct (bool_decide_reflect (k = k0)) as [-> | Hne].
  - destruct (b !! k0) as [[| | | s | |] |] eqn:Hk; rewrite ?Hk; try reflexivity.
    rewrite lookup_insert_eq. reflexivity.
  - destruct (b !! k0) as [[| | | s | |] |] eqn:Hk; try reflexivity.
    rewrite lookup_insert_ne by congruence. reflexivity.
Qed.

Lemma foldl_trim_field_lookup (ks : list string) :
  NoDup ks ->
  forall (b : gmap string Value) (k : string),
    foldl trim_field b ks !! k
    = if bool_decide (k ∈ ks) then trim_value <$> (b !! k) else b !! k.
Proof.
  induction 1 as [| k0 ks Hnotin Hnodup IH]; intros b k; [reflexivity |].
  cbn [foldl]. rewrite IH, trim_field_lookup.
  destruct (bool_decide_reflect (k = k0)) as [-> | Hne].
  - rewrite (bool_decide_false (k0 ∈ ks)) by exact Hnotin.
    rewrite bool_decide_true by (left). reflexivity.
  - destruct (bool_decide_reflect (k ∈ ks)) as [Hin | Hout].
    + rewrite bool_decide_true by (right; exact Hin). reflexivity.
    + rewrite bool_decide_false; [reflexivity |].
      intros Hin. apply elem_of_cons in Hin as [? | ?]; contradiction.
Qed.

(** The loop is a map over the fields. *)
Lemma sanitize_fields (b : gmap string Value) :
  foldl trim_field b (Object_keys b) = trim_value <$> b.
Proof.
  apply map_eq. intros k. unfold Object_keys.
  rewrite (foldl_trim_field_lookup _ (NoDup_fst_map_to_list b)), lookup_fmap.
  destruct (bool_decide_reflect (k ∈ (map_to_list b).*1)) as [_ | Hout]; [reflexivity |].
  destruct (b !! k) as [v |] eqn:Hk; [| reflexivity].
  exfalso. apply Hout.
  apply list_elem_of_fmap. exists (k, v). split; [reflexivity |].
  apply elem_of_map_to_list, Hk.
Qed.

(** *** Substrings *)

Lemma startsWith_spec (s sub : jsstring) :
  startsWith s sub = true <-> exists post, s = sub ++ post.
Proof.
  revert s. induction sub as [| c sub IH]; intros s; cbn [startsWith].
  - split; [intros _; exists s; reflexivity | reflexivity].
  - destruct s as [| d s].
    + split; [discriminate | intros (post & Hs); discriminate].
    + rewrite andb_true_iff, Z.eqb_eq, IH. split.
      * intros (-> & post & ->). exists post. reflexivity.
      * intros (post & Hs). injection Hs as -> ->. eauto.
Qed.

Lemma String_includes_spec (s sub : jsstring) :
  String_includes s sub = true <-> exists pre post, s = pre ++ sub ++ post.
Proof.
  induction s as [| d s IH]; cbn [String_includes]; rewrite orb_true_iff, startsWith_spec.
  - split.
    + intros [(post & Hs) | Hf]; [exists [], post; exact Hs | discriminate].
    + intros (pre & post & Hs). left. destruct pre; [exists post; exact Hs | discriminate].
  - rewrite IH. split.
    + intros [(post & Hs) | (pre & post & Hs)];
        [exists [], post; exact Hs | exists (d :: pre), post; rewrite Hs; reflexivity].
    + intros (pre & post & Hs). destruct pre as [| d' pre].
      * left. exists post. exact Hs.
      * right. injection Hs as -> ->. eauto.
Qed.

(** X24: [checkContentType] lets every request through whose method is not
    POST or PUT, whatever its headers, and a POST or PUT exactly when its
    content-type header contains "application/json" somewhere.  Any other
    POST or PUT (no header, an empty one, another type) is answered 400
    "Content-Type doit être application/json" by the error middlewares. *)
Theorem checkContentType_json_only (req : Request) (log : Log) :
  let guarded :=
    bool_decide (method req = js "POST") || bool_decide (method req = js "PUT") in
  let json :=
    exists pre post,
      headers req !! "content-type" = Some (pre ++ js "application/json" ++ post) in
  (guarded = false \/ json -> through checkContentType req log = (Done (inl req), log)) /\
  (guarded = true -> ~ json ->
     through checkContentType req log
     = (Done (inr (ErrorHandler.answer 400 (js "Content-Type doit être application/json")
                     (Some 400) None None)),
        ErrorHandler.logged_error log "error_handler")).
Proof.
  intros guarded json. subst guarded json. split.
  - intros Hpass. unfold through, checkContentType.
    destruct (bool_decide (method req = js "POST") || bool_decide (method req = js "PUT"));
      [| reflexivity].
    destruct Hpass as [Hf | (pre & post & Hct)]; [discriminate |].
    rewrite Hct. cbn [default from_option id].
    assert (Hin : String_includes (pre ++ js "application/json" ++ post)
                    (js "application/json") = true)
      by (apply String_includes_spec; eauto).
    rewrite Hin.
    destruct (pre ++ js "application/json" ++ post) as [| c t] eqn:Hs;
      [destruct pre; discriminate Hs | reflexivity].
  - intros Hguarded Hnot. unfold through, checkContentType. rewrite Hguarded.
    assert (Hreject :
      negb (truthy (headers req !! "content-type"))
      || negb (String_includes (default [] (headers req !! "content-type"))
                 (js "application/json")) = true).
    { destruct (headers req !! "content-type") as [ct |] eqn:Hct; [| reflexivity].
      destruct (String_includes (default [] (Some ct)) (js "application/json")) eqn:Hin;
        [| apply orb_true_r].
      exfalso. apply Hnot. cbn in Hin.
      apply String_includes_spec in Hin as (pre & post & ->). eauto. }
    rewrite Hreject. reflexivity.
Qed.

(** X25: outside development, [checkOrigin] lets a request through exactly
    when its Origin header is one of the two allowed origins, and the CORS
    callback allows exactly those and the requests without an Origin (or
    with an empty one); so everything [checkOrigin] accepts CORS allows, and
    what CORS allows and [checkOrigin] refuses is refused with 400 "Origine
    manquante", any other origin with 403.  In development both accept
    everything. *)
Theorem origin_checks (req : Request) (log : Log) :
  let origin := headers req !! "origin" in
  let allowed := exists o, origin = Some o /\ o ∈ allowedOrigins in
  (development = true ->
     checkOrigin req log = (Done req, log) /\ corsOptions_origin origin = Done true) /\
  (development = false ->
     (allowed ->
        checkOrigin req log = (Done req, log) /\ corsOptions_origin origin = Done true) /\
     (truthy origin = false ->
        checkOrigin req log
        = (Raised (new_AppError (js "Origine manquante") (Some 400) None stack_trace),
           log ++ [{| level := warn; event := "missing_origin" |}]) /\
        corsOptions_origin origin = Done true) /\
     (truthy origin = true -> ~ allowed ->
        checkOrigin req log
        = (Raised (new_AppError (js "Origine non autorisée") (Some 403) None stack_trace),
           log ++ [{| level := warn; event := "invalid_origin" |}]) /\
        corsOptions_origin origin = Raised (new_Error (js "Non autorisé par CORS")))).
Proof.
  intros origin allowed. subst origin allowed.
  unfold checkOrigin, corsOptions_origin, Array_includes.
  split; [intros ->; split; reflexivity |].
  intros ->. split; [| split].
  - intros (o & Ho & Hin). rewrite Ho. cbn [default from_option id].
    rewrite (bool_decide_true (o ∈ allowedOrigins)) by exact Hin.
    assert (Ht : truthy (Some o) = true).
    { destruct o; [| reflexivity]. exfalso.
      apply elem_of_cons in Hin as [Hin | Hin]; [discriminate Hin |].
      apply elem_of_cons in Hin as [Hin | Hin]; [discriminate Hin |].
      inversion Hin. }
    rewrite Ht. cbn. split; reflexivity.
  - intros Hf. rewrite Hf. split; reflexivity.
  - intros Ht Hnot. rewrite Ht. cbn [negb orb].
    destruct (headers req !! "origin") as [o |]; [| discriminate Ht].
    cbn [default from_option id].
    rewrite (bool_decide_false (o ∈ allowedOrigins)) by (intros Hin; apply Hnot; eauto).
    split; reflexivity.
Qed.

(** X26: [sanitizeInput] always calls [next()].  It replaces each string
    field of the body by its [trim()]: the same string without the white
    space at its two ends, everything in between kept; values that are not
    strings (numbers, arrays, nested objects, and the strings inside them)
    and the set of keys stay, and running it a second time changes
    nothing. *)
Theorem sanitizeInput_trims (req : Request) (b : gmap string Value) (log : Log) :
  req_body req = Some b ->
  exists b',
    sanitizeInput req log = (Done (with_body req b'), log) /\
    (forall key, b' !! key = trim_value <$> (b !! key)) /\
    (forall key s,
       b !! key = Some (VStr s) ->
       exists pre post,
         b' !! key = Some (VStr (trim s)) /\
         s = pre ++ trim s ++ post /\
         forallb is_white_space pre = true /\ forallb is_white_space post = true /\
         clean_start (trim s) /\ clean_end (trim s)) /\
    (forall key v, b !! key = Some v -> (forall s, v <> VStr s) -> b' !! key = Some v) /\
    sanitizeInput (with_body req b') log = (Done (with_body req b'), log).
Proof.
  intros Hbody. exists (trim_value <$> b).
  unfold sanitizeInput. rewrite Hbody. cbn [req_body with_body].
  rewrite !sanitize_fields.
  split; [reflexivity |].
  split; [intros key; apply lookup_fmap |].
  split; [| split].
  - intros key s Hs. destruct (trim_split s) as (pre & post & Hsplit & Hpre & Hpost).
    exists pre, post. rewrite lookup_fmap, Hs.
    destruct (trim_clean s) as [Hstart Hend]. auto 10.
  - intros key v Hv Hnot. rewrite lookup_fmap, Hv.
    destruct v; try reflexivity. exfalso. exact (Hnot _ eq_refl).
  - unfold pure. do 2 f_equal. unfold with_body. cbn. do 2 f_equal.
    rewrite <- map_fmap_compose. apply map_fmap_ext.
    intros key v _. apply trim_value_idempotent.
Qed.

(** X27: [checkApiKey] lets a request through exactly when its x-api-key
    header is the configured key and that key is not empty.  Every other
    request, the ones without the header included, is logged as
    invalid_api_key and answered 401 "Clé API invalide" by the error
    middlewares. *)
Theorem checkApiKey_exact_key (req : Request) (log : Log) :
  (headers req !! "x-api-key" = Some API_KEY -> API_KEY <> [] ->
     through checkApiKey req log = (Done (inl req), log)) /\
  (headers req !! "x-api-key" <> Some API_KEY \/ API_KEY = [] ->
     through checkApiKey req log
     = (Done (inr (ErrorHandler.answer 401 (js "Clé API invalide") (Some 401) None None)),
        ErrorHandler.logged_error
          (log ++ [{| level := warn; event := "invalid_api_key" |}]) "error_handler")).
Proof.
  split.
  - intros Hkey Hne. unfold through, checkApiKey. rewrite Hkey.
    rewrite bool_decide_true by reflexivity.
    destruct API_KEY; [congruence | reflexivity].
  - intros Hbad. unfold through, checkApiKey.
    assert (Hreject :
      negb (truthy (headers req !! "x-api-key"))
      || negb (bool_decide (headers req !! "x-api-key" = Some API_KEY)) = true).
    { destruct Hbad as [Hne | Hempty].
      - rewrite (bool_decide_false _ Hne). apply orb_true_r.
      - destruct (bool_decide_reflect (headers req !! "x-api-key" = Some API_KEY)) as [-> | _];
          [rewrite Hempty; reflexivity | apply orb_true_r]. }
    rewrite Hreject. reflexivity.
Qed.

End Config.

Definition example_body : gmap string Value :=
  {[ "nom" := VStr (js "  Jean Dupont ") ; "age" := VNum 41 ]}.

Definition example_post : Request :=
  {| method := js "POST"; path := js "/api/profil"; ip := js "127.0.0.1";
     headers := {[ "content-type" := js "application/json" ]};
     req_body := Some example_body |}.

Lemma sanitizeInput_trims_witness :
  exists b',
    sanitizeInput example_post [] = (Done (with_body example_post b'), []) /\
    b' !! "nom" = Some (VStr (js "Jean Dupont")) /\
    b' !! "age" = Some (VNum 41).
Proof.
  destruct (sanitizeInput_trims example_post example_body [] eq_refl)
    as (b' & Hrun & Hfields & _).
  exists b'. split; [exact Hrun |].
  rewrite !Hfields. split; vm_compute; reflexivity.
Defined.

End Security.

(** ** passwordService.findAll *)

Module PasswordList.
Import PasswordService.

(** The service's world, and the users whose records were listed. *)
Record World := {
  service : PasswordService.World;
  listings : list Z
}.

(** A call of the rest of the service, in this world. *)
Definition lift {A} (m : M PasswordService.World A) : M World A :=
  fun w => (fst (m (service w)),
            {| service := snd (m (service w)); listings := listings w |}).

(** Rows in the order of [ORDER BY cree_le DESC]. *)
Fixpoint descending (rows : list PasswordModel) : Prop :=
  match rows with
  | a :: (b :: _) as rest => cree_le b <= cree_le a /\ descending rest
  | _ => True
  end.

Section Order.

(** [ORDER BY cree_le DESC] as PostgreSQL does it: the rows sorted, those of
    equal [cree_le] in an order of its choosing. *)
Variable order_by_cree_le_desc : list PasswordModel -> list PasswordModel.

Definition orders : Prop :=
  forall rows,
    Permutation (order_by_cree_le_desc rows) rows /\
    descending (order_by_cree_le_desc rows).

(** [SELECT * FROM mots_de_passe WHERE utilisateur_id = $1 ORDER BY cree_le
    DESC] *)
Definition select_owner (d : Db) (u : Z) : list PasswordModel :=
  order_by_cree_le_desc
    (List.filter (fun r => utilisateur_id r =? u) (map snd (map_to_list (mots_de_passe d)))).

Definition db_query_owner (u : Z) : M World (list PasswordModel) :=
  do modify (fun w => {| service := service w; listings := listings w ++ [u] |}) then
  let* w := get in
  ret (select_owner (db (service w)) u).

(** passwordService.findAll *)
Definition findAll (u : Z) : M World (list PasswordModel) :=
  try_catch
    (let* rows := db_query_owner u in ret rows)
    (fun error => do lift (logService_error "password_fetch_error") then throw error).

Lemma select_owner_rows (d : Db) (u : Z) (r : PasswordModel) :
  orders ->
  In r (select_owner d u) <->
  (exists i, mots_de_passe d !! i = Some r) /\ utilisateur_id r = u.
Proof.
  intros Horders. unfold select_owner.
  destruct (Horders (List.filter (fun r => utilisateur_id r =? u)
                       (map snd (map_to_list (mots_de_passe d))))) as [Hperm _].
  split.
  - intros Hin. apply (Permutation_in _ Hperm) in Hin.
    apply filter_In in Hin as [Hin Howner]. apply in_map_iff in Hin as ([i r'] & Hr & Hin).
    cbn in Hr. subst r'. apply list_elem_of_In, elem_of_map_to_list in Hin.
    split; [eauto | apply Z.eqb_eq, Howner].
  - intros ((i & Hrow) & Howner).
    apply (Permutation_in _ (Permutation_sym Hperm)).
    apply filter_In. split; [| apply Z.eqb_eq, Howner].
    apply in_map_iff. exists (i, r). split; [reflexivity |].
    apply list_elem_of_In, elem_of_map_to_list, Hrow.
Qed.

(** X22: [findAll] returns the records of the given user, all of them and
    none of anyone else, the most recently created first, and changes
    nothing in the database. *)
Theorem findAll_lists_own_rows (u : Z) (w : World) :
  orders ->
  exists rows,
    findAll u w = (Ok rows, {| service := service w; listings := listings w ++ [u] |}) /\
    (forall r, In r rows <->
       (exists i, mots_de_passe (db (service w)) !! i = Some r) /\ utilisateur_id r = u) /\
    descending rows.
Proof.
  intros Horders. exists (select_owner (db (service w)) u).
  split; [reflexivity |].
  split; [intros r; apply select_owner_rows, Horders |].
  apply Horders.
Qed.

Section Bcrypt.

Variable BCRYPT_ROUNDS : Z.
Variable salt_source : nat -> Z -> jsstring.
Variable bcrypt_digest : jsstring -> jsstring -> jsstring.

(** A record made by [create] is in the listing of its user from then on,
    and in nobody else's. *)
Lemma create_then_findAll (data : CreateData) (w : World) :
  orders ->
  insertable BCRYPT_ROUNDS salt_source bcrypt_digest data (service w) ->
  let created := lift (create BCRYPT_ROUNDS salt_source bcrypt_digest data) w in
  exists r,
    fst created = Ok (Some r) /\
    In r (select_owner (db (service (snd created))) (c_utilisateur_id data)) /\
    (forall B, B <> c_utilisateur_id data ->
       ~ In r (select_owner (db (service (snd created))) B)).
Proof.
  intros Horders Hfresh created.
  destruct (create_stores_digest BCRYPT_ROUNDS salt_source bcrypt_digest data (service w)
              Hfresh) as (Hrun & Hstore & _).
  cbv zeta in Hrun, Hstore.
  match type of Hrun with _ = Ok (Some ?x) => set (r := x) in * end.
  exists r. subst created. unfold lift. cbn [fst snd service].
  split; [exact Hrun |].
  split.
  - apply select_owner_rows; [exact Horders |].
    split; [| reflexivity]. exists (id r). rewrite Hstore. apply lookup_insert_eq.
  - intros B HB Hin. apply select_owner_rows in Hin as [_ Hu]; [| exact Horders].
    apply HB. symmetry. exact Hu.
Qed.

End Bcrypt.

End Order.

(** An order for the examples: insertion into a descending list. *)
Fixpoint insert_desc (r : PasswordModel) (rows : list PasswordModel) : list PasswordModel :=
  match rows with
  | [] => [r]
  | a :: rest => if cree_le a <=? cree_le r then r :: a :: rest else a :: insert_desc r rest
  end.

Definition sort_desc (rows : list PasswordModel) : list PasswordModel :=
  foldr insert_desc [] rows.

Lemma insert_desc_permutes (r : PasswordModel) (rows : list PasswordModel) :
  Permutation (insert_desc r rows) (r :: rows).
Proof.
  induction rows as [| a rest IH]; cbn [insert_desc]; [reflexivity |].
  destruct (cree_le a <=? cree_le r); [reflexivity |].
  rewrite IH. apply perm_swap.
Qed.

Lemma insert_desc_descending (r : PasswordModel) (rows : list PasswordModel) :
  descending rows -> descending (insert_desc r rows).
Proof.
  induction rows as [| a rest IH]; intros Hrows; cbn [insert_desc]; [exact I |].
  destruct (Z.leb_spec (cree_le a) (cree_le r)) as [Hle | Hgt].
  - split; assumption.
  - destruct rest as [| b rest]; cbn [insert_desc] in *.
    + split; [lia | exact I].
    + destruct Hrows as [Hab Hrest].
      destruct (Z.leb_spec (cree_le b) (cree_le r)) as [Hle' | Hgt'].
      * split; [lia |]. split; assumption.
      * specialize (IH Hrest). destruct (Z.leb_spec (cree_le b) (cree_le r)); [lia |].
        split; assumption.
Qed.

Lemma sort_desc_orders : orders sort_desc.
Proof.
  intros rows. unfold sort_desc. induction rows as [| r rows [IHp IHd]]; cbn [foldr].
  - split; [reflexivity | exact I].
  - split; [rewrite insert_desc_permutes, IHp; reflexivity |].
    apply insert_desc_descending, IHd.
Qed.

Definition example_list_world : World :=
  {| service := example_service_world; listings := [] |}.

Lemma findAll_lists_own_rows_witness :
  exists rows,
    findAll sort_desc 1 example_list_world
    = (Ok rows, {| service := example_service_world; listings := [1] |}) /\
    (forall r, In r rows <->
       (exists i, mots_de_passe (db example_service_world) !! i = Some r) /\
       utilisateur_id r = 1) /\
    descending rows.
Proof.
  apply (findAll_lists_own_rows sort_desc 1 example_list_world).
  exact sort_desc_orders.
Defined.

End PasswordList.

(** ** middleware/auth.js : verifierAdmin *)

Module Admin.
Import Buf Vault.

(** A row of [administrateurs]. *)
Record Administrateur := {
  a_id : Z;
  a_email : jsstring;
  a_mot_de_passe_hash : jsstring;
  a_role : jsstring
}.

(** The table, and the number of queries made on it. *)
Record World := {
  administrateurs : gmap Z Administrateur;
  queries : nat
}.

(** [next()] with [req.admin] set, or the answer sent. *)
Inductive Step :=
| Next (req : Req) (admin : Administrateur)
| Respond (res : Response).

Definition queried (w : World) : World :=
  {| administrateurs := administrateurs w; queries := S (queries w) |}.

(** [SELECT * FROM administrateurs WHERE id = $1] *)
Definition select_administrateur (i : Z) : M World (list Administrateur) :=
  do modify queried then
  let* w := get in
  ret (match administrateurs w !! i with Some a => [a] | None => [] end).

Section Libraries.

(** [jwt.verify(token, config.JWT_SECRET)] *)
Variable jwt_verify : jsstring -> Res Payload.

Definition verifierAdmin (req : Req) : M World Step :=
  try_catch
    (let token := bearer_token req in
     if negb (token_truthy token) then
       ret (Respond (reply 401 (localise (langue req) "Token non fourni" "No token provided")))
     else
       let token := default [] token in
       let* decoded := Codec.lift (jwt_verify token) in
       let* admin := select_administrateur (payload_id decoded) in
       match admin with
       | [] => ret (Respond (reply 403 (localise (langue req) "Accès refusé" "Access denied")))
       | a :: _ => ret (Next req a)
       end)
    (fun error =>
       ret (Respond (reply 401 (localise (langue req) "Token invalide" "Invalid token")))).

(** X28: [verifierAdmin] decides on the token and the table of
    administrators alone.  A request whose bearer token verifies to an id
    that is in [administrateurs] goes through, [req.admin] set and
    [req.utilisateur] left as it was, whether or not a session carries the
    token: also when [verifierToken] answers 401 to the same request.  When
    the id is not in the table the answer is 403. *)
Theorem verifierAdmin_checks_id_only (req : Req) (aw : World) (w : Vault.World)
    (t : jsstring) (p : Payload) :
  bearer_token req = Some t ->
  t <> [] ->
  jwt_verify t = Ok p ->
  (forall a, administrateurs aw !! payload_id p = Some a ->
     verifierAdmin req aw = (Ok (Next req a), queried aw)) /\
  (administrateurs aw !! payload_id p = None ->
     verifierAdmin req aw
     = (Ok (Respond (reply 403 (localise (langue req) "Accès refusé" "Access denied"))),
        queried aw)) /\
  (session_valid jwt_verify req w = false ->
     exists w',
       verifierToken jwt_verify req w
       = (Ok (Vault.Respond (reply 401 (localise (langue req) "Session expirée"
                                          "Session expired"))), w')).
Proof.
  intros Htoken Hne Hjwt.
  destruct t as [| c t]; [congruence |].
  repeat split.
  - intros a Ha.
    cbv [verifierAdmin select_administrateur try_catch bind Codec.lift modify get ret].
    rewrite Htoken. cbn [token_truthy negb default from_option id]. rewrite Hjwt.
    cbn [administrateurs queried]. rewrite Ha. reflexivity.
  - intros Ha.
    cbv [verifierAdmin select_administrateur try_catch bind Codec.lift modify get ret].
    rewrite Htoken. cbn [token_truthy negb default from_option id]. rewrite Hjwt.
    cbn [administrateurs queried]. rewrite Ha. reflexivity.
  - unfold session_valid. rewrite Htoken, Hjwt. intros Hnone.
    cbv [verifierToken select_sessions try_catch bind Codec.lift emit modify get ret].
    rewrite Htoken. cbn [token_truthy negb default from_option id]. rewrite Hjwt.
    cbn [sessions NOW]. rewrite filter_length_existsb, Hnone.
    eexists. reflexivity.
Qed.

End Libraries.

Definition example_admin : Administrateur :=
  {| a_id := 1; a_email := lit "admin@example.com";
     a_mot_de_passe_hash := lit "$2b$10$hash"; a_role := lit "admin" |}.

Definition example_admins : World :=
  {| administrateurs := {[ 1 := example_admin ]}; queries := 0 |}.

(** The world of the vault with the session of user 1 expired. *)
Definition expired_world : Vault.World :=
  {| sessions := [ {| s_utilisateur_id := 1; s_token := lit "good.token";
                      s_expire_le := 10 |} ];
     utilisateurs := utilisateurs example_world;
     mots_de_passe_stockes := ∅; mots_de_passe_stockes_id_seq := 1; NOW := 1000;
     randomBytes_calls := 0; trace := [] |}.

Lemma verifierAdmin_checks_id_only_witness :
  let req := example_request (Some (lit "Bearer good.token")) [] [] in
  verifierAdmin example_jwt_verify req example_admins
  = (Ok (Next req example_admin), queried example_admins) /\
  exists w',
    verifierToken example_jwt_verify req expired_world
    = (Ok (Vault.Respond (reply 401 "Session expired")), w').
Proof.
  intros req.
  pose proof (verifierAdmin_checks_id_only example_jwt_verify req example_admins
                expired_world (lit "good.token") {| payload_id := 1 |}
                eq_refl) as H.
  destruct H as (Hin & _ & Hexpired); [discriminate | reflexivity |].
  split; [apply Hin; reflexivity | apply Hexpired; reflexivity].
Defined.

End Admin.

(** ** utils/helpers.ts *)

Module Helpers.
Import Strength Generator.

(** *** isValidPassword *)

Record Validity := { isValid : bool; errors : list string }.

Definition err_length : string := "Le mot de passe doit contenir au moins 8 caractères".
Definition err_upper : string := "Le mot de passe doit contenir au moins une majuscule".
Definition err_lower : string := "Le mot de passe doit contenir au moins une minuscule".
Definition err_digit : string := "Le mot de passe doit contenir au moins un chiffre".
Definition err_special : string :=
  "Le mot de passe doit contenir au moins un caractère spécial".

(** One [if (cond) errors.push(msg)]. *)
Definition push_if (cond : bool) (msg : string) (errors : list string) : list string :=
  if cond then errors ++ [msg] else errors.

Definition isValidPassword (password : jsstring) : Validity :=
  let errors := [] in
  let errors := push_if (str_length password <? 8) err_length errors in
  let errors := push_if (negb (regex_test is_upper password)) err_upper errors in
  let errors := push_if (negb (regex_test is_lower password)) err_lower errors in
  let errors := push_if (negb (regex_test is_digit password)) err_digit errors in
  let errors := push_if (negb (regex_test is_special password)) err_special errors in
  {| isValid := (length errors =? 0)%nat; errors := errors |}.

(** *** isValidPin, generatePin *)

(** [/^\d{6}$/.test(pin)]: six characters, all of them digits. *)
Definition isValidPin (pin : jsstring) : bool :=
  (length pin =? 6)%nat && forallb is_digit pin.

Section Random.

Variable random_bits : nat -> Z.

(** [Math.floor(Math.random() * 10)]: the product of the two doubles is the
    double nearest to the exact product. *)
Definition random_digit : M Rng Z :=
  let* r := Math_random random_bits in
  ret (Double.round_to_double (r * 10) / 2 ^ 53).

(** [Array.from({ length }, () => Math.floor(Math.random() * 10))] *)
Fixpoint Array_from (length : nat) : M Rng (list Z) :=
  match length with
  | O => ret []
  | S length' =>
      let* d := random_digit in
      let* rest := Array_from length' in
      ret (d :: rest)
  end.

(** [String(d)] for one of the digits 0 to 9. *)
Definition digit_toString (d : Z) : jsstring := [48 + d].

(** [generatePin]; [join('')] concatenates the digits' strings. *)
Definition generatePin (length : nat) : M Rng jsstring :=
  let* digits := Array_from length in
  ret (flat_map digit_toString digits).

Lemma random_digit_range (st : Rng) :
  exists d, random_digit st = (Ok d, S st) /\ 0 <= d <= 9.
Proof.
  unfold random_digit, bind, Math_random, ret. eexists. split; [reflexivity |].
  assert (Hr : 0 <= random_bits st mod 2 ^ 53 < 2 ^ 53) by (apply Z.mod_pos_bound; lia).
  pose proof (Double.floor_product_range _ 10 Hr eq_refl). lia.
Qed.

Lemma Array_from_digits (length : nat) :
  forall st,
    exists ds,
      Array_from length st = (Ok ds, (st + length)%nat) /\
      List.length ds = length /\ Forall (fun d => 0 <= d <= 9) ds.
Proof.
  induction length as [| n IH]; intros st; cbn [Array_from].
  - exists []. rewrite Nat.add_0_r. split; [reflexivity |]. split; [reflexivity | constructor].
  - destruct (random_digit_range st) as (d & Hd & Hrange).
    destruct (IH (S st)) as (ds & Hds & Hlen & Hall).
    exists (d :: ds). unfold bind at 1. rewrite Hd. unfold bind, ret. rewrite Hds.
    rewrite Nat.add_succ_r. cbn [List.length].
    split; [reflexivity |]. split; [congruence | constructor; assumption].
Qed.

Lemma digits_toString (ds : list Z) :
  Forall (fun d => 0 <= d <= 9) ds ->
  List.length (flat_map digit_toString ds) = List.length ds /\
  forallb is_digit (flat_map digit_toString ds) = true.
Proof.
  induction 1 as [| d ds Hd Hall [IHlen IHdig]]; [split; reflexivity |].
  cbn [flat_map digit_toString app List.length forallb]. rewrite IHlen, IHdig.
  split; [reflexivity |]. rewrite andb_true_r. unfold is_digit. lia.
Qed.

(** X30: [generatePin(length)] returns a string of exactly [length]
    decimal digits, using one [Math.random()] call per digit; [isValidPin]
    accepts it exactly when the length is 6, so always for the default
    length. *)
Theorem generatePin_digits (length : nat) (st : Rng) :
  exists pin,
    generatePin length st = (Ok pin, (st + length)%nat) /\
    List.length pin = length /\
    forallb is_digit pin = true /\
    (isValidPin pin = true <-> length = 6%nat).
Proof.
  destruct (Array_from_digits length st) as (ds & Hrun & Hlen & Hall).
  destruct (digits_toString ds Hall) as [Hlen' Hdig].
  exists (flat_map digit_toString ds).
  unfold generatePin, bind, ret. rewrite Hrun.
  split; [reflexivity |]. split; [congruence |]. split; [exact Hdig |].
  unfold isValidPin. rewrite Hdig, andb_true_r, Hlen', Hlen. apply Nat.eqb_eq.
Qed.

End Random.

(** X29: [isValidPassword] of utils/helpers.ts and [checkPasswordStrength]
    of the password service agree: a password is valid exactly when the
    strength feedback is the sentinel; when it is not, the two report the
    same number of failures; and the score is 5 minus the number of errors,
    plus 1 from 12 code units on. *)
Theorem isValidPassword_agrees_with_strength (password : jsstring) :
  let v := isValidPassword password in
  let s := checkPasswordStrength password in
  (isValid v = true <-> feedback s = [msg_strong]) /\
  (isValid v = true <-> errors v = []) /\
  (isValid v = false -> length (errors v) = length (feedback s)) /\
  score s = 5 - Z.of_nat (length (errors v))
            + (if 12 <=? str_length password then 1 else 0).
Proof.
  cbv zeta. unfold isValidPassword, checkPasswordStrength, criterion, push_if.
  cbn [isValid errors score feedback fst snd].
  rewrite (Z.ltb_antisym 8 (str_length password)).
  destruct (8 <=? str_length password), (regex_test is_upper password),
    (regex_test is_lower password), (regex_test is_digit password),
    (regex_test is_special password), (12 <=? str_length password);
    cbn; repeat split; intros; try discriminate; try reflexivity; try lia.
Qed.

Example isValidPin_examples :
  isValidPin (lit "123456") = true /\ isValidPin (lit "12345") = false /\
  isValidPin (lit "1234567") = false /\ isValidPin (lit "12345a") = false.
Proof. repeat split. Qed.

End Helpers.
